(** * Common Lisp style packages (src/pkg.c): a shallow embedding

    The package system of pkg.c is embedded as functions over an explicit
    Lisp state: a heap of package objects, a heap of symbol objects, a heap
    of vectors (legacy obarrays), the package registry and the two global
    variables [Vearmuffs_package] and [Vkeyword_package].  Functions that
    can signal a Lisp error or dereference an object of the wrong type
    return a [result]. *)

From Stdlib Require Import Ascii String.
From stdpp Require Import gmap strings list fin_maps.


(** ** Lisp objects *)

(** A Lisp_Object is a tagged value.  Symbols, packages and vectors are
    references into the corresponding heap of the state; [EQ] is equality
    of references.  A string is the sequence of its bytes.  A character
    is a fixnum (CHARACTERP); other types of object play no part in
    pkg.c. *)
Inductive Lisp_Object : Type :=
  | LSymbol (s : positive)
  | LString (s : string)
  | LFixnum (n : Z)
  | LPackage (p : positive)
  | LVector (v : positive).

#[global] Instance Lisp_Object_eq_dec : EqDecision Lisp_Object.
Proof. solve_decision. Defined.

(** The built-in symbols [nil], [t] and [unbound] live in static storage
    (the lispsym array); they are never returned by [Fmake_symbol]. *)
Definition Qnil : Lisp_Object := LSymbol 1.
Definition Qt : Lisp_Object := LSymbol 2.
Definition Qunbound : Lisp_Object := LSymbol 3.
Definition builtin_symbols : gset positive := {[ 1%positive; 2%positive; 3%positive ]}.

Definition EQ (a b : Lisp_Object) : bool := bool_decide (a = b).
Definition NILP (a : Lisp_Object) : bool := EQ a Qnil.

Definition SYMBOLP (o : Lisp_Object) : bool :=
  match o with LSymbol _ => true | _ => false end.
Definition STRINGP (o : Lisp_Object) : bool :=
  match o with LString _ => true | _ => false end.
(** MAX_CHAR, the largest character code (0x3FFFFF). *)
Definition MAX_CHAR : Z := 4194303.
(** CHARACTERP (x): FIXNATP (x) && XFIXNAT (x) <= MAX_CHAR. *)
Definition CHARACTERP (o : Lisp_Object) : bool :=
  match o with
  | LFixnum n => bool_decide (0 ≤ n ≤ MAX_CHAR)%Z
  | _ => false
  end.
Definition PACKAGEP (o : Lisp_Object) : bool :=
  match o with LPackage _ => true | _ => false end.
Definition VECTORP (o : Lisp_Object) : bool :=
  match o with LVector _ => true | _ => false end.

(** The status of a symbol in a package: the keywords [:internal],
    [:external] and [:inherited].  These are the values pkg.c stores in a
    symbol table and compares with; a status variable that has not been
    given one of them (nil) is [None] of [option Status]. *)
Inductive Status : Type := QCinternal | QCexternal | QCinherited.

#[global] Instance Status_eq_dec : EqDecision Status.
Proof. solve_decision. Defined.

Inductive symbol_redirect : Type :=
  | SYMBOL_PLAINVAL | SYMBOL_VARALIAS | SYMBOL_LOCALIZED | SYMBOL_FORWARDED.

Inductive symbol_trapped_write : Type :=
  | SYMBOL_UNTRAPPED_WRITE | SYMBOL_NOWRITE | SYMBOL_TRAPPED_WRITE.

(** struct Lisp_Symbol, the fields pkg.c reads or writes. *)
Record Lisp_Symbol : Type := mkSymbol {
  sym_name : string;
  sym_package : Lisp_Object;
  sym_redirect : symbol_redirect;
  sym_value : Lisp_Object;
  sym_trapped_write : symbol_trapped_write;
  sym_declared_special : bool
}.

(** struct Lisp_Package.  The symbol table is a hash table with test
    [string-equal] whose keys are symbol objects and whose values are
    statuses: it is keyed by the symbol's name and stores the symbol
    object (HASH_KEY) together with the status (HASH_VALUE). *)
Record Lisp_Package : Type := mkPackage {
  pkg_name : Lisp_Object;
  pkg_nicknames : list Lisp_Object;
  pkg_symbols : gmap string (Lisp_Object * Status);
  pkg_use_list : list Lisp_Object;
  pkg_shadowing_symbols : list Lisp_Object
}.

Record State : Type := mkState {
  packages : gmap positive Lisp_Package;
  symbol_heap : gmap positive Lisp_Symbol;
  vectors : gmap positive (list Lisp_Object);
  Vpackage_registry : gmap string Lisp_Object;
  Vearmuffs_package : Lisp_Object;
  Vkeyword_package : Lisp_Object
}.

(** ** Errors *)

Inductive error : Type :=
  | wrong_type_argument
  | args_out_of_range
  | Not_a_string_designator
  | Not_a_package
  | UnboundInPackage     (* "Symbol '%s' is not accessible in package '%s'" *)
  | NotExternal.         (* "Symbol '%s' is internal in package '%s'" *)

(** [Signal e] is a Lisp error, [Undefined] the dereference of an object
    of the wrong type (XPACKAGE of a non-package, XSYMBOL of a non-symbol:
    the eassert in front of it is compiled out in a production build),
    [OutOfFuel] the exhaustion of the recursion budget of the model. *)
Inductive result (A : Type) : Type :=
  | Done (a : A)
  | Signal (e : error)
  | Undefined
  | OutOfFuel.
Arguments Done {A} a.
Arguments Signal {A} e.
Arguments Undefined {A}.
Arguments OutOfFuel {A}.

#[global] Instance result_bind : MBind result := λ A B k m,
  match m with
  | Done a => k a
  | Signal e => Signal e
  | Undefined => Undefined
  | OutOfFuel => OutOfFuel
  end.

(** ** Object access *)

Definition XPACKAGE (st : State) (o : Lisp_Object) : result Lisp_Package :=
  match o with
  | LPackage p =>
      match packages st !! p with Some pkg => Done pkg | None => Undefined end
  | _ => Undefined
  end.

Definition XSYMBOL (st : State) (o : Lisp_Object) : result Lisp_Symbol :=
  match o with
  | LSymbol s =>
      match symbol_heap st !! s with Some sym => Done sym | None => Undefined end
  | _ => Undefined
  end.

Definition SYMBOL_NAME (st : State) (o : Lisp_Object) : result string :=
  sym ← XSYMBOL st o; Done (sym_name sym).

Definition SYMBOL_PACKAGE (st : State) (o : Lisp_Object) : result Lisp_Object :=
  sym ← XSYMBOL st o; Done (sym_package sym).

Definition CHECK_STRING (o : Lisp_Object) : result string :=
  match o with LString s => Done s | _ => Signal wrong_type_argument end.

Definition CHECK_SYMBOL (o : Lisp_Object) : result unit :=
  if SYMBOLP o then Done tt else Signal wrong_type_argument.

(** NILP (Fmemq (elt, list)) is false exactly when [elt] is [EQ] to a
    member of [list]. *)
Definition Fmemq (elt : Lisp_Object) (l : list Lisp_Object) : bool :=
  bool_decide (elt ∈ l).

(** Fdelq removes every element [EQ] to [elt]. *)
Definition Fdelq (elt : Lisp_Object) (l : list Lisp_Object) : list Lisp_Object :=
  filter (λ x, x ≠ elt) l.

(** ** Helpers *)

Definition pkg_find_package (st : State) (name : Lisp_Object) : result Lisp_Object :=
  s ← CHECK_STRING name;
  Done (default Qnil (Vpackage_registry st !! s)).

(** A byte of string data, from its eight bits. *)
Definition byte (z : Z) : ascii :=
  Ascii (Z.testbit z 0) (Z.testbit z 1) (Z.testbit z 2) (Z.testbit z 3)
        (Z.testbit z 4) (Z.testbit z 5) (Z.testbit z 6) (Z.testbit z 7).

(** Modelled from the spec ("a single character treated as a
    one-character string"): the bytes of the string of one character, which
    are those of the internal encoding of the character, CHAR_STRING and
    char_string of character.h and character.c: one byte up to 0x7F, the
    UTF-8 scheme extended to five bytes up to 0x3FFF7F, and two bytes for
    the raw eight-bit bytes from 0x3FFF80 on. *)
Definition CHAR_STRING (c : Z) : string :=
  let cont (z : Z) := byte (Z.lor 128 (Z.land z 63)) in
  if (c <=? 127)%Z then String (byte c) EmptyString
  else if (c <=? 2047)%Z then
    String (byte (Z.lor 192 (Z.shiftr c 6))) (String (cont c) EmptyString)
  else if (c <=? 65535)%Z then
    String (byte (Z.lor 224 (Z.shiftr c 12)))
      (String (cont (Z.shiftr c 6)) (String (cont c) EmptyString))
  else if (c <=? 2097151)%Z then
    String (byte (Z.lor 240 (Z.shiftr c 18)))
      (String (cont (Z.shiftr c 12))
         (String (cont (Z.shiftr c 6)) (String (cont c) EmptyString)))
  else if (c <=? 4194175)%Z then
    String (byte 248)
      (String (byte (Z.lor 128 (Z.land (Z.shiftr c 18) 15)))
         (String (cont (Z.shiftr c 12))
            (String (cont (Z.shiftr c 6)) (String (cont c) EmptyString))))
  else
    let b := (c - 4194048)%Z in
    String (byte (Z.lor 192 (Z.land (Z.shiftr b 6) 1))) (String (cont b) EmptyString).

(** Modelled from the spec: Fchar_to_string (editfns.c), the string of
    the one character given. *)
Definition Fchar_to_string (character : Lisp_Object) : result Lisp_Object :=
  match character with
  | LFixnum c =>
      if CHARACTERP character then Done (LString (CHAR_STRING c))
      else Signal wrong_type_argument
  | _ => Signal wrong_type_argument
  end.

Definition string_from_designator (st : State) (designator : Lisp_Object)
  : result Lisp_Object :=
  if SYMBOLP designator then
    n ← SYMBOL_NAME st designator; Done (LString n)
  else if STRINGP designator then Done designator
  else if CHARACTERP designator then Fchar_to_string designator
  else Signal Not_a_string_designator.

Definition check_package (package : Lisp_Object) : result Lisp_Object :=
  if PACKAGEP package then Done package else Signal Not_a_package.

Definition package_from_designator (st : State) (designator : Lisp_Object)
  : result Lisp_Object :=
  if PACKAGEP designator then Done designator
  else
    name ← string_from_designator st designator;
    package ← pkg_find_package st name;
    check_package package.

Definition package_or_default (st : State) (designator : Lisp_Object)
  : result Lisp_Object :=
  if NILP designator then check_package (Vearmuffs_package st)
  else package_from_designator st designator.

(** ** Symbol table: lookup *)

(** One activation of [lookup_symbol1]: the package searched, the SEEN
    list it was given and whether it was given a status pointer. *)
Record call : Type := mkCall {
  call_package : Lisp_Object;
  call_seen : list Lisp_Object;
  call_status : bool
}.

(** What is stored through the STATUS pointer: nothing when it is NULL. *)
Definition put_status (status : bool) (s : Status) : option Status :=
  if status then Some s else None.

Definition lookup_out : Type := (Lisp_Object * option Status) * list call.

(** The FOR_EACH_TAIL loop of [lookup_symbol1] over the use-list.  [rec]
    is the recursive call [lookup_symbol1 (name, used_package, seen, NULL)];
    [seen] is the local variable of the caller, extended before each
    recursive call and kept for the rest of the loop; [log] collects the
    activations so far. *)
Fixpoint use_list_loop
    (rec : Lisp_Object → list Lisp_Object → result lookup_out)
    (status : bool) (symbol : Lisp_Object)
    (tail seen : list Lisp_Object) (log : list call) : result lookup_out :=
  match tail with
  | [] => Done ((symbol, put_status status QCinherited), log)
  | used_package :: tail' =>
      if Fmemq used_package seen then
        use_list_loop rec status symbol tail' seen log
      else
        let seen' := used_package :: seen in
        '((symbol', _), log') ← rec used_package seen';
        if EQ symbol' Qunbound then
          use_list_loop rec status symbol' tail' seen' (log ++ log')
        else Done ((symbol', put_status status QCinherited), log ++ log')
  end.

(** [lookup_symbol1].  Next to the symbol and to what is stored through
    STATUS, the embedding returns the activations made, in order, this one
    first; the code has no such output.  [fuel] bounds the depth of the
    recursion, which is not structural. *)
Fixpoint lookup_symbol1 (fuel : nat) (st : State) (name : string)
    (package : Lisp_Object) (seen : list Lisp_Object) (status : bool)
  : result lookup_out :=
  match fuel with
  | O => OutOfFuel
  | S fuel' =>
      let this := mkCall package seen status in
      pkg ← XPACKAGE st package;
      match pkg_symbols pkg !! name with
      | Some (symbol, st_value) =>
          Done ((symbol, put_status status st_value), [this])
      | None =>
          use_list_loop
            (λ used_package seen', lookup_symbol1 fuel' st name used_package seen' false)
            status Qunbound (pkg_use_list pkg) seen [this]
      end
  end.

(** The recursion budget that [lookup_symbol] gives [lookup_symbol1]; it
    is shown below to be enough for every state. *)
Definition lookup_fuel (st : State) : nat := S (S (size (packages st))).

Definition lookup_trace (st : State) (name : string) (package : Lisp_Object)
    (status : bool) : result lookup_out :=
  lookup_symbol1 (lookup_fuel st) st name package [] status.

(** [lookup_symbol]: the search with SEEN nil. *)
Definition lookup_symbol (st : State) (name : string) (package : Lisp_Object)
    (status : bool) : result (Lisp_Object * option Status) :=
  '(r, _) ← lookup_trace st name package status; Done r.

(** ** Updating the state *)

Definition set_packages (st : State) (m : gmap positive Lisp_Package) : State :=
  mkState m (symbol_heap st) (vectors st)
          (Vpackage_registry st) (Vearmuffs_package st) (Vkeyword_package st).

Definition set_symbol_heap (st : State) (m : gmap positive Lisp_Symbol) : State :=
  mkState (packages st) m (vectors st)
          (Vpackage_registry st) (Vearmuffs_package st) (Vkeyword_package st).

Definition set_vectors (st : State) (m : gmap positive (list Lisp_Object)) : State :=
  mkState (packages st) (symbol_heap st) m
          (Vpackage_registry st) (Vearmuffs_package st) (Vkeyword_package st).

(** Assignment to fields of XPACKAGE (package). *)
Definition update_package (st : State) (package : Lisp_Object)
    (f : Lisp_Package → Lisp_Package) : result State :=
  match package with
  | LPackage p =>
      match packages st !! p with
      | Some pkg => Done (set_packages st (<[p := f pkg]> (packages st)))
      | None => Undefined
      end
  | _ => Undefined
  end.

(** Assignment to fields of XSYMBOL (symbol). *)
Definition update_symbol (st : State) (symbol : Lisp_Object)
    (f : Lisp_Symbol → Lisp_Symbol) : result State :=
  match symbol with
  | LSymbol s =>
      match symbol_heap st !! s with
      | Some sym => Done (set_symbol_heap st (<[s := f sym]> (symbol_heap st)))
      | None => Undefined
      end
  | _ => Undefined
  end.

Definition set_sym_package (package : Lisp_Object) (s : Lisp_Symbol) : Lisp_Symbol :=
  mkSymbol (sym_name s) package (sym_redirect s) (sym_value s)
           (sym_trapped_write s) (sym_declared_special s).

Definition set_sym_plainval (value : Lisp_Object) (s : Lisp_Symbol) : Lisp_Symbol :=
  mkSymbol (sym_name s) (sym_package s) SYMBOL_PLAINVAL value
           (sym_trapped_write s) (sym_declared_special s).

Definition set_sym_trapped_write (w : symbol_trapped_write) (s : Lisp_Symbol)
  : Lisp_Symbol :=
  mkSymbol (sym_name s) (sym_package s) (sym_redirect s) (sym_value s)
           w (sym_declared_special s).

Definition set_sym_declared_special (b : bool) (s : Lisp_Symbol) : Lisp_Symbol :=
  mkSymbol (sym_name s) (sym_package s) (sym_redirect s) (sym_value s)
           (sym_trapped_write s) b.

Definition set_pkg_symbols (t : gmap string (Lisp_Object * Status))
    (p : Lisp_Package) : Lisp_Package :=
  mkPackage (pkg_name p) (pkg_nicknames p) t (pkg_use_list p)
            (pkg_shadowing_symbols p).

Definition set_pkg_shadowing_symbols (l : list Lisp_Object) (p : Lisp_Package)
  : Lisp_Package :=
  mkPackage (pkg_name p) (pkg_nicknames p) (pkg_symbols p) (pkg_use_list p) l.

(** ** External primitives *)

(** Modelled from the spec: the symbol construction primitive
    [Fmake_symbol] (alloc.c), "new_symbol(name) -> Symbol (fresh,
    homeless)".  The new object is allocated at an address that is neither
    in use nor one of the built-in symbols. *)
Definition Fmake_symbol (st : State) (name : string) : Lisp_Object * State :=
  let s := fresh (builtin_symbols ∪ dom (symbol_heap st)) in
  (LSymbol s,
   set_symbol_heap st
     (<[s := mkSymbol name Qnil SYMBOL_PLAINVAL Qunbound
                      SYMBOL_UNTRAPPED_WRITE false]> (symbol_heap st))).

(** Modelled from the spec: [make_symbol_constant] (lisp.h), which marks
    the symbol as one whose value cannot be set. *)
Definition make_symbol_constant (st : State) (symbol : Lisp_Object) : result State :=
  update_symbol st symbol (set_sym_trapped_write SYMBOL_NOWRITE).

(** Modelled from the spec: the hash-map primitives [Fputhash] and
    [Fremhash] (fns.c) on a symbol table, "insert(symbol, status):
    inserts/overwrites the (name→(symbol,status)) entry; name key is derived
    from the symbol's own name" and "remove(symbol): deletes the entry
    whose key equals the symbol's name, if present". *)
Definition Fputhash (st : State) (symbol : Lisp_Object) (status : Status)
    (t : gmap string (Lisp_Object * Status))
  : result (gmap string (Lisp_Object * Status)) :=
  n ← SYMBOL_NAME st symbol;
  Done (<[n := (symbol, status)]> t).

Definition Fremhash (st : State) (symbol : Lisp_Object)
    (t : gmap string (Lisp_Object * Status))
  : result (gmap string (Lisp_Object * Status)) :=
  n ← SYMBOL_NAME st symbol;
  Done (delete n t).

(** SREF (name, 0): the first byte of the string data, which is the
    terminating NUL for the empty string. *)
Definition SREF0 (name : string) : ascii :=
  match name with
  | String c _ => c
  | EmptyString => Ascii.zero
  end.

(** Fsubstring (name, make_fixnum (1), Qnil). *)
Definition Fsubstring1 (name : string) : result string :=
  match name with
  | String _ rest => Done rest
  | EmptyString => Signal args_out_of_range
  end.

(** ** Symbol table: adding and removing *)

Definition pkg_add_symbol (st : State) (symbol : Lisp_Object) (status : Status)
    (package : Lisp_Object) : result (Lisp_Object * State) :=
  pkg ← XPACKAGE st package;
  t ← Fputhash st symbol status (pkg_symbols pkg);
  st' ← update_package st package (set_pkg_symbols t);
  Done (symbol, st').

Definition pkg_remove_symbol (st : State) (symbol : Lisp_Object)
    (package : Lisp_Object) : result State :=
  pkg ← XPACKAGE st package;
  t ← Fremhash st symbol (pkg_symbols pkg);
  update_package st package (set_pkg_symbols t).

Definition remove_shadowing_symbol (st : State) (symbol : Lisp_Object)
    (package : Lisp_Object) : result State :=
  pkg ← XPACKAGE st package;
  update_package st package
    (set_pkg_shadowing_symbols (Fdelq symbol (pkg_shadowing_symbols pkg))).

(** ** Interning *)

Definition pkg_intern_symbol1 (st : State) (name : Lisp_Object)
    (package : Lisp_Object) (status : bool) (existing_symbol : Lisp_Object)
  : result ((Lisp_Object * option Status) * State) :=
  n ← CHECK_STRING name;
  (* If already accessible in package, return that.  *)
  '(symbol, s) ← lookup_symbol st n package status;
  if negb (EQ symbol Qunbound) then Done ((symbol, s), st)
  else
    (* Not found: use the existing symbol, or make a new one.  *)
    let '(symbol, st1) :=
      if negb (EQ existing_symbol Qunbound) then (existing_symbol, st)
      else Fmake_symbol st n in
    (* PACKAGE becomes the home package of the symbol.  *)
    st2 ← update_symbol st1 symbol (set_sym_package package);
    if EQ package (Vkeyword_package st2) then
      st3 ← update_symbol st2 symbol (set_sym_plainval symbol);
      st4 ← make_symbol_constant st3 symbol;
      st5 ← update_symbol st4 symbol (set_sym_declared_special true);
      '(_, st6) ← pkg_add_symbol st5 symbol QCexternal (Vkeyword_package st5);
      Done ((symbol, put_status status QCexternal), st6)
    else
      '(_, st3) ← pkg_add_symbol st2 symbol QCinternal package;
      Done ((symbol, put_status status QCinternal), st3).

Definition pkg_intern_symbol (st : State) (name : Lisp_Object)
    (package : Lisp_Object) (status : bool)
  : result ((Lisp_Object * option Status) * State) :=
  pkg_intern_symbol1 st name package status Qunbound.

Definition pkg_define_symbol (st : State) (symbol : Lisp_Object)
    (package : Lisp_Object) : result (Lisp_Object * State) :=
  n ← SYMBOL_NAME st symbol;
  '((s, _), st') ← pkg_intern_symbol1 st (LString n) package false symbol;
  Done (s, st').

Definition pkg_intern_maybe_keyword (st : State) (name : Lisp_Object)
  : result (Lisp_Object * State) :=
  n ← CHECK_STRING name;
  if bool_decide (SREF0 n = ":"%char) then
    n' ← Fsubstring1 n;
    '((s, _), st') ← pkg_intern_symbol st (LString n') (Vkeyword_package st) false;
    Done (s, st')
  else
    '((s, _), st') ← pkg_intern_symbol st name (Vearmuffs_package st) false;
    Done (s, st').

(** ** Uninterning *)

Definition pkg_unintern_symbol (st : State) (symbol : Lisp_Object)
    (package : Lisp_Object) : result (Lisp_Object * State) :=
  _ ← CHECK_SYMBOL symbol;
  package ← package_or_default st package;
  n ← SYMBOL_NAME st symbol;
  '(found, status) ← lookup_symbol st n package true;
  '(removedp, st1) ←
    (if negb (EQ found Qunbound) && negb (bool_decide (status = Some QCinherited))
     then
       (* Symbol is present in the package.  Remove it from the symbol
          table and shadowing list.  *)
       st' ← remove_shadowing_symbol st symbol package;
       st'' ← pkg_remove_symbol st' symbol package;
       Done (Qt, st'')
     else Done (Qnil, st));
  home ← SYMBOL_PACKAGE st1 symbol;
  st2 ← (if EQ package home then update_symbol st1 symbol (set_sym_package Qnil)
         else Done st1);
  Done (removedp, st2).

(** ** Old Emacs intern stuff *)

(** [make_package]: the new package object is allocated zeroed at an
    address not in use, so every slot but the name and the (empty) symbol
    table is nil.  The size hint NSYMBOLS of the hash table is dropped. *)
Definition make_package (st : State) (name : Lisp_Object) : Lisp_Object * State :=
  let p := fresh (dom (packages st)) in
  (LPackage p,
   set_packages st (<[p := mkPackage name [] ∅ [] []]> (packages st))).

Definition fake_me_an_obarray (st : State) (vector : Lisp_Object)
  : result (Lisp_Object * State) :=
  match vector with
  | LVector v =>
      match vectors st !! v with
      | Some elems =>
          match elems !! 0%nat with
          | Some package =>
              if negb (PACKAGEP package) then
                let '(package', st1) := make_package st (LString "obarray") in
                Done (package',
                      set_vectors st1 (<[v := <[0%nat := package']> elems]> (vectors st1)))
              else Done (package, st)
          | None => Signal args_out_of_range
          end
      | None => Undefined
      end
  | _ => Undefined
  end.

(** Implements Emacs' traditional Fintern function. *)
Definition pkg_emacs_intern (st : State) (name : Lisp_Object) (package : Lisp_Object)
  : result (Lisp_Object * State) :=
  n ← CHECK_STRING name;
  '(n, package) ←
    (if bool_decide (SREF0 n = ":"%char) && NILP package then
       n' ← Fsubstring1 n;
       Done (n', Vkeyword_package st)
     else Done (n, package));
  (* eassert (SREF (name, 0) != ':') *)
  '(package, st) ←
    (if VECTORP package then fake_me_an_obarray st package else Done (package, st));
  package ← package_or_default st package;
  '((symbol, _), st') ← pkg_intern_symbol st (LString n) package false;
  Done (symbol, st').

(** Implements Emacs' old Fintern_soft function. *)
Definition pkg_emacs_intern_soft (st : State) (name : Lisp_Object)
    (package : Lisp_Object) : result (Lisp_Object * State) :=
  (* intern-soft allows symbols.  *)
  let orig := name in
  name ← (if SYMBOLP name then n ← SYMBOL_NAME st name; Done (LString n)
          else Done name);
  n ← CHECK_STRING name;
  '(n, package) ←
    (if bool_decide (SREF0 n = ":"%char) && NILP package then
       n' ← Fsubstring1 n;
       Done (n', Vkeyword_package st)
     else Done (n, package));
  '(package, st) ←
    (if VECTORP package then fake_me_an_obarray st package else Done (package, st));
  package ← package_or_default st package;
  '(found, _) ← lookup_symbol st n package false;
  if EQ found Qunbound then Done (Qnil, st)
  else if SYMBOLP orig && negb (EQ found orig) then Done (Qnil, st)
  else
    (* eassert (!NILP (SYMBOL_PACKAGE (found))) *)
    Done (found, st).

(** Implements Emacs' old Funintern function. *)
Definition pkg_emacs_unintern (st : State) (name : Lisp_Object) (package : Lisp_Object)
  : result (Lisp_Object * State) :=
  '(package, st) ←
    (if VECTORP package then fake_me_an_obarray st package else Done (package, st));
  package ← package_or_default st package;
  pkg_unintern_symbol st name package.

(** ** Lisp functions and the reader *)

(** [Ffind_symbol] returns nil or the list (SYMBOL STATUS); the list is
    the pair here, nil is [None]. *)
Definition Ffind_symbol (st : State) (name : Lisp_Object) (package : Lisp_Object)
  : result (option (Lisp_Object * option Status)) :=
  n ← CHECK_STRING name;
  package ← package_or_default st package;
  '(symbol, status) ← lookup_symbol st n package true;
  if EQ symbol Qunbound then Done None
  else Done (Some (symbol, status)).

Definition Fcl_intern (st : State) (name : Lisp_Object) (package : Lisp_Object)
  : result ((Lisp_Object * option Status) * State) :=
  _ ← CHECK_STRING name;
  package ← package_or_default st package;
  pkg_intern_symbol st name package true.

Definition Fcl_unintern (st : State) (symbol : Lisp_Object) (package : Lisp_Object)
  : result (Lisp_Object * State) :=
  pkg_unintern_symbol st symbol package.

(** The arguments of pkg_error are evaluated before it signals:
    XPACKAGE (package)->name dereferences PACKAGE as it was given, which
    [Ffind_symbol] has resolved as a designator but this function has
    not. *)
Definition pkg_qualified_symbol (st : State) (name : Lisp_Object)
    (package : Lisp_Object) (external : bool) : result (Lisp_Object * State) :=
  found ← Ffind_symbol st name package;
  if EQ package (Vkeyword_package st) then
    match found with
    | None =>
        '((symbol, _), st') ← pkg_intern_symbol st name package false;
        Done (symbol, st')
    | Some (symbol, _) => Done (symbol, st)
    end
  else
    match found with
    | None =>
        _ ← XPACKAGE st package;
        Signal UnboundInPackage
    | Some (symbol, status) =>
        if external && bool_decide (status = Some QCinternal)
        then
          _ ← XPACKAGE st package;
          Signal NotExternal
        else Done (symbol, st)
    end.

Definition pkg_unqualified_symbol (st : State) (name : Lisp_Object)
  : result (Lisp_Object * State) :=
  package ← check_package (Vearmuffs_package st);
  if EQ package (Vkeyword_package st) then pkg_qualified_symbol st name package true
  else
    found ← Ffind_symbol st name package;
    match found with
    | Some (symbol, _) => Done (symbol, st)
    | None =>
        '((symbol, _), st') ← pkg_intern_symbol st name package false;
        Done (symbol, st')
    end.

Definition pkg_keywordp (st : State) (obj : Lisp_Object) : result bool :=
  if SYMBOLP obj then
    home ← SYMBOL_PACKAGE st obj;
    Done (EQ home (Vkeyword_package st))
  else Done false.

(** ** Iterating over a hash table *)

(** For the iterator a hash table is its vector of slots: slot [i] holds
    HASH_KEY (h, i) and HASH_VALUE (h, i), HASH_TABLE_SIZE (h) is the number
    of slots, and a slot that is not in use has the key [Qunbound]. *)

(** struct h_iter. *)
Record h_iter : Type := mk_h_iter {
  it_h : list (Lisp_Object * Lisp_Object);
  it_i : nat;
  it_key : Lisp_Object;
  it_value : Lisp_Object
}.

(** [h_init]; the argument is a hash table wherever pkg.c calls it, so
    check_hash_table is left out. *)
Definition h_init (table : list (Lisp_Object * Lisp_Object)) : h_iter :=
  mk_h_iter table 0 Qnil Qnil.

(** The loop of [h_valid].  The test it->i < HASH_TABLE_SIZE (it->h) is
    the success of reading slot [it_i]; [n] bounds the number of rounds. *)
Fixpoint h_valid_loop (n : nat) (it : h_iter) : bool * h_iter :=
  match n with
  | O => (false, it)
  | S n' =>
      match it_h it !! it_i it with
      | Some (key, value) =>
          if negb (EQ key Qunbound) then
            (true, mk_h_iter (it_h it) (it_i it) key value)
          else
            h_valid_loop n'
              (mk_h_iter (it_h it) (S (it_i it)) (it_key it) (it_value it))
      | None => (false, it)
      end
  end.

(** [h_valid]: the loop runs at most once for each slot from [it_i] on. *)
Definition h_valid (it : h_iter) : bool * h_iter :=
  h_valid_loop (length (it_h it) - it_i it) it.

Definition h_next (it : h_iter) : h_iter :=
  mk_h_iter (it_h it) (S (it_i it)) (it_key it) (it_value it).

(** The loop of FOR_EACH_KEY_VALUE, for a body that reads the key and the
    value of the iterator, works on a value of its own and may signal; it
    does not change the table.  [n] bounds the number of rounds. *)
Fixpoint for_each_loop {A : Type} (n : nat)
    (body : Lisp_Object → Lisp_Object → A → result A)
    (it : h_iter) (a : A) : result A :=
  match n with
  | O => OutOfFuel
  | S n' =>
      let '(valid, it) := h_valid it in
      if valid then
        a' ← body (it_key it) (it_value it) a;
        for_each_loop n' body (h_next it) a'
      else Done a
  end.

(** FOR_EACH_KEY_VALUE (it, table). *)
Definition FOR_EACH_KEY_VALUE {A : Type} (table : list (Lisp_Object * Lisp_Object))
    (body : Lisp_Object → Lisp_Object → A → result A) (a : A) : result A :=
  for_each_loop (S (length table)) body (h_init table) a.

(** Running [f] over a list from the left, up to the first error. *)
Fixpoint fold_result {A B : Type} (f : B → A → result A) (l : list B) (a : A)
  : result A :=
  match l with
  | [] => Done a
  | b :: l' => a' ← f b a; fold_result f l' a'
  end.

(** ** Mapping over symbols *)

(** Where the entries of the registry and of a symbol table sit in the
    slots of their hash tables is decided by fns.c; the state of the
    embedding has the entries only.  A [layout] gives the slots. *)
Record layout : Type := mkLayout {
  registry_slots : gmap string Lisp_Object → list (Lisp_Object * Lisp_Object);
  symbols_slots : gmap string (Lisp_Object * Status) → list (Lisp_Object * Lisp_Object)
}.

(** The slots in use are the entries: of the registry with their values,
    of a symbol table the symbols (a symbol that is [Qunbound] itself
    cannot be told from a free slot). *)
Definition layout_ok (L : layout) : Prop :=
  (∀ r, filter (λ kv, kv.1 ≠ Qunbound) (registry_slots L r)
        ≡ₚ (λ kv, (LString kv.1, kv.2)) <$> map_to_list r) ∧
  (∀ t, (filter (λ kv, kv.1 ≠ Qunbound) (symbols_slots L t)).*1
        ≡ₚ filter (λ s, s ≠ Qunbound) ((λ e, e.2.1) <$> map_to_list t)).

(** The layout that has the entries in the order of [map_to_list], with no
    free slot and nil for the values of a symbol table. *)
Definition plain_layout : layout :=
  mkLayout (λ r, (λ kv, (LString kv.1, kv.2)) <$> map_to_list r)
           (λ t, (λ e, (e.2.1, Qnil)) <$> map_to_list t).

(** The functions called on the symbols work on a value of their own, as
    the bodies of [for_each_loop] do: [fn] stands for call1 (fn, symbol). *)
Definition pkg_map_package_symbols {A : Type} (L : layout) (st : State)
    (fn : Lisp_Object → A → result A) (package : Lisp_Object) (a : A)
  : result A :=
  package ← check_package package;
  pkg ← XPACKAGE st package;
  FOR_EACH_KEY_VALUE (symbols_slots L (pkg_symbols pkg))
    (λ key _ a, fn key a) a.

Definition pkg_map_symbols {A : Type} (L : layout) (st : State)
    (function : Lisp_Object → A → result A) (a : A) : result A :=
  FOR_EACH_KEY_VALUE (registry_slots L (Vpackage_registry st))
    (λ _ value a, pkg_map_package_symbols L st function value a) a.

Definition pkg_map_symbols_c_fn {A : Type} (L : layout) (st : State)
    (fn : Lisp_Object → Lisp_Object → A → result A) (arg : Lisp_Object) (a : A)
  : result A :=
  FOR_EACH_KEY_VALUE (registry_slots L (Vpackage_registry st))
    (λ _ value a,
       pkg ← XPACKAGE st value;
       FOR_EACH_KEY_VALUE (symbols_slots L (pkg_symbols pkg))
         (λ key _ a, fn key arg a) a) a.

Definition pkg_emacs_mapatoms {A : Type} (L : layout) (st : State)
    (function : Lisp_Object → A → result A) (package : Lisp_Object) (a : A)
  : result (Lisp_Object * State * A) :=
  '(package, st) ←
    (if VECTORP package then fake_me_an_obarray st package else Done (package, st));
  a' ← (if NILP package then pkg_map_symbols L st function a
        else pkg_map_package_symbols L st function package a);
  Done (Qnil, st, a').

(** ** Lisp functions *)

(** CHECK_FIXNAT: a fixnum that is not negative. *)
Definition CHECK_FIXNAT (o : Lisp_Object) : result unit :=
  match o with
  | LFixnum n => if bool_decide (0 ≤ n)%Z then Done tt else Signal wrong_type_argument
  | _ => Signal wrong_type_argument
  end.

Definition CHECK_PACKAGE (o : Lisp_Object) : result unit :=
  if PACKAGEP o then Done tt else Signal wrong_type_argument.

Definition Fmake_percent_package (st : State) (name size : Lisp_Object)
  : result (Lisp_Object * State) :=
  _ ← CHECK_STRING name;
  _ ← CHECK_FIXNAT size;
  Done (make_package st name).

Definition Fpackagep (package : Lisp_Object) : Lisp_Object :=
  if PACKAGEP package then Qt else Qnil.

(** ** Internal access to packages *)

Definition set_pkg_name (n : Lisp_Object) (p : Lisp_Package) : Lisp_Package :=
  mkPackage n (pkg_nicknames p) (pkg_symbols p) (pkg_use_list p)
            (pkg_shadowing_symbols p).

Definition set_pkg_nicknames (l : list Lisp_Object) (p : Lisp_Package)
  : Lisp_Package :=
  mkPackage (pkg_name p) l (pkg_symbols p) (pkg_use_list p)
            (pkg_shadowing_symbols p).

Definition set_pkg_use_list (l : list Lisp_Object) (p : Lisp_Package)
  : Lisp_Package :=
  mkPackage (pkg_name p) (pkg_nicknames p) (pkg_symbols p) l
            (pkg_shadowing_symbols p).

Definition Fpackage_percent_name (st : State) (package : Lisp_Object)
  : result Lisp_Object :=
  _ ← CHECK_PACKAGE package;
  pkg ← XPACKAGE st package;
  Done (pkg_name pkg).

Definition Fpackage_percent_set_name (st : State) (package name : Lisp_Object)
  : result (Lisp_Object * State) :=
  _ ← CHECK_PACKAGE package;
  _ ← CHECK_STRING name;
  st' ← update_package st package (set_pkg_name name);
  Done (name, st').

Definition Fpackage_percent_nicknames (st : State) (package : Lisp_Object)
  : result (list Lisp_Object) :=
  _ ← CHECK_PACKAGE package;
  pkg ← XPACKAGE st package;
  Done (pkg_nicknames pkg).

(** The lists that the package slots hold are the lists of the embedding:
    the setters are given a proper list. *)
Definition Fpackage_percent_set_nicknames (st : State) (package : Lisp_Object)
    (nicknames : list Lisp_Object) : result (list Lisp_Object * State) :=
  _ ← CHECK_PACKAGE package;
  st' ← update_package st package (set_pkg_nicknames nicknames);
  Done (nicknames, st').

Definition Fpackage_percent_use_list (st : State) (package : Lisp_Object)
  : result (list Lisp_Object) :=
  _ ← CHECK_PACKAGE package;
  pkg ← XPACKAGE st package;
  Done (pkg_use_list pkg).

Definition Fpackage_percent_set_use_list (st : State) (package : Lisp_Object)
    (use_list : list Lisp_Object) : result (list Lisp_Object * State) :=
  _ ← CHECK_PACKAGE package;
  st' ← update_package st package (set_pkg_use_list use_list);
  Done (use_list, st').

Definition Fpackage_percent_shadowing_symbols (st : State) (package : Lisp_Object)
  : result (list Lisp_Object) :=
  _ ← CHECK_PACKAGE package;
  pkg ← XPACKAGE st package;
  Done (pkg_shadowing_symbols pkg).

Definition Fpackage_percent_set_shadowing_symbols (st : State)
    (package : Lisp_Object) (shadowing_symbols : list Lisp_Object)
  : result (list Lisp_Object * State) :=
  _ ← CHECK_PACKAGE package;
  st' ← update_package st package (set_pkg_shadowing_symbols shadowing_symbols);
  Done (shadowing_symbols, st').

(** ** Initialization *)

(** [init_pkg_once], up to the definition of the built-in symbols: the
    registry holds the emacs package and the keyword package (nickname the
    empty string), and the current package is the emacs package.  The
    symbol heap holds the statically allocated nil, t and unbound. *)
Definition init_pkg_once : State :=
  let emacs := mkPackage (LString "emacs") [] ∅ [] [] in
  let keyword := mkPackage (LString "keyword") [LString ""] ∅ [] [] in
  let builtin (n : string) :=
    mkSymbol n Qnil SYMBOL_PLAINVAL Qunbound SYMBOL_UNTRAPPED_WRITE false in
  mkState
    (<[2%positive := keyword]> (<[1%positive := emacs]> ∅))
    (<[3%positive := builtin "unbound"]>
       (<[2%positive := builtin "t"]> (<[1%positive := builtin "nil"]> ∅)))
    ∅
    (<[""%string := LPackage 2]>
       (<["keyword"%string := LPackage 2]> (<["emacs"%string := LPackage 1]> ∅)))
    (LPackage 1)
    (LPackage 2).

(** ** Well-formed use-lists *)

(** [in_set X u]: the object [u] is a package of the set [X]. *)
Definition in_set (X : gset positive) (u : Lisp_Object) : Prop :=
  match u with
  | LPackage q => q ∈ X
  | _ => False
  end.

#[global] Instance in_set_dec X u : Decision (in_set X u).
Proof. destruct u; simpl; apply _. Defined.

(** A set of packages is closed when each of its members is a live package
    object whose use-list holds only members of the set.  Lisp code keeps
    the set of all packages closed (use-package only adds packages); the
    accessor package-%set-use-list itself does not check it. *)
Definition closed_at (st : State) (X : gset positive) (p : positive) : Prop :=
  match packages st !! p with
  | Some pkg => Forall (in_set X) (pkg_use_list pkg)
  | None => False
  end.

#[global] Instance closed_at_dec st X p : Decision (closed_at st X p).
Proof. unfold closed_at. destruct (packages st !! p); apply _. Defined.

Definition closed (st : State) (X : gset positive) : Prop :=
  set_Forall (closed_at st X) X.

#[global] Instance closed_dec st X : Decision (closed st X).
Proof. unfold closed. apply _. Defined.

(** The packages of the state that are not in SEEN: the measure that
    bounds the depth of the recursion of [lookup_symbol1]. *)
Definition unseen (st : State) (seen : list Lisp_Object) : gset positive :=
  filter (λ p, LPackage p ∉ seen) (dom (packages st)).

(** ** What a lookup delivers *)

(** The status a lookup stores through a non-null status pointer: the
    status of the local entry, or [:inherited] when there is none. *)
Definition status_in (st : State) (name : string) (package : Lisp_Object) : Status :=
  match XPACKAGE st package with
  | Done pkg =>
      match pkg_symbols pkg !! name with
      | Some (_, v) => v
      | None => QCinherited
      end
  | _ => QCinherited
  end.

(** The symbol a lookup delivers, without status and trace. *)
Definition found_symbol (r : result lookup_out) : result Lisp_Object :=
  '((symbol, _), _) ← r; Done symbol.

(** The symbol [lookup_symbol] delivers. *)
Definition lookup_found (st : State) (name : string) (package : Lisp_Object)
  : result Lisp_Object :=
  found_symbol (lookup_trace st name package false).

(** A recursive activation is guarded with respect to the SEEN list of
    its caller: it is given no status pointer, and its own SEEN list is the
    package it searches consed onto a list that extends the caller's, does
    not contain that package and has no duplicates when the caller's has
    none. *)
Definition guarded (seen0 : list Lisp_Object) (c : call) : Prop :=
  call_status c = false ∧
  ∃ s, (call_seen c = call_package c :: s) ∧ (call_package c ∉ s) ∧ (seen0 ⊆ s) ∧
       (NoDup seen0 → NoDup s).

(** [nested seen l]: [l] is the log of the recursive calls that an
    activation makes from the moment at which its SEEN list is [seen].
    Each call is for a package that is not on that list and is handed the
    list with the package consed onto it.  [below] are the calls of the
    callee and of the activations nested in it, starting from the list the
    callee was handed; none of them is for a package on that list.
    [after] are the later calls of the caller, made with its own list,
    which has that one package more: what the callee consed on its copy is
    not seen by the caller. *)
Inductive nested : list Lisp_Object → list call → Prop :=
  | nested_nil seen : nested seen []
  | nested_call seen used_package below after :
      used_package ∉ seen →
      nested (used_package :: seen) below →
      Forall (λ c, call_package c ∉ used_package :: seen) below →
      nested (used_package :: seen) after →
      nested seen
        (mkCall used_package (used_package :: seen) false :: below ++ after).

(** A search that starts in a closed set ends with [Qunbound] or with a
    symbol of the table of a package of the set. *)
Definition from_set (st : State) (name : string) (X : gset positive)
    (sym : Lisp_Object) : Prop :=
  sym = Qunbound ∨
  ∃ q pkg v, q ∈ X ∧ packages st !! q = Some pkg ∧
             pkg_symbols pkg !! name = Some (sym, v).

(** ** Scenarios *)

(** The statically allocated symbols. *)
Definition builtin_heap : gmap positive Lisp_Symbol :=
  let builtin (n : string) :=
    mkSymbol n Qnil SYMBOL_PLAINVAL Qunbound SYMBOL_UNTRAPPED_WRITE false in
  <[3%positive := builtin "unbound"]>
    (<[2%positive := builtin "t"]> (<[1%positive := builtin "nil"]> ∅)).

(** A state with the given package heap, symbol heap and current package;
    the keyword package is at address 100 when there is one. *)
Definition world (pkgs : gmap positive Lisp_Package)
    (syms : gmap positive Lisp_Symbol) (current : Lisp_Object) : State :=
  mkState pkgs syms ∅ ∅ current (LPackage 100).

(** A package with the given symbol table and use-list. *)
Definition package_with (n : string) (t : gmap string (Lisp_Object * Status))
    (use : list Lisp_Object) : Lisp_Package :=
  mkPackage (LString n) [] t use [].

(** Packages A (1) and B (2) that use each other, with empty tables. *)
Definition cyclic_world : State :=
  world (<[2%positive := package_with "B" ∅ [LPackage 1]]>
           (<[1%positive := package_with "A" ∅ [LPackage 2]]> ∅))
        builtin_heap (LPackage 1).

(** A symbol named "x" at address 4, external in package C (3); package A
    (1) uses C and B (2), in that order. *)
Definition shadow_world : State :=
  world (<[3%positive := package_with "C" {[ "x"%string := (LSymbol 4, QCexternal) ]} []]>
           (<[2%positive := package_with "B" ∅ []]>
              (<[1%positive := package_with "A" ∅ [LPackage 3; LPackage 2]]> ∅)))
        (<[4%positive := mkSymbol "x" (LPackage 3) SYMBOL_PLAINVAL Qunbound
                                  SYMBOL_UNTRAPPED_WRITE false]> builtin_heap)
        (LPackage 1).

(** Package A (1) uses B (2); B uses D (3) and E (4); D uses B and F (5);
    E and F each have their own symbol named "x" (addresses 4 and 5). *)
Definition detour_world : State :=
  world (<[5%positive := package_with "F" {[ "x"%string := (LSymbol 5, QCexternal) ]} []]>
        (<[4%positive := package_with "E" {[ "x"%string := (LSymbol 4, QCexternal) ]} []]>
        (<[3%positive := package_with "D" ∅ [LPackage 2; LPackage 5]]>
        (<[2%positive := package_with "B" ∅ [LPackage 3; LPackage 4]]>
        (<[1%positive := package_with "A" ∅ [LPackage 2]]> ∅)))))
        (<[5%positive := mkSymbol "x" (LPackage 5) SYMBOL_PLAINVAL Qunbound
                                  SYMBOL_UNTRAPPED_WRITE false]>
        (<[4%positive := mkSymbol "x" (LPackage 4) SYMBOL_PLAINVAL Qunbound
                                  SYMBOL_UNTRAPPED_WRITE false]> builtin_heap))
        (LPackage 1).

(** Package P (1) uses Q (2); Q has the symbol "FOO" (address 4) as an
    internal symbol; P has no symbol of its own. *)
Definition internal_world : State :=
  world (<[2%positive := package_with "Q" {[ "FOO"%string := (LSymbol 4, QCinternal) ]} []]>
           (<[1%positive := package_with "P" ∅ [LPackage 2]]> ∅))
        (<[4%positive := mkSymbol "FOO" (LPackage 2) SYMBOL_PLAINVAL Qunbound
                                  SYMBOL_UNTRAPPED_WRITE false]> builtin_heap)
        (LPackage 1).

(** Package A (1) has the symbol "x" (address 4) as an internal symbol, on
    its shadowing list; its home package is A. *)
Definition shadowing_world : State :=
  world (<[1%positive := mkPackage (LString "A") []
                           {[ "x"%string := (LSymbol 4, QCinternal) ]} [] [LSymbol 4]]> ∅)
        (<[4%positive := mkSymbol "x" (LPackage 1) SYMBOL_PLAINVAL Qunbound
                                  SYMBOL_UNTRAPPED_WRITE false]> builtin_heap)
        (LPackage 1).

(** Package A (1) uses B (2) and C (3), which both use D (4); all tables
    are empty. *)
Definition diamond_world : State :=
  world (<[4%positive := package_with "D" ∅ []]>
        (<[3%positive := package_with "C" ∅ [LPackage 4]]>
        (<[2%positive := package_with "B" ∅ [LPackage 4]]>
        (<[1%positive := package_with "A" ∅ [LPackage 2; LPackage 3]]> ∅))))
        builtin_heap (LPackage 1).

(** A second symbol named "x" (address 5), with no home package, next to
    the symbol "x" (address 4) that package A (1) holds. *)
Definition twin_world : State :=
  world (<[1%positive := package_with "A" {[ "x"%string := (LSymbol 4, QCinternal) ]} []]> ∅)
        (<[5%positive := mkSymbol "x" Qnil SYMBOL_PLAINVAL Qunbound
                                  SYMBOL_UNTRAPPED_WRITE false]>
        (<[4%positive := mkSymbol "x" (LPackage 1) SYMBOL_PLAINVAL Qunbound
                                  SYMBOL_UNTRAPPED_WRITE false]> builtin_heap))
        (LPackage 1).

(** ** Comparing states *)

(** Two package heaps agree at an address, as far as the search for
    [name] can tell: there is a package in both or in neither, with the
    same use-list and the same entry, or none, for [name]. *)
Definition agree_at (name : string) (st st2 : State) (p : positive) : Prop :=
  match packages st !! p, packages st2 !! p with
  | Some pkg, Some pkg2 =>
      pkg_use_list pkg2 = pkg_use_list pkg ∧
      pkg_symbols pkg2 !! name = pkg_symbols pkg !! name
  | None, None => True
  | _, _ => False
  end.

(** ** Accessibility *)

(** [reachable st p q]: package [q] is [p] or is reached from [p] through
    use-lists. *)
Inductive reachable (st : State) : positive → positive → Prop :=
  | reachable_here p : reachable st p p
  | reachable_used p q r pkg :
      packages st !! p = Some pkg → LPackage q ∈ pkg_use_list pkg →
      reachable st q r → reachable st p r.

(** An activation of a search that found nothing, seen from the whole
    trace [L] and the SEEN list [B] the search began with: its package is
    live, has no entry for the name, and each package on its use-list was
    on [B] or is the package of an activation of [L]. *)
Definition covered (st : State) (name : string) (B : list Lisp_Object)
    (L : list call) (c : call) : Prop :=
  ∃ q pkg,
    call_package c = LPackage q ∧ packages st !! q = Some pkg ∧
    pkg_symbols pkg !! name = None ∧
    ∀ u, u ∈ pkg_use_list pkg → u ∈ B ∨ ∃ c', c' ∈ L ∧ call_package c' = u.

(** The marker for "no symbol" is the entry of no table under [name]. *)
Definition no_unbound_entry (st : State) (name : string) : Prop :=
  map_Forall (λ _ pkg, fst <$> pkg_symbols pkg !! name ≠ Some Qunbound)
             (packages st).

#[global] Instance no_unbound_entry_dec st name : Decision (no_unbound_entry st name).
Proof. unfold no_unbound_entry. apply _. Defined.

(** A vector of two slots, both 0, at address 7, next to the packages of
    the initial state. *)
Definition obarray_world : State :=
  set_vectors init_pkg_once (<[7%positive := [LFixnum 0; LFixnum 0]]> ∅).

(** * Properties of lookup *)

Section lookup_facts.
Context (st : State) (name : string).

Lemma XPACKAGE_Done o pkg :
  XPACKAGE st o = Done pkg → ∃ p, o = LPackage p ∧ packages st !! p = Some pkg.
Proof.
  destruct o as [| | |p|]; simpl; try discriminate.
  destruct (packages st !! p) eqn:E; [|discriminate].
  intros [= ->]. eauto.
Qed.

Lemma XPACKAGE_not_OutOfFuel o : XPACKAGE st o ≠ OutOfFuel.
Proof.
  destruct o as [| | |p|]; simpl; try discriminate.
  by destruct (packages st !! p).
Qed.

Lemma XPACKAGE_cases o :
  (∃ p pkg, o = LPackage p ∧ packages st !! p = Some pkg ∧ XPACKAGE st o = Done pkg)
  ∨ XPACKAGE st o = Undefined.
Proof.
  destruct o as [| | |p|]; simpl; auto.
  destruct (packages st !! p) eqn:E; eauto 10.
Qed.

(** *** The measure *)

Lemma unseen_mono seen seen' :
  seen ⊆ seen' → size (unseen st seen') ≤ size (unseen st seen).
Proof.
  intros Hs. apply subseteq_size. unfold unseen.
  intros p. rewrite !elem_of_filter. intros [Hn Hd]. split; [|done].
  intros Hin. apply Hn. by apply Hs.
Qed.

Lemma unseen_cons p pkg seen :
  packages st !! p = Some pkg → LPackage p ∉ seen →
  size (unseen st (LPackage p :: seen)) < size (unseen st seen).
Proof.
  intros Hp Hn. apply subset_size. unfold unseen. split.
  - intros q. rewrite !elem_of_filter. intros [Hq Hd]. split; [|done].
    intros Hin. apply Hq. by right.
  - intros Hsub. specialize (Hsub p).
    rewrite !elem_of_filter in Hsub.
    destruct Hsub as [Hbad _].
    + split; [done|]. apply elem_of_dom. eauto.
    + apply Hbad. by left.
Qed.

Lemma unseen_le seen : size (unseen st seen) ≤ size (packages st).
Proof.
  rewrite <- size_dom. apply subseteq_size. unfold unseen.
  intros p. rewrite elem_of_filter. tauto.
Qed.

(** *** The recursion budget is enough *)

Lemma use_list_loop_fuel rec seen0 :
  (∀ u s, u ∉ s → seen0 ⊆ s → rec u (u :: s) ≠ OutOfFuel) →
  ∀ tail status symbol seen log,
    seen0 ⊆ seen →
    use_list_loop rec status symbol tail seen log ≠ OutOfFuel.
Proof.
  intros Hrec tail. induction tail as [|u tail IH]; intros status symbol seen log Hs.
  - done.
  - simpl. unfold Fmemq. case_bool_decide as Hin.
    + by apply IH.
    + specialize (Hrec u seen Hin Hs).
      destruct (rec u (u :: seen)) as [[[y o] l]| | |]; simpl; try done.
      destruct (EQ y Qunbound); [|done].
      apply IH. intros x Hx. right. by apply Hs.
Qed.

Lemma lookup_symbol1_fuel fuel :
  ∀ package seen status,
    size (unseen st seen) + 2 ≤ fuel →
    lookup_symbol1 fuel st name package seen status ≠ OutOfFuel.
Proof.
  induction fuel as [|fuel IH]; intros package seen status Hf; [lia|].
  simpl. destruct (XPACKAGE_cases package) as [(p & pkg & -> & Hp & ->)| ->];
    simpl; [|done].
  destruct (pkg_symbols pkg !! name) as [[symbol v]|]; [done|].
  apply (use_list_loop_fuel _ seen); [|done].
  intros u s Hu Hs.
  destruct (XPACKAGE_cases u) as [(q & pkq & -> & Hq & _)| Hund].
  - apply IH.
    pose proof (unseen_cons q pkq s Hq Hu).
    pose proof (unseen_mono seen s Hs). lia.
  - destruct fuel as [|fuel']; [lia|]. simpl. by rewrite Hund.
Qed.

(** *** A result obtained with some budget is obtained with any larger one *)

Lemma use_list_loop_mono rec rec' :
  (∀ u s, rec u s ≠ OutOfFuel → rec' u s = rec u s) →
  ∀ tail status symbol seen log,
    use_list_loop rec status symbol tail seen log ≠ OutOfFuel →
    use_list_loop rec' status symbol tail seen log
    = use_list_loop rec status symbol tail seen log.
Proof.
  intros Hrec tail. induction tail as [|u tail IH]; intros status symbol seen log.
  - done.
  - simpl. destruct (Fmemq u seen); [apply IH|].
    destruct (rec u (u :: seen)) as [[[y o] l]| | |] eqn:E; simpl; try done.
    + rewrite Hrec, E by (rewrite E; done). simpl.
      destruct (EQ y Qunbound); [apply IH|done].
    + rewrite Hrec, E by (rewrite E; done). done.
    + rewrite Hrec, E by (rewrite E; done). done.
Qed.

Lemma lookup_symbol1_mono fuel :
  ∀ fuel' package seen status,
    fuel ≤ fuel' →
    lookup_symbol1 fuel st name package seen status ≠ OutOfFuel →
    lookup_symbol1 fuel' st name package seen status
    = lookup_symbol1 fuel st name package seen status.
Proof.
  induction fuel as [|fuel IH]; intros fuel' package seen status Hle; [done|].
  destruct fuel' as [|fuel']; [lia|]. simpl.
  destruct (XPACKAGE st package) as [pkg| | |]; simpl; try done.
  destruct (pkg_symbols pkg !! name) as [[symbol v]|]; [done|].
  apply use_list_loop_mono. intros u s. apply IH. lia.
Qed.
End lookup_facts.

Section lookup_results.
Context (st : State) (name : string).

Lemma guarded_weaken seen0 seen1 c :
  seen0 ⊆ seen1 → (NoDup seen0 → NoDup seen1) → guarded seen1 c → guarded seen0 c.
Proof.
  intros Hs Hd (Hc & s & Hcs & Hn & Hsub & Hnd). split; [done|].
  exists s. split_and!; [done..| |].
  - by etrans.
  - intros H. apply Hnd, Hd, H.
Qed.

(** *** Totality on closed sets of packages *)

Lemma closed_lookup X p :
  closed st X → p ∈ X →
  ∃ pkg, packages st !! p = Some pkg ∧ Forall (in_set X) (pkg_use_list pkg).
Proof.
  intros Hc Hp. specialize (Hc p Hp). unfold closed_at in Hc.
  destruct (packages st !! p) as [pkg|]; [eauto|done].
Qed.

Lemma use_list_loop_closed X rec seen0 :
  (∀ q s, q ∈ X → LPackage q ∉ s → seen0 ⊆ s →
          ∃ y o l, rec (LPackage q) (LPackage q :: s) = Done ((y, o), l) ∧
                   from_set st name X y) →
  ∀ tail status seen log,
    Forall (in_set X) tail →
    seen0 ⊆ seen →
    ∃ sym l,
      use_list_loop rec status Qunbound tail seen log
      = Done ((sym, put_status status QCinherited), l) ∧ from_set st name X sym.
Proof.
  intros Hrec tail.
  induction tail as [|u tail IH]; intros status seen log Hall Hs.
  - simpl. eexists _, _. split; [done|]. by left.
  - apply Forall_cons in Hall as [Hu Hall].
    simpl. unfold Fmemq. case_bool_decide as Hin.
    + by apply IH.
    + destruct u as [| | |q|]; try done. simpl in Hu.
      destruct (Hrec q seen Hu Hin Hs) as (y & o & l & -> & Hy). simpl.
      unfold EQ. case_bool_decide as Heq.
      * subst y. apply IH; [done|]. intros x Hx. right. by apply Hs.
      * eexists _, _. by split.
Qed.

Lemma lookup_symbol1_closed X fuel :
  closed st X →
  ∀ p seen status,
    p ∈ X →
    size (unseen st seen) + 2 ≤ fuel →
    ∃ sym l,
      lookup_symbol1 fuel st name (LPackage p) seen status
      = Done ((sym, put_status status (status_in st name (LPackage p))), l) ∧
      from_set st name X sym.
Proof.
  intros Hc.
  induction fuel as [|fuel IH]; intros p seen status Hp Hf; [lia|].
  destruct (closed_lookup X p Hc Hp) as (pkg & Hpk & Hall).
  unfold status_in. simpl. rewrite Hpk. simpl.
  destruct (pkg_symbols pkg !! name) as [[symbol v]|] eqn:Hl.
  - eexists _, _. split; [done|]. right. eauto 10.
  - apply (use_list_loop_closed X _ seen); [|done..].
    intros q s Hq Hn Hs.
    destruct (closed_lookup X q Hc Hq) as (pkq & Hpq & _).
    destruct (IH q (LPackage q :: s) false Hq) as (y & l & Hy & Hfrom).
    { pose proof (unseen_cons st q pkq s Hpq Hn).
      pose proof (unseen_mono st seen s Hs). lia. }
    eauto 10.
Qed.

(** *** Where a found symbol comes from *)

Lemma use_list_loop_found rec :
  (∀ u s sym o l, rec u s = Done ((sym, o), l) → sym ≠ Qunbound →
     ∃ p pkg v, packages st !! p = Some pkg ∧ pkg_symbols pkg !! name = Some (sym, v)) →
  ∀ tail status seen log sym o l,
    use_list_loop rec status Qunbound tail seen log = Done ((sym, o), l) →
    sym ≠ Qunbound →
    ∃ p pkg v, packages st !! p = Some pkg ∧ pkg_symbols pkg !! name = Some (sym, v).
Proof.
  intros Hrec tail.
  induction tail as [|u tail IH]; intros status seen log sym o l; simpl.
  - intros [= <- _ _] Hne. done.
  - destruct (Fmemq u seen); [apply IH|].
    destruct (rec u (u :: seen)) as [[[y oy] ly]| | |] eqn:E; simpl; try done.
    unfold EQ. case_bool_decide as Hy.
    + subst y. apply IH.
    + intros [= <- _ _] _. by eapply Hrec.
Qed.

Lemma lookup_symbol1_found fuel :
  ∀ package seen status sym o l,
    lookup_symbol1 fuel st name package seen status = Done ((sym, o), l) →
    sym ≠ Qunbound →
    ∃ p pkg v, packages st !! p = Some pkg ∧ pkg_symbols pkg !! name = Some (sym, v).
Proof.
  induction fuel as [|fuel IH]; intros package seen status sym o l; [done|].
  simpl. destruct (XPACKAGE st package) as [pkg| | |] eqn:Hx; simpl; try done.
  apply XPACKAGE_Done in Hx as (p & -> & Hpk).
  destruct (pkg_symbols pkg !! name) as [[symbol v]|] eqn:Hl.
  - intros [= <- _ _] _. eauto.
  - apply use_list_loop_found. intros u s. apply IH.
Qed.

(** *** The status pointer does not influence the symbol found *)

Lemma use_list_loop_status rec tail :
  ∀ status status' symbol seen log log',
    found_symbol (use_list_loop rec status symbol tail seen log)
    = found_symbol (use_list_loop rec status' symbol tail seen log').
Proof.
  induction tail as [|u tail IH]; intros status status' symbol seen log log'; simpl.
  - done.
  - destruct (Fmemq u seen); [apply IH|].
    destruct (rec u (u :: seen)) as [[[y oy] ly]| | |]; simpl; try done.
    destruct (EQ y Qunbound); [apply IH|done].
Qed.

Lemma lookup_symbol1_status fuel package seen status status' :
  found_symbol (lookup_symbol1 fuel st name package seen status)
  = found_symbol (lookup_symbol1 fuel st name package seen status').
Proof.
  destruct fuel as [|fuel]; [done|]. simpl.
  destruct (XPACKAGE st package) as [pkg| | |]; simpl; try done.
  destruct (pkg_symbols pkg !! name) as [[symbol v]|]; [done|].
  apply use_list_loop_status.
Qed.

(** *** The trace of activations *)

Lemma use_list_loop_trace rec seen0 :
  (∀ u s r l, rec u s = Done (r, l) →
     ∃ rest, l = mkCall u s false :: rest ∧ Forall (guarded s) rest) →
  ∀ tail status symbol seen log r l,
    seen0 ⊆ seen → (NoDup seen0 → NoDup seen) →
    use_list_loop rec status symbol tail seen log = Done (r, l) →
    ∃ extra, l = log ++ extra ∧ Forall (guarded seen0) extra.
Proof.
  intros Hrec tail.
  induction tail as [|u tail IH]; intros status symbol seen log r l Hs Hd; simpl.
  - intros [= _ <-]. exists []. by rewrite app_nil_r.
  - unfold Fmemq. case_bool_decide as Hin; [by apply IH|].
    destruct (rec u (u :: seen)) as [[[y oy] ly]| | |] eqn:E; simpl; try done.
    destruct (Hrec _ _ _ _ E) as (rest & -> & Hrest).
    assert (seen0 ⊆ u :: seen) as Hs' by (intros x Hx; right; by apply Hs).
    assert (NoDup seen0 → NoDup (u :: seen)) as Hd'.
    { intros H. apply NoDup_cons. split; [done|by apply Hd]. }
    assert (Forall (guarded seen0) (mkCall u (u :: seen) false :: rest)) as Hg.
    { constructor.
      - split; [done|]. exists seen. by split_and!.
      - eapply Forall_impl; [exact Hrest|]. intros c. by apply guarded_weaken. }
    destruct (EQ y Qunbound).
    + intros Hl. apply IH in Hl as (extra & -> & Hextra); [|done..].
      eexists. rewrite <- app_assoc. split; [done|]. by apply Forall_app.
    + intros [= _ <-]. eauto.
Qed.

Lemma lookup_symbol1_trace fuel :
  ∀ package seen status r l,
    lookup_symbol1 fuel st name package seen status = Done (r, l) →
    ∃ rest, l = mkCall package seen status :: rest ∧ Forall (guarded seen) rest.
Proof.
  induction fuel as [|fuel IH]; intros package seen status r l; [done|].
  simpl. destruct (XPACKAGE st package) as [pkg| | |]; simpl; try done.
  destruct (pkg_symbols pkg !! name) as [[symbol v]|].
  - intros [= _ <-]. exists []. by split.
  - intros Hl.
    eapply (use_list_loop_trace _ seen) in Hl as (extra & -> & Hextra).
    + eauto.
    + intros u s r' l'. apply IH.
    + done.
    + done.
Qed.
End lookup_results.

Section lookup_symbol_facts.
Context (st : State) (name : string).

Lemma use_list_loop_put_status rec tail :
  ∀ status symbol seen log sym o l,
    use_list_loop rec status symbol tail seen log = Done ((sym, o), l) →
    o = put_status status QCinherited.
Proof.
  induction tail as [|u tail IH]; intros status symbol seen log sym o l; simpl.
  - by intros [= _ <- _].
  - destruct (Fmemq u seen); [apply IH|].
    destruct (rec u (u :: seen)) as [[[y oy] ly]| | |]; simpl; try done.
    destruct (EQ y Qunbound); [apply IH|]. by intros [= _ <- _].
Qed.

Lemma lookup_symbol1_put_status fuel package seen status sym o l :
  lookup_symbol1 fuel st name package seen status = Done ((sym, o), l) →
  o = put_status status (status_in st name package).
Proof.
  destruct fuel as [|fuel]; [done|]. simpl. unfold status_in.
  destruct (XPACKAGE st package) as [pkg| | |]; simpl; try done.
  destruct (pkg_symbols pkg !! name) as [[symbol v]|].
  - by intros [= _ <- _].
  - apply use_list_loop_put_status.
Qed.

Lemma lookup_symbol_eq package status :
  lookup_symbol st name package status
  = sym ← lookup_found st name package;
    Done (sym, put_status status (status_in st name package)).
Proof.
  unfold lookup_symbol, lookup_found, lookup_trace.
  generalize (lookup_fuel st). intros f.
  pose proof (lookup_symbol1_status st name f package [] status false) as Hs.
  destruct (lookup_symbol1 f st name package [] status)
    as [[[sym o] l]| | |] eqn:E;
    destruct (lookup_symbol1 f st name package [] false)
    as [[[sym' o'] l']| | |] eqn:E'; simpl in *; try done.
  - apply lookup_symbol1_put_status in E. congruence.
  - by injection Hs as ->.
Qed.

Lemma lookup_found_fuel package : lookup_found st name package ≠ OutOfFuel.
Proof.
  unfold lookup_found, lookup_trace.
  pose proof (lookup_symbol1_fuel st name (lookup_fuel st) package [] false) as H.
  pose proof (unseen_le st []).
  destruct (lookup_symbol1 (lookup_fuel st) st name package [] false)
    as [[[sym o] l]| | |]; simpl; try done.
  exfalso. apply H; [unfold lookup_fuel; lia|done].
Qed.

Lemma lookup_found_closed X p :
  closed st X → p ∈ X →
  ∃ sym, lookup_found st name (LPackage p) = Done sym ∧ from_set st name X sym.
Proof.
  intros Hc Hp. unfold lookup_found, lookup_trace.
  pose proof (unseen_le st []).
  destruct (lookup_symbol1_closed st name X (lookup_fuel st) Hc p [] false Hp)
    as (sym & l & -> & Hfrom); [unfold lookup_fuel; lia|].
  simpl. eauto.
Qed.

Lemma lookup_found_local p pkg sym v :
  packages st !! p = Some pkg → pkg_symbols pkg !! name = Some (sym, v) →
  lookup_found st name (LPackage p) = Done sym.
Proof.
  intros Hp Hl. unfold lookup_found, lookup_trace, lookup_fuel. simpl.
  by rewrite Hp; simpl; rewrite Hl.
Qed.

Lemma lookup_found_provenance package sym :
  lookup_found st name package = Done sym → sym ≠ Qunbound →
  ∃ p pkg v, packages st !! p = Some pkg ∧ pkg_symbols pkg !! name = Some (sym, v).
Proof.
  unfold lookup_found, lookup_trace.
  destruct (lookup_symbol1 (lookup_fuel st) st name package [] false)
    as [[[sym' o] l]| | |] eqn:E; simpl; try done.
  intros [= ->]. by eapply lookup_symbol1_found.
Qed.

Lemma lookup_found_is_package package sym :
  lookup_found st name package = Done sym →
  ∃ p pkg, package = LPackage p ∧ packages st !! p = Some pkg.
Proof.
  unfold lookup_found, lookup_trace, lookup_fuel. simpl.
  destruct (XPACKAGE_cases st package) as [(p & pkg & -> & Hp & ->)| ->]; simpl;
    [eauto|done].
Qed.

Lemma status_in_local p pkg sym v :
  packages st !! p = Some pkg → pkg_symbols pkg !! name = Some (sym, v) →
  status_in st name (LPackage p) = v.
Proof. intros Hp Hl. unfold status_in. simpl. by rewrite Hp, Hl. Qed.

Lemma status_in_not_local p pkg :
  packages st !! p = Some pkg → pkg_symbols pkg !! name = None →
  status_in st name (LPackage p) = QCinherited.
Proof. intros Hp Hl. unfold status_in. simpl. by rewrite Hp, Hl. Qed.
End lookup_symbol_facts.

Lemma use_list_loop_ext rec rec' :
  (∀ u s, rec u s = rec' u s) →
  ∀ tail status symbol seen log,
    use_list_loop rec status symbol tail seen log
    = use_list_loop rec' status symbol tail seen log.
Proof.
  intros Hrec tail. induction tail as [|u tail IH]; intros status symbol seen log.
  - done.
  - simpl. destruct (Fmemq u seen); [apply IH|]. rewrite Hrec.
    destruct (rec' u (u :: seen)) as [[[y o] l]| | |]; simpl; try done.
    destruct (EQ y Qunbound); [apply IH|done].
Qed.

(** Lookup reads nothing but the package heap. *)
Lemma lookup_symbol1_ext st st' name fuel :
  packages st = packages st' →
  ∀ package seen status,
    lookup_symbol1 fuel st name package seen status
    = lookup_symbol1 fuel st' name package seen status.
Proof.
  intros Heq. induction fuel as [|fuel IH]; intros package seen status; [done|].
  simpl. unfold XPACKAGE. rewrite Heq.
  destruct package as [| | |p|]; simpl; try done.
  destruct (packages st' !! p) as [pkg|]; simpl; [|done].
  destruct (pkg_symbols pkg !! name) as [[symbol v]|]; [done|].
  apply use_list_loop_ext. intros u s. apply IH.
Qed.

Lemma lookup_found_ext st st' name package :
  packages st = packages st' →
  lookup_found st name package = lookup_found st' name package.
Proof.
  intros Heq. unfold lookup_found, lookup_trace, lookup_fuel. rewrite Heq.
  by rewrite (lookup_symbol1_ext st st' name _ Heq).
Qed.

Lemma status_in_ext st st' name package :
  packages st = packages st' →
  status_in st name package = status_in st' name package.
Proof. intros Heq. unfold status_in, XPACKAGE. by rewrite Heq. Qed.


(** Reduce the binds and the projections of updated states, nothing else. *)
Ltac step :=
  cbn [mbind result_bind set_symbol_heap set_packages set_vectors
       packages symbol_heap vectors Vpackage_registry Vearmuffs_package
       Vkeyword_package negb andb fst snd CHECK_STRING].

Tactic Notation "step" "in" hyp(H) :=
  cbn [mbind result_bind set_symbol_heap set_packages set_vectors
       packages symbol_heap vectors Vpackage_registry Vearmuffs_package
       Vkeyword_package negb andb fst snd CHECK_STRING] in H.

(** * Properties of intern *)

Lemma new_symbol_fresh st :
  let s := fresh (builtin_symbols ∪ dom (symbol_heap st)) in
  symbol_heap st !! s = None ∧ LSymbol s ≠ Qunbound ∧ LSymbol s ≠ Qnil.
Proof.
  intros s. pose proof (is_fresh (builtin_symbols ∪ dom (symbol_heap st))) as Hf.
  fold s in Hf. split_and!.
  - apply not_elem_of_dom. set_solver.
  - intros [= Heq]. apply Hf. rewrite Heq. unfold builtin_symbols. set_solver.
  - intros [= Heq]. apply Hf. rewrite Heq. unfold builtin_symbols. set_solver.
Qed.

Lemma update_symbol_Done st s sym f :
  symbol_heap st !! s = Some sym →
  update_symbol st (LSymbol s) f
  = Done (set_symbol_heap st (<[s := f sym]> (symbol_heap st))).
Proof. intros H. unfold update_symbol. by rewrite H. Qed.

Lemma update_package_Done st p pkg f :
  packages st !! p = Some pkg →
  update_package st (LPackage p) f
  = Done (set_packages st (<[p := f pkg]> (packages st))).
Proof. intros H. unfold update_package. by rewrite H. Qed.

Lemma XPACKAGE_eq st p pkg :
  packages st !! p = Some pkg → XPACKAGE st (LPackage p) = Done pkg.
Proof. intros H. simpl. by rewrite H. Qed.

Lemma XSYMBOL_eq st s sym :
  symbol_heap st !! s = Some sym → XSYMBOL st (LSymbol s) = Done sym.
Proof. intros H. simpl. by rewrite H. Qed.

Lemma EQ_refl o : EQ o o = true.
Proof. unfold EQ. by apply bool_decide_eq_true. Qed.

Lemma EQ_true a b : EQ a b = true ↔ a = b.
Proof. unfold EQ. apply bool_decide_eq_true. Qed.

Lemma EQ_false a b : EQ a b = false ↔ a ≠ b.
Proof. unfold EQ. apply bool_decide_eq_false. Qed.

(** The name is already accessible: the symbol found is returned and
    nothing is written. *)
Lemma pkg_intern_symbol1_found st n package status existing sym :
  lookup_found st n package = Done sym → sym ≠ Qunbound →
  pkg_intern_symbol1 st (LString n) package status existing
  = Done ((sym, put_status status (status_in st n package)), st).
Proof.
  intros Hf Hne. unfold pkg_intern_symbol1. simpl.
  rewrite lookup_symbol_eq, Hf. simpl.
  apply EQ_false in Hne. by rewrite Hne.
Qed.

(** The name is not accessible: a new symbol is made and entered into the
    table of the package. *)
Lemma pkg_intern_symbol_new st n p pkg status :
  packages st !! p = Some pkg →
  lookup_found st n (LPackage p) = Done Qunbound →
  let s := fresh (builtin_symbols ∪ dom (symbol_heap st)) in
  let kw := EQ (LPackage p) (Vkeyword_package st) in
  let v := if kw then QCexternal else QCinternal in
  pkg_intern_symbol st (LString n) (LPackage p) status
  = Done ((LSymbol s, put_status status v),
          mkState
            (<[p := set_pkg_symbols (<[n := (LSymbol s, v)]> (pkg_symbols pkg)) pkg]>
               (packages st))
            (<[s := mkSymbol n (LPackage p) SYMBOL_PLAINVAL
                     (if kw then LSymbol s else Qunbound)
                     (if kw then SYMBOL_NOWRITE else SYMBOL_UNTRAPPED_WRITE)
                     kw]> (symbol_heap st))
            (vectors st) (Vpackage_registry st)
            (Vearmuffs_package st) (Vkeyword_package st)).
Proof.
  intros Hp Hf s kw v.
  unfold pkg_intern_symbol, pkg_intern_symbol1. step.
  rewrite lookup_symbol_eq, Hf. step. rewrite EQ_refl. step.
  unfold Fmake_symbol. fold s.
  erewrite update_symbol_Done by (step; apply lookup_insert_eq). step.
  rewrite insert_insert_eq. fold kw.
  destruct kw eqn:Hkw; subst v.
  - unfold make_symbol_constant.
    do 3 (erewrite update_symbol_Done by (step; apply lookup_insert_eq); step).
    rewrite !insert_insert_eq.
    apply EQ_true in Hkw. rewrite <- Hkw.
    unfold pkg_add_symbol. rewrite (XPACKAGE_eq _ p pkg) by done. step.
    unfold Fputhash, SYMBOL_NAME.
    erewrite XSYMBOL_eq by (step; apply lookup_insert_eq). step.
    erewrite update_package_Done by (step; done). step.
    unfold set_packages, set_symbol_heap. simpl. by rewrite <- Hkw.
  - unfold pkg_add_symbol. rewrite (XPACKAGE_eq _ p pkg) by done. step.
    unfold Fputhash, SYMBOL_NAME.
    erewrite XSYMBOL_eq by (step; apply lookup_insert_eq). step.
    erewrite update_package_Done by (step; done). step.
    done.
Qed.

Lemma lookup_symbol_Done st n package status sym o :
  lookup_symbol st n package status = Done (sym, o) ↔
  lookup_found st n package = Done sym ∧
  o = put_status status (status_in st n package).
Proof.
  rewrite lookup_symbol_eq.
  destruct (lookup_found st n package) as [sym'| | |]; simpl; split;
    try (intros [? ?]; done); try done.
  - by intros [= -> ->].
  - by intros [[= ->] ->].
Qed.

(** Whatever intern returns is afterwards found by lookup, in the same
    state, as a symbol different from [Qunbound]. *)
Lemma pkg_intern_symbol_accessible st n package status sym o st1 :
  pkg_intern_symbol st (LString n) package status = Done ((sym, o), st1) →
  lookup_found st1 n package = Done sym ∧ sym ≠ Qunbound ∧
  o = put_status status (status_in st1 n package).
Proof.
  intros Hi.
  destruct (lookup_found st n package) as [sym0| | |] eqn:Hf;
    try (unfold pkg_intern_symbol, pkg_intern_symbol1 in Hi; step in Hi;
         rewrite lookup_symbol_eq, Hf in Hi; done).
  destruct (decide (sym0 = Qunbound)) as [->|Hne].
  - destruct (lookup_found_is_package _ _ _ _ Hf) as (p & pkg & -> & Hp).
    rewrite (pkg_intern_symbol_new st n p pkg status Hp Hf) in Hi.
    injection Hi as <- <- <-.
    destruct (new_symbol_fresh st) as (_ & Hnu & _).
    split_and!; [|done|].
    + eapply lookup_found_local; simpl; [apply lookup_insert_eq|].
      simpl. apply lookup_insert_eq.
    + f_equal. symmetry. eapply status_in_local; simpl; [apply lookup_insert_eq|].
      simpl. apply lookup_insert_eq.
  - unfold pkg_intern_symbol in Hi.
    rewrite (pkg_intern_symbol1_found st n package status Qunbound sym0 Hf Hne) in Hi.
    by injection Hi as <- <- <-.
Qed.

(** ** C2 *)

Lemma pkg_intern_symbol_total st n X p status :
  closed st X → p ∈ X →
  ∃ r st1, pkg_intern_symbol st (LString n) (LPackage p) status = Done (r, st1).
Proof.
  intros Hc Hp.
  destruct (lookup_found_closed st n X p Hc Hp) as (sym & Hf & _).
  destruct (closed_lookup st X p Hc Hp) as (pkg & Hpk & _).
  destruct (decide (sym = Qunbound)) as [->|Hne].
  - rewrite (pkg_intern_symbol_new st n p pkg status Hpk Hf). eauto.
  - unfold pkg_intern_symbol.
    rewrite (pkg_intern_symbol1_found st n _ status Qunbound sym Hf Hne). eauto.
Qed.

(** C2: intern into a live package whose use-lists lead to live packages
    returns a symbol; interning the name a second time into the same
    package returns the identical symbol (and status), and the second call
    returns the state it was given: no symbol table, home package or
    status is written.  In particular a name accessible only by
    inheritance is returned as it is, with status [:inherited], and the
    state is returned unchanged, so no local entry is added. *)
Theorem C2_intern_twice st n package status :
  (∀ X p, package = LPackage p → closed st X → p ∈ X →
          ∃ r st1, pkg_intern_symbol st (LString n) package status = Done (r, st1)) ∧
  (∀ r st1,
     pkg_intern_symbol st (LString n) package status = Done (r, st1) →
     pkg_intern_symbol st1 (LString n) package status = Done (r, st1) ∧
     (∀ status', ∃ o', pkg_intern_symbol st1 (LString n) package status'
                       = Done ((r.1, o'), st1)) ∧
     (∀ sym, lookup_symbol st n package true = Done (sym, Some QCinherited) →
             sym ≠ Qunbound →
             r.1 = sym ∧ st1 = st ∧
             pkg_intern_symbol st (LString n) package true
             = Done ((sym, Some QCinherited), st))).
Proof.
  split.
  { intros X p -> Hc Hp. by eapply pkg_intern_symbol_total. }
  intros [sym o] st1 Hi.
  destruct (pkg_intern_symbol_accessible _ _ _ _ _ _ _ Hi) as (Hf & Hne & ->).
  split_and!.
  - by apply pkg_intern_symbol1_found.
  - intros status'. eexists. by apply pkg_intern_symbol1_found.
  - intros sym' Hl Hne'. apply lookup_symbol_Done in Hl as [Hf' Hs'].
    unfold pkg_intern_symbol in *.
    rewrite (pkg_intern_symbol1_found st n package status Qunbound sym' Hf' Hne') in Hi.
    injection Hi as <- <-. split_and!; [done..|].
    rewrite (pkg_intern_symbol1_found st n package true Qunbound sym' Hf' Hne').
    by rewrite <- Hs'.
Qed.

Lemma C2_intern_twice_witness :
  ∃ r st1,
    pkg_intern_symbol init_pkg_once (LString "foo") (LPackage 1) true = Done (r, st1) ∧
    pkg_intern_symbol st1 (LString "foo") (LPackage 1) true = Done (r, st1).
Proof.
  eexists _, _. split; [vm_compute; reflexivity|].
  refine (proj1 (proj2 (C2_intern_twice init_pkg_once "foo" (LPackage 1) true) _ _ _)).
  vm_compute. reflexivity.
Defined.

(** ** C3 *)

(** C3: when the name is not yet accessible in package P, intern makes a
    symbol at an address that was not in use, whose home package is P,
    enters it into P's own symbol table, with status [:external] when P is
    the keyword package (the symbol then has itself as plain value, cannot
    be written and is declared special) and [:internal] otherwise; a
    lookup of the name in P afterwards returns that symbol with that
    status. *)
Theorem C3_intern_new st n p status o :
  lookup_symbol st n (LPackage p) status = Done (Qunbound, o) →
  ∃ s st' sym pkg',
    let kw := EQ (LPackage p) (Vkeyword_package st) in
    let v := if kw then QCexternal else QCinternal in
    pkg_intern_symbol st (LString n) (LPackage p) status
    = Done ((LSymbol s, put_status status v), st') ∧
    symbol_heap st !! s = None ∧ LSymbol s ≠ Qunbound ∧ LSymbol s ≠ Qnil ∧
    symbol_heap st' !! s = Some sym ∧
    sym_name sym = n ∧ sym_package sym = LPackage p ∧
    packages st' !! p = Some pkg' ∧
    pkg_symbols pkg' !! n = Some (LSymbol s, v) ∧
    (kw = true →
       sym_redirect sym = SYMBOL_PLAINVAL ∧ sym_value sym = LSymbol s ∧
       sym_trapped_write sym = SYMBOL_NOWRITE ∧ sym_declared_special sym = true) ∧
    (kw = false → sym_declared_special sym = false ∧
                  sym_trapped_write sym = SYMBOL_UNTRAPPED_WRITE) ∧
    lookup_symbol st' n (LPackage p) true = Done (LSymbol s, Some v).
Proof.
  intros Hl. apply lookup_symbol_Done in Hl as [Hf _].
  destruct (lookup_found_is_package _ _ _ _ Hf) as (p' & pkg & [= <-] & Hp).
  pose proof (pkg_intern_symbol_new st n p pkg status Hp Hf) as Hi.
  destruct (new_symbol_fresh st) as (Hnone & Hnu & Hnn).
  cbv zeta in *.
  set (s := fresh (builtin_symbols ∪ dom (symbol_heap st))) in *.
  set (kw := EQ (LPackage p) (Vkeyword_package st)) in *.
  eexists s, _, _, _. split; [exact Hi|].
  split_and!; try done.
  - simpl. apply lookup_insert_eq.
  - done.
  - done.
  - simpl. apply lookup_insert_eq.
  - simpl. apply lookup_insert_eq.
  - intros ->. done.
  - intros ->. done.
  - apply lookup_symbol_Done. split.
    + eapply lookup_found_local; simpl; [apply lookup_insert_eq|].
      simpl. apply lookup_insert_eq.
    + simpl. f_equal. symmetry.
      eapply status_in_local; simpl; [apply lookup_insert_eq|].
      simpl. apply lookup_insert_eq.
Qed.

Lemma C3_intern_new_witness :
  ∃ s st',
    pkg_intern_symbol init_pkg_once (LString "foo") (LPackage 2) true
    = Done ((LSymbol s, Some QCexternal), st') ∧
    lookup_symbol st' "foo" (LPackage 2) true = Done (LSymbol s, Some QCexternal).
Proof.
  destruct (C3_intern_new init_pkg_once "foo" 2 true (Some QCinherited))
    as (s & st' & sym & pkg' & H & _ & _ & _ & _ & _ & _ & _ & _ & _ & _ & Hl);
    [by vm_compute|].
  exists s, st'. split; [exact H|exact Hl].
Defined.

(** ** C4 *)

Lemma lookup_symbol_fuel st name package status :
  lookup_symbol st name package status ≠ OutOfFuel.
Proof.
  rewrite lookup_symbol_eq. pose proof (lookup_found_fuel st name package).
  by destruct (lookup_found st name package).
Qed.

Lemma lookup_symbol_missing st name X a :
  closed st X → a ∈ X →
  (∀ q pkg, q ∈ X → packages st !! q = Some pkg → pkg_symbols pkg !! name = None) →
  lookup_symbol st name (LPackage a) true = Done (Qunbound, Some QCinherited).
Proof.
  intros Hc Ha Hmiss. apply lookup_symbol_Done.
  destruct (lookup_found_closed st name X a Hc Ha) as (sym & Hf & Hfrom).
  destruct (closed_lookup st X a Hc Ha) as (pa & Hpa & _).
  rewrite (status_in_not_local st name a pa Hpa (Hmiss a pa Ha Hpa)).
  split; [|done]. rewrite Hf.
  destruct Hfrom as [->|(q & pkg & v & Hq & Hpq & Hl)]; [done|].
  rewrite (Hmiss q pkg Hq Hpq) in Hl. done.
Qed.

(** C4: the search ends on every use-list graph, cyclic or not: the budget
    [lookup_fuel] is never exhausted, and a larger budget gives the same
    result.  For packages A and B that list each other, the lookup in A of
    a name that is in no table the search can reach (A, B and whatever
    else their use-lists lead to) returns [Qunbound], with status
    [:inherited]. *)
Theorem C4_cyclic_lookup_terminates st name :
  (∀ package status, lookup_symbol st name package status ≠ OutOfFuel) ∧
  (∀ fuel package seen status,
     lookup_fuel st ≤ fuel →
     lookup_symbol1 fuel st name package seen status ≠ OutOfFuel ∧
     lookup_symbol1 fuel st name package seen status
     = lookup_symbol1 (lookup_fuel st) st name package seen status) ∧
  (∀ X a b pa pb,
     closed st X → a ∈ X →
     packages st !! a = Some pa → packages st !! b = Some pb →
     LPackage b ∈ pkg_use_list pa → LPackage a ∈ pkg_use_list pb →
     (∀ q pkg, q ∈ X → packages st !! q = Some pkg →
               pkg_symbols pkg !! name = None) →
     lookup_symbol st name (LPackage a) true = Done (Qunbound, Some QCinherited)).
Proof.
  split_and!.
  - apply lookup_symbol_fuel.
  - intros fuel package seen status Hle.
    assert (lookup_symbol1 (lookup_fuel st) st name package seen status ≠ OutOfFuel)
      as Hne.
    { apply lookup_symbol1_fuel. pose proof (unseen_le st seen).
      unfold lookup_fuel. lia. }
    rewrite (lookup_symbol1_mono st name (lookup_fuel st) fuel) by done.
    by split.
  - intros X a b pa pb Hc Ha _ _ _ _ Hmiss. by eapply lookup_symbol_missing.
Qed.

Lemma C4_cyclic_lookup_terminates_witness :
  lookup_symbol cyclic_world "missing" (LPackage 1) true
  = Done (Qunbound, Some QCinherited).
Proof.
  apply (proj2 (proj2 (C4_cyclic_lookup_terminates cyclic_world "missing"))
           {[1%positive; 2%positive]} 1%positive 2%positive
           (package_with "A" ∅ [LPackage 2]) (package_with "B" ∅ [LPackage 1])).
  - apply (bool_decide_unpack _). by vm_compute.
  - apply (bool_decide_unpack _). by vm_compute.
  - by vm_compute.
  - by vm_compute.
  - apply (bool_decide_unpack _). by vm_compute.
  - apply (bool_decide_unpack _). by vm_compute.
  - intros q pkg Hq Hp.
    assert (q = 1%positive ∨ q = 2%positive) as [-> | ->] by set_solver.
    + vm_compute in Hp. by injection Hp as <-.
    + vm_compute in Hp. by injection Hp as <-.
Defined.

(** * Inheritance *)

Lemma lookup_symbol1_S fuel st name package seen status :
  lookup_symbol1 (S fuel) st name package seen status
  = (pkg ← XPACKAGE st package;
     match pkg_symbols pkg !! name with
     | Some (symbol, st_value) =>
         Done ((symbol, put_status status st_value), [mkCall package seen status])
     | None =>
         use_list_loop
           (λ used_package seen', lookup_symbol1 fuel st name used_package seen' false)
           status Qunbound (pkg_use_list pkg) seen [mkCall package seen status]
     end).
Proof. reflexivity. Qed.

Lemma use_list_loop_finds X rec b sym seen0 :
  (∀ q s, q ∈ X → LPackage q ∉ s → seen0 ⊆ s →
          ∃ y o l, rec (LPackage q) (LPackage q :: s) = Done ((y, o), l) ∧
                   (y = Qunbound ∧ q ≠ b ∨ y = sym)) →
  sym ≠ Qunbound →
  ∀ tail status seen log,
    Forall (in_set X) tail → LPackage b ∈ tail → LPackage b ∉ seen →
    seen0 ⊆ seen →
    ∃ l, use_list_loop rec status Qunbound tail seen log
         = Done ((sym, put_status status QCinherited), l).
Proof.
  intros Hrec Hne tail.
  induction tail as [|u tail IH]; intros status seen log Hall Hb Hnb Hs.
  - by apply elem_of_nil in Hb.
  - apply Forall_cons in Hall as [Hu Hall].
    simpl. unfold Fmemq. case_bool_decide as Hin.
    + apply IH; try done.
      apply elem_of_cons in Hb as [<-|Hb]; done.
    + destruct u as [| | |q|]; try done. simpl in Hu.
      destruct (Hrec q seen Hu Hin Hs) as (y & o & l & -> & Hy). simpl.
      destruct Hy as [[-> Hqb] | ->].
      * rewrite EQ_refl. apply IH; try done.
        -- apply elem_of_cons in Hb as [[= <-]|Hb]; done.
        -- intros [[= <-]|Hx]%elem_of_cons; done.
        -- intros x Hx. right. by apply Hs.
      * apply EQ_false in Hne. rewrite Hne. eauto.
Qed.

(** Only package [b] of the closed set [X] has a local entry for the name,
    and it is [sym]: every package of [X] whose use-list holds [b], and
    which has no local entry itself, finds [sym]. *)
Lemma lookup_found_inherited st n X a b pa pb sym v :
  closed st X → a ∈ X →
  packages st !! a = Some pa → LPackage b ∈ pkg_use_list pa →
  pkg_symbols pa !! n = None →
  packages st !! b = Some pb → pkg_symbols pb !! n = Some (sym, v) →
  sym ≠ Qunbound →
  (∀ q pkg, q ∈ X → q ≠ b → packages st !! q = Some pkg →
            pkg_symbols pkg !! n = None) →
  lookup_found st n (LPackage a) = Done sym.
Proof.
  intros Hc Ha Hpa Hb Hla Hpb Hlb Hne Huniq.
  destruct (closed_lookup st X a Hc Ha) as (pa' & Hpa' & Hall).
  rewrite Hpa in Hpa'. injection Hpa' as <-.
  unfold lookup_found, lookup_trace, lookup_fuel.
  rewrite lookup_symbol1_S, (XPACKAGE_eq st a pa Hpa). step. rewrite Hla.
  assert (∀ q s, q ∈ X → LPackage q ∉ s → [] ⊆ s →
            ∃ y o l, lookup_symbol1 (S (size (packages st))) st n (LPackage q)
                       (LPackage q :: s) false = Done ((y, o), l) ∧
                     (y = Qunbound ∧ q ≠ b ∨ y = sym)) as Hrec.
  { intros q s Hq Hn _.
    destruct (closed_lookup st X q Hc Hq) as (pq & Hpq & _).
    destruct (lookup_symbol1_closed st n X (S (size (packages st))) Hc q
                (LPackage q :: s) false Hq) as (y & l & Hy & Hfrom).
    { pose proof (unseen_cons st q pq s Hpq Hn). pose proof (unseen_le st s). lia. }
    eexists _, _, _. split; [exact Hy|].
    destruct Hfrom as [-> | (q' & pkg' & v' & Hq' & Hpq' & Hl')].
    - left. split; [done|]. intros ->.
      simpl in Hy. rewrite Hpb in Hy. simpl in Hy. rewrite Hlb in Hy.
      by injection Hy.
    - right. destruct (decide (q' = b)) as [->|Hqb].
      + rewrite Hpb in Hpq'. injection Hpq' as <-. congruence.
      + rewrite (Huniq q' pkg' Hq' Hqb Hpq') in Hl'. done. }
  destruct (use_list_loop_finds X
              (λ u s, lookup_symbol1 (S (size (packages st))) st n u s false)
              b sym [] Hrec Hne (pkg_use_list pa) false []
              [mkCall (LPackage a) [] false] Hall Hb) as [l Hl].
  - apply not_elem_of_nil.
  - done.
  - by rewrite Hl.
Qed.

(** What intern leaves alone: every other package, and the use-list of
    the package itself. *)
Lemma pkg_intern_symbol_frame st n p status sym o st1 :
  pkg_intern_symbol st (LString n) (LPackage p) status = Done ((sym, o), st1) →
  ∃ pkg pkg1,
    packages st !! p = Some pkg ∧ packages st1 !! p = Some pkg1 ∧
    pkg_use_list pkg1 = pkg_use_list pkg ∧
    pkg_shadowing_symbols pkg1 = pkg_shadowing_symbols pkg ∧
    (∀ m, m ≠ n → pkg_symbols pkg1 !! m = pkg_symbols pkg !! m) ∧
    (∀ q, q ≠ p → packages st1 !! q = packages st !! q).
Proof.
  intros Hi.
  destruct (lookup_found st n (LPackage p)) as [sym0| | |] eqn:Hf;
    try (unfold pkg_intern_symbol, pkg_intern_symbol1 in Hi; step in Hi;
         rewrite lookup_symbol_eq, Hf in Hi; done).
  destruct (lookup_found_is_package _ _ _ _ Hf) as (p' & pkg & [= <-] & Hp).
  destruct (decide (sym0 = Qunbound)) as [->|Hne].
  - rewrite (pkg_intern_symbol_new st n p pkg status Hp Hf) in Hi.
    injection Hi as <- <- <-.
    eexists pkg, _. split_and!; [done|simpl; apply lookup_insert_eq|done..| |].
    + intros m Hm. simpl. by apply lookup_insert_ne.
    + intros q Hq. simpl. by apply lookup_insert_ne.
  - unfold pkg_intern_symbol in Hi.
    rewrite (pkg_intern_symbol1_found st n _ status Qunbound sym0 Hf Hne) in Hi.
    injection Hi as <- <- <-. exists pkg, pkg. by split_and!.
Qed.

Lemma closed_frame st st1 X :
  closed st X →
  (∀ q pkg, packages st !! q = Some pkg →
            ∃ pkg1, packages st1 !! q = Some pkg1 ∧
                    pkg_use_list pkg1 = pkg_use_list pkg) →
  closed st1 X.
Proof.
  intros Hc Hfr q Hq. destruct (closed_lookup st X q Hc Hq) as (pkg & Hp & Hall).
  destruct (Hfr q pkg Hp) as (pkg1 & Hp1 & Hu).
  unfold closed_at. by rewrite Hp1, Hu.
Qed.

Lemma pkg_intern_symbol_closed st n p status r st1 X :
  pkg_intern_symbol st (LString n) (LPackage p) status = Done (r, st1) →
  closed st X → closed st1 X.
Proof.
  destruct r as [sym o]. intros Hi Hc.
  destruct (pkg_intern_symbol_frame _ _ _ _ _ _ _ Hi)
    as (pkg & pkg1 & Hp & Hp1 & Hu & _ & _ & Hother).
  apply (closed_frame st); [done|]. intros q pkq Hq.
  destruct (decide (q = p)) as [->|Hne].
  - rewrite Hp in Hq. injection Hq as <-. eauto.
  - rewrite <- (Hother q Hne) in Hq. eauto.
Qed.

(** ** C1 *)

(** C1 (as amended): let B be on the use-list of package A, and let no
    package other than B that a search from A can reach (A itself
    included) have a local entry for the name.  After intern of the name
    into B, lookup of the name in A returns the symbol intern returned,
    which is in B's own table, and reports status [:inherited] whatever
    the status [v] of that entry is; A's own table has no entry for the
    name; and in the trace of that lookup only the first activation, the
    caller's, is given a status pointer. *)
Theorem C1_inherited_lookup st n X a b pa status sym o st1 :
  closed st X → a ∈ X →
  packages st !! a = Some pa → LPackage b ∈ pkg_use_list pa → a ≠ b →
  (∀ q pkg, q ∈ X → q ≠ b → packages st !! q = Some pkg →
            pkg_symbols pkg !! n = None) →
  pkg_intern_symbol st (LString n) (LPackage b) status = Done ((sym, o), st1) →
  lookup_symbol st1 n (LPackage a) true = Done (sym, Some QCinherited) ∧
  (∃ pa1, packages st1 !! a = Some pa1 ∧ pkg_symbols pa1 !! n = None) ∧
  (∃ pb1 v, packages st1 !! b = Some pb1 ∧ pkg_symbols pb1 !! n = Some (sym, v)) ∧
  (∃ r rest,
     lookup_trace st1 n (LPackage a) true
     = Done (r, mkCall (LPackage a) [] true :: rest) ∧
     Forall (λ c, call_status c = false) rest).
Proof.
  intros Hc Ha Hpa Hb Hab Huniq Hi.
  destruct (pkg_intern_symbol_accessible _ _ _ _ _ _ _ Hi) as (Hf & Hne & _).
  pose proof (pkg_intern_symbol_closed _ _ _ _ _ _ X Hi Hc) as Hc1.
  destruct (pkg_intern_symbol_frame _ _ _ _ _ _ _ Hi)
    as (pb & pb1 & Hpb & Hpb1 & _ & _ & _ & Hother).
  assert (b ∈ X) as HbX.
  { destruct (closed_lookup st X a Hc Ha) as (pa' & Hpa' & Hall).
    rewrite Hpa in Hpa'. injection Hpa' as <-.
    rewrite Forall_forall in Hall. exact (Hall _ Hb). }
  assert (∀ q pkg, q ∈ X → q ≠ b → packages st1 !! q = Some pkg →
                   pkg_symbols pkg !! n = None) as Huniq1.
  { intros q pkg Hq Hqb Hpq. rewrite (Hother q Hqb) in Hpq. by eapply Huniq. }
  assert (packages st1 !! a = Some pa) as Hpa1 by (by rewrite (Hother a Hab)).
  assert (pkg_symbols pa !! n = None) as Hla by exact (Huniq a pa Ha Hab Hpa).
  assert (∃ v, pkg_symbols pb1 !! n = Some (sym, v)) as [v Hlb].
  { destruct (lookup_found_closed st1 n X b Hc1 HbX) as (sym' & Hf' & Hfrom).
    rewrite Hf in Hf'. injection Hf' as <-.
    destruct Hfrom as [->|(q & pkg & v & Hq & Hpq & Hl)]; [done|].
    destruct (decide (q = b)) as [->|Hqb].
    - rewrite Hpb1 in Hpq. injection Hpq as <-. eauto.
    - rewrite (Huniq1 q pkg Hq Hqb Hpq) in Hl. done. }
  assert (lookup_symbol st1 n (LPackage a) true = Done (sym, Some QCinherited)) as Hl.
  { apply lookup_symbol_Done. split.
    - by eapply (lookup_found_inherited st1 n X a b pa pb1 sym v).
    - by rewrite (status_in_not_local st1 n a pa Hpa1 Hla). }
  split_and!; [done|eauto|eauto|].
  unfold lookup_symbol in Hl.
  destruct (lookup_trace st1 n (LPackage a) true) as [[r l]| | |] eqn:Ht; try done.
  unfold lookup_trace in Ht.
  apply lookup_symbol1_trace in Ht as (rest & -> & Hg).
  exists r, rest. split; [done|].
  eapply Forall_impl; [exact Hg|]. by intros c [Hs _].
Qed.

Lemma C1_inherited_lookup_witness :
  ∃ sym st1,
    pkg_intern_symbol cyclic_world (LString "x") (LPackage 2) true
    = Done ((sym, Some QCinternal), st1) ∧
    lookup_symbol st1 "x" (LPackage 1) true = Done (sym, Some QCinherited).
Proof.
  eexists _, _. split; [vm_compute; reflexivity|].
  refine (proj1 (C1_inherited_lookup cyclic_world "x" {[1%positive; 2%positive]}
                   1%positive 2%positive (package_with "A" ∅ [LPackage 2]) true
                   _ _ _ _ _ _ _ _ _ _)).
  - apply (bool_decide_unpack _). by vm_compute.
  - apply (bool_decide_unpack _). by vm_compute.
  - by vm_compute.
  - apply (bool_decide_unpack _). by vm_compute.
  - done.
  - intros q pkg Hq Hqb Hp.
    assert (q = 1%positive) as ->.
    { apply elem_of_union in Hq as [Hq|Hq]; apply elem_of_singleton in Hq; done. }
    vm_compute in Hp. by injection Hp as <-.
  - vm_compute. reflexivity.
Defined.

(** C1, counterexample: B is on A's use-list, "x" is interned into B
    (the new symbol is at address 5) and A has no local "x", but the
    lookup of "x" in A returns the symbol of C, which comes first on the
    use-list, not B's. *)
Lemma C1_counterexample :
  ∃ st1 pa1,
    pkg_intern_symbol shadow_world (LString "x") (LPackage 2) true
    = Done ((LSymbol 5, Some QCinternal), st1) ∧
    packages st1 !! 1%positive = Some pa1 ∧
    LPackage 2 ∈ pkg_use_list pa1 ∧ pkg_symbols pa1 !! "x"%string = None ∧
    lookup_symbol st1 "x" (LPackage 1) true = Done (LSymbol 4, Some QCinherited) ∧
    LSymbol 4 ≠ LSymbol 5.
Proof.
  eexists _, _. split; [vm_compute; reflexivity|].
  split; [vm_compute; reflexivity|].
  split_and!.
  - apply (bool_decide_unpack _). by vm_compute.
  - by vm_compute.
  - by vm_compute.
  - done.
Qed.

(** When "x" reaches B only by inheritance, the symbol intern returns for
    B and the symbol a lookup in A returns can differ even with the
    use-list [B]: the search from B enters B a second time (the starting
    package is not on the SEEN list) and finds E's symbol there, the search
    from A does not and finds F's. *)
Example inherited_symbol_depends_on_start :
  pkg_intern_symbol detour_world (LString "x") (LPackage 2) true
  = Done ((LSymbol 4, Some QCinherited), detour_world) ∧
  lookup_symbol detour_world "x" (LPackage 1) true
  = Done (LSymbol 5, Some QCinherited).
Proof. split; vm_compute; reflexivity. Qed.

(** * Properties of unintern *)

Lemma pkg_unintern_symbol_eq st s sy package p pkg found :
  symbol_heap st !! s = Some sy →
  package_or_default st package = Done (LPackage p) →
  packages st !! p = Some pkg →
  lookup_found st (sym_name sy) (LPackage p) = Done found →
  let status := status_in st (sym_name sy) (LPackage p) in
  let removed :=
    negb (EQ found Qunbound) && negb (bool_decide (Some status = Some QCinherited)) in
  pkg_unintern_symbol st (LSymbol s) package
  = Done (if removed then Qt else Qnil,
          mkState
            (if removed then
               <[p := mkPackage (pkg_name pkg) (pkg_nicknames pkg)
                        (delete (sym_name sy) (pkg_symbols pkg))
                        (pkg_use_list pkg)
                        (Fdelq (LSymbol s) (pkg_shadowing_symbols pkg))]> (packages st)
             else packages st)
            (if EQ (LPackage p) (sym_package sy)
             then <[s := set_sym_package Qnil sy]> (symbol_heap st)
             else symbol_heap st)
            (vectors st) (Vpackage_registry st)
            (Vearmuffs_package st) (Vkeyword_package st)).
Proof.
  intros Hs Hpd Hp Hf status removed.
  unfold pkg_unintern_symbol. cbn [CHECK_SYMBOL SYMBOLP]. step.
  rewrite Hpd. step. unfold SYMBOL_NAME at 1. rewrite (XSYMBOL_eq st s sy Hs). step.
  rewrite lookup_symbol_eq, Hf. step. cbn [put_status]. fold status. fold removed.
  destruct removed.
  - unfold remove_shadowing_symbol. rewrite (XPACKAGE_eq st p pkg Hp). step.
    rewrite (update_package_Done st p pkg) by done. step.
    unfold pkg_remove_symbol.
    erewrite XPACKAGE_eq by (step; apply lookup_insert_eq). step.
    unfold Fremhash, SYMBOL_NAME. rewrite XSYMBOL_eq with (sym := sy) by done. step.
    erewrite update_package_Done by (step; apply lookup_insert_eq). step.
    rewrite insert_insert_eq.
    unfold SYMBOL_PACKAGE. rewrite XSYMBOL_eq with (sym := sy) by done. step.
    destruct (EQ (LPackage p) (sym_package sy)).
    + rewrite update_symbol_Done with (sym := sy) by done. done.
    + done.
  - step. unfold SYMBOL_PACKAGE. rewrite (XSYMBOL_eq st s sy Hs). step.
    destruct (EQ (LPackage p) (sym_package sy)).
    + rewrite (update_symbol_Done st s sy) by done. done.
    + step. by destruct st.
Qed.

Lemma pkg_unintern_symbol_inv st symbol package r :
  pkg_unintern_symbol st symbol package = Done r →
  ∃ s sy p pkg found,
    symbol = LSymbol s ∧ symbol_heap st !! s = Some sy ∧
    package_or_default st package = Done (LPackage p) ∧
    packages st !! p = Some pkg ∧
    lookup_found st (sym_name sy) (LPackage p) = Done found.
Proof.
  unfold pkg_unintern_symbol.
  destruct symbol as [s| | | |]; cbn [CHECK_SYMBOL SYMBOLP]; step; try done.
  destruct (package_or_default st package) as [package0| | |] eqn:Hpd; step; try done.
  unfold SYMBOL_NAME at 1, XSYMBOL.
  destruct (symbol_heap st !! s) as [sy|] eqn:Hs; step; try done.
  rewrite lookup_symbol_eq.
  destruct (lookup_found st (sym_name sy) package0) as [found| | |] eqn:Hf;
    step; try done.
  destruct (lookup_found_is_package _ _ _ _ Hf) as (p & pkg & -> & Hp).
  intros _. eauto 10.
Qed.

(** ** C5 *)

Lemma pkg_unintern_symbol_total st s sy package X p :
  symbol_heap st !! s = Some sy →
  package_or_default st package = Done (LPackage p) →
  closed st X → p ∈ X →
  ∃ removedp st', pkg_unintern_symbol st (LSymbol s) package = Done (removedp, st').
Proof.
  intros Hs Hpd Hc Hp.
  destruct (lookup_found_closed st (sym_name sy) X p Hc Hp) as (found & Hf & _).
  destruct (closed_lookup st X p Hc Hp) as (pkg & Hpk & _).
  rewrite (pkg_unintern_symbol_eq st s sy package p pkg found Hs Hpd Hpk Hf). eauto.
Qed.

(** C5: unintern of a live symbol from a live package whose use-lists lead
    to live packages returns; it returns [Qt] exactly when a
    lookup of the symbol's name in the package finds a symbol with a status
    other than [:inherited], and [Qnil] otherwise.  In the first case the
    entry for the name is deleted from the package's symbol table and the
    symbol is deleted from its shadowing list; in the second the package
    heap is as before.  In both cases the symbol's home package is set to
    nil when it was this package and is kept otherwise; the symbol stays in
    the heap with its name and other fields; no other package and no other
    symbol is written. *)
Theorem C5_unintern st symbol package :
  (∀ s sy X p,
     symbol = LSymbol s → symbol_heap st !! s = Some sy →
     package_or_default st package = Done (LPackage p) →
     closed st X → p ∈ X →
     ∃ removedp st', pkg_unintern_symbol st symbol package = Done (removedp, st')) ∧
  (∀ removedp st',
     pkg_unintern_symbol st symbol package = Done (removedp, st') →
     ∃ s sy p pkg found status,
       symbol = LSymbol s ∧ symbol_heap st !! s = Some sy ∧
       package_or_default st package = Done (LPackage p) ∧
       packages st !! p = Some pkg ∧
       lookup_symbol st (sym_name sy) (LPackage p) true = Done (found, Some status) ∧
       (removedp = Qt ↔ found ≠ Qunbound ∧ status ≠ QCinherited) ∧
       (removedp = Qnil ↔ ¬ (found ≠ Qunbound ∧ status ≠ QCinherited)) ∧
       (removedp = Qt →
          ∃ pkg', packages st' !! p = Some pkg' ∧
                  pkg_symbols pkg' = delete (sym_name sy) (pkg_symbols pkg) ∧
                  pkg_symbols pkg' !! (sym_name sy) = None ∧
                  pkg_shadowing_symbols pkg' = Fdelq symbol (pkg_shadowing_symbols pkg) ∧
                  (symbol ∉ pkg_shadowing_symbols pkg') ∧
                  pkg_use_list pkg' = pkg_use_list pkg) ∧
       (removedp = Qnil → packages st' = packages st) ∧
       (∀ q, q ≠ p → packages st' !! q = packages st !! q) ∧
       (∃ sy', symbol_heap st' !! s = Some sy' ∧
               sym_name sy' = sym_name sy ∧
               sym_package sy' = (if EQ (LPackage p) (sym_package sy) then Qnil
                                  else sym_package sy) ∧
               sym_redirect sy' = sym_redirect sy ∧ sym_value sy' = sym_value sy ∧
               sym_trapped_write sy' = sym_trapped_write sy ∧
               sym_declared_special sy' = sym_declared_special sy) ∧
       (∀ s', s' ≠ s → symbol_heap st' !! s' = symbol_heap st !! s')).
Proof.
  split.
  { intros s sy X p ->. apply pkg_unintern_symbol_total. }
  intros removedp st' Hu.
  destruct (pkg_unintern_symbol_inv _ _ _ _ Hu)
    as (s & sy & p & pkg & found & -> & Hs & Hpd & Hp & Hf).
  rewrite (pkg_unintern_symbol_eq st s sy package p pkg found Hs Hpd Hp Hf) in Hu.
  cbv zeta in Hu.
  set (status := status_in st (sym_name sy) (LPackage p)) in *.
  assert (Qt ≠ Qnil) as Htn by done.
  assert (negb (EQ found Qunbound)
          && negb (bool_decide (Some status = Some QCinherited)) = true
          ↔ found ≠ Qunbound ∧ status ≠ QCinherited) as Hrem.
  { rewrite andb_true_iff, !negb_true_iff, EQ_false, bool_decide_eq_false.
    split; intros [? ?]; split; congruence. }
  assert (∃ sy', (if EQ (LPackage p) (sym_package sy)
                  then <[s := set_sym_package Qnil sy]> (symbol_heap st)
                  else symbol_heap st) !! s = Some sy' ∧
            sym_name sy' = sym_name sy ∧
            sym_package sy' = (if EQ (LPackage p) (sym_package sy) then Qnil
                               else sym_package sy) ∧
            sym_redirect sy' = sym_redirect sy ∧ sym_value sy' = sym_value sy ∧
            sym_trapped_write sy' = sym_trapped_write sy ∧
            sym_declared_special sy' = sym_declared_special sy) as Hsym.
  { destruct (EQ (LPackage p) (sym_package sy)).
    - eexists. split; [apply lookup_insert_eq|]. done.
    - eauto 10. }
  assert (∀ s', s' ≠ s →
            (if EQ (LPackage p) (sym_package sy)
             then <[s := set_sym_package Qnil sy]> (symbol_heap st)
             else symbol_heap st) !! s' = symbol_heap st !! s') as Hothers.
  { intros s' Hs'. destruct (EQ (LPackage p) (sym_package sy)); [|done].
    by apply lookup_insert_ne. }
  exists s, sy, p, pkg, found, status.
  split_and!; [done..| | | | | | | |].
  { apply lookup_symbol_Done. by split. }
  all: destruct (negb (EQ found Qunbound)
                 && negb (bool_decide (Some status = Some QCinherited))) eqn:Hr;
    injection Hu as <- <-; cbn [packages symbol_heap]; try done.
  - split; [intros _; by apply Hrem|done].
  - split; [done|]. intros H%Hrem. done.
  - split; [done|]. intros H. exfalso. apply H. by apply Hrem.
  - split; [|done]. intros _ H%Hrem. done.
  - intros _. eexists. split; [apply lookup_insert_eq|]. simpl.
    split_and!; try done.
    + apply lookup_delete_eq.
    + unfold Fdelq. intros [H _]%list_elem_of_filter. done.
  - intros q Hq. by apply lookup_insert_ne.
Qed.

Lemma C5_unintern_witness :
  ∃ st',
    pkg_unintern_symbol shadowing_world (LSymbol 4) (LPackage 1) = Done (Qt, st') ∧
    ∃ pkg', packages st' !! 1%positive = Some pkg' ∧
            pkg_symbols pkg' !! "x"%string = None ∧
            LSymbol 4 ∉ pkg_shadowing_symbols pkg'.
Proof.
  eexists. split; [vm_compute; reflexivity|].
  edestruct (proj2 (C5_unintern shadowing_world (LSymbol 4) (LPackage 1)) Qt)
    as (s & sy & p & pkg & found & status & Hsym & Hs & Hpd & _ & _ & _ & _
        & Hrem & _);
    [vm_compute; reflexivity|].
  injection Hsym as <-. vm_compute in Hs. injection Hs as <-.
  vm_compute in Hpd. injection Hpd as <-.
  destruct (Hrem eq_refl) as (pkg' & Hp' & _ & Hnone & _ & Hnot & _).
  exists pkg'. by split_and!.
Defined.

(** * Qualified symbols *)

Lemma package_or_default_package st p :
  package_or_default st (LPackage p) = Done (LPackage p).
Proof. reflexivity. Qed.

Lemma Ffind_symbol_package st n p :
  Ffind_symbol st (LString n) (LPackage p)
  = sym ← lookup_found st n (LPackage p);
    if EQ sym Qunbound then Done None
    else Done (Some (sym, Some (status_in st n (LPackage p)))).
Proof.
  unfold Ffind_symbol. step. rewrite package_or_default_package. step.
  rewrite lookup_symbol_eq.
  by destruct (lookup_found st n (LPackage p)).
Qed.

(** The value of [pkg_qualified_symbol] on a package object, by cases on
    what the lookup delivers. *)
Lemma pkg_qualified_symbol_eq st n p external sym :
  lookup_found st n (LPackage p) = Done sym →
  pkg_qualified_symbol st (LString n) (LPackage p) external
  = if EQ (LPackage p) (Vkeyword_package st) then
      if EQ sym Qunbound then
        '((symbol, _), st') ← pkg_intern_symbol st (LString n) (LPackage p) false;
        Done (symbol, st')
      else Done (sym, st)
    else
      if EQ sym Qunbound then Signal UnboundInPackage
      else if external
              && bool_decide (Some (status_in st n (LPackage p)) = Some QCinternal)
           then Signal NotExternal
           else Done (sym, st).
Proof.
  intros Hf. unfold pkg_qualified_symbol.
  destruct (lookup_found_is_package st n (LPackage p) sym Hf)
    as (p' & pkg & [= <-] & Hp).
  rewrite Ffind_symbol_package, Hf, (XPACKAGE_eq st p pkg Hp). step.
  by destruct (EQ sym Qunbound), (EQ (LPackage p) (Vkeyword_package st)).
Qed.

(** ** C6 *)

(** C6: qualified resolution against the keyword package does not fail
    (the keyword package being a live package whose use-lists lead to live
    packages only).  When the name is not found, the symbol returned is
    new, its home is the keyword package, it has itself as plain value,
    cannot be written, is declared special and is entered in the keyword
    package's table as [:external]; when it is found, it is returned as it
    is.  Resolving the same name again, in the state left by the first
    call, returns the identical symbol and leaves that state as it is. *)
Theorem C6_keyword_qualified st n k external X :
  Vkeyword_package st = LPackage k → closed st X → k ∈ X →
  ∃ symbol st1,
    pkg_qualified_symbol st (LString n) (LPackage k) external = Done (symbol, st1) ∧
    symbol ≠ Qunbound ∧
    (∀ external',
       pkg_qualified_symbol st1 (LString n) (LPackage k) external'
       = Done (symbol, st1)) ∧
    (Ffind_symbol st (LString n) (LPackage k) = Done None →
       ∃ s sy pk1,
         symbol = LSymbol s ∧ symbol_heap st !! s = None ∧
         symbol_heap st1 !! s = Some sy ∧
         sym_name sy = n ∧ sym_package sy = LPackage k ∧
         sym_redirect sy = SYMBOL_PLAINVAL ∧ sym_value sy = symbol ∧
         sym_trapped_write sy = SYMBOL_NOWRITE ∧ sym_declared_special sy = true ∧
         packages st1 !! k = Some pk1 ∧
         pkg_symbols pk1 !! n = Some (symbol, QCexternal) ∧
         Ffind_symbol st1 (LString n) (LPackage k)
         = Done (Some (symbol, Some QCexternal))) ∧
    (∀ found, Ffind_symbol st (LString n) (LPackage k) = Done (Some found) →
              symbol = found.1 ∧ st1 = st).
Proof.
  intros Hkw Hc Hk.
  destruct (lookup_found_closed st n X k Hc Hk) as (sym & Hf & _).
  destruct (closed_lookup st X k Hc Hk) as (pk & Hpk & _).
  pose proof (pkg_qualified_symbol_eq st n k external sym Hf) as Hq.
  pose proof (Ffind_symbol_package st n k) as Hfind.
  rewrite Hf in Hfind. step in Hfind.
  rewrite Hkw, EQ_refl in Hq.
  destruct (decide (sym = Qunbound)) as [->|Hne].
  - rewrite EQ_refl in Hq, Hfind.
    pose proof (pkg_intern_symbol_new st n k pk false Hpk Hf) as Hi.
    cbv zeta in Hi. rewrite Hkw, EQ_refl in Hi. rewrite Hi in Hq. step in Hq.
    destruct (new_symbol_fresh st) as (Hnone & Hnu & _).
    set (s := fresh (builtin_symbols ∪ dom (symbol_heap st))) in *.
    match type of Hi with _ = Done (_, ?x) => set (st1 := x) in * end.
    assert (lookup_found st1 n (LPackage k) = Done (LSymbol s)) as Hf1.
    { eapply lookup_found_local; simpl; [apply lookup_insert_eq|].
      simpl. apply lookup_insert_eq. }
    assert (status_in st1 n (LPackage k) = QCexternal) as Hs1.
    { eapply status_in_local; simpl; [apply lookup_insert_eq|].
      simpl. apply lookup_insert_eq. }
    exists (LSymbol s), st1. split_and!; [done|done| | |].
    + intros external'.
      rewrite (pkg_qualified_symbol_eq st1 n k external' (LSymbol s) Hf1).
      apply EQ_false in Hnu. rewrite Hnu.
      destruct (EQ (LPackage k) (Vkeyword_package st1)) eqn:E; [done|].
      unfold st1 in E. cbn [Vkeyword_package] in E. by rewrite EQ_refl in E.
    + intros _. eexists s, _, _. split_and!.
      all: try done.
      all: try (simpl; apply lookup_insert_eq).
      all: try done.
      rewrite Ffind_symbol_package, Hf1. step.
      apply EQ_false in Hnu. by rewrite Hnu, Hs1.
    + intros found. by rewrite Hfind.
  - apply EQ_false in Hne as Hne'. rewrite Hne' in Hq, Hfind.
    exists sym, st. split_and!; [done|done| | |].
    + intros external'.
      rewrite (pkg_qualified_symbol_eq st n k external' sym Hf).
      by rewrite Hkw, EQ_refl, Hne'.
    + by rewrite Hfind.
    + rewrite Hfind. by intros found [= <-].
Qed.

Lemma C6_keyword_qualified_witness :
  ∃ symbol st1,
    pkg_qualified_symbol init_pkg_once (LString "frob") (LPackage 2) true
    = Done (symbol, st1) ∧
    pkg_qualified_symbol st1 (LString "frob") (LPackage 2) true = Done (symbol, st1).
Proof.
  destruct (C6_keyword_qualified init_pkg_once "frob" 2 true {[2%positive]})
    as (symbol & st1 & H1 & _ & H2 & _).
  - reflexivity.
  - apply (bool_decide_unpack _). by vm_compute.
  - apply (bool_decide_unpack _). by vm_compute.
  - exists symbol, st1. split; [exact H1|apply H2].
Defined.

(** ** C7 *)

(** C7 (as amended): for a package P other than the keyword package,
    qualified resolution signals UnboundInPackage when the lookup finds
    nothing; signals NotExternal when external-only resolution is asked
    for and the name has a local entry in P with status [:internal]; and
    returns the symbol found, leaving the state as it is, in every other
    case.  In particular a symbol that P has no local entry for and
    inherits through its use-list is returned to an external-only request
    whatever its status [v] in the package [q] whose table holds it. *)
Theorem C7_qualified st n p external sym status :
  LPackage p ≠ Vkeyword_package st →
  lookup_symbol st n (LPackage p) true = Done (sym, status) →
  (sym = Qunbound →
     pkg_qualified_symbol st (LString n) (LPackage p) external
     = Signal UnboundInPackage) ∧
  (sym ≠ Qunbound → external = true → status = Some QCinternal →
     pkg_qualified_symbol st (LString n) (LPackage p) external
     = Signal NotExternal) ∧
  (sym ≠ Qunbound → external = false ∨ status ≠ Some QCinternal →
     pkg_qualified_symbol st (LString n) (LPackage p) external
     = Done (sym, st)) ∧
  (sym ≠ Qunbound →
     ∀ pkg, packages st !! p = Some pkg → pkg_symbols pkg !! n = None →
       status = Some QCinherited ∧
       pkg_qualified_symbol st (LString n) (LPackage p) true = Done (sym, st) ∧
       ∃ q pq v, packages st !! q = Some pq ∧ q ≠ p ∧
                 pkg_symbols pq !! n = Some (sym, v)).
Proof.
  intros Hnk Hl. apply lookup_symbol_Done in Hl as [Hf ->].
  apply EQ_false in Hnk.
  assert (∀ ext, pkg_qualified_symbol st (LString n) (LPackage p) ext
                 = if EQ sym Qunbound then Signal UnboundInPackage
                   else if ext && bool_decide
                                    (Some (status_in st n (LPackage p)) = Some QCinternal)
                        then Signal NotExternal
                        else Done (sym, st)) as Hq.
  { intros ext. rewrite (pkg_qualified_symbol_eq st n p ext sym Hf). by rewrite Hnk. }
  split_and!.
  - intros ->. by rewrite Hq, EQ_refl.
  - intros Hne%EQ_false -> [= Hs]. rewrite Hq, Hne, Hs. done.
  - intros Hne%EQ_false Hor. rewrite Hq, Hne.
    destruct Hor as [->|Hs]; [done|].
    rewrite bool_decide_eq_false_2 by done. by rewrite andb_false_r.
  - intros Hne pkg Hp Hnone.
    rewrite (status_in_not_local st n p pkg Hp Hnone) in *.
    split_and!; [done| |].
    + apply EQ_false in Hne as Hne'. by rewrite Hq, Hne'.
    + destruct (lookup_found_provenance st n _ sym Hf Hne) as (q & pq & v & Hpq & Hlq).
      exists q, pq, v. split_and!; [done| |done].
      intros ->. rewrite Hp in Hpq. injection Hpq as <-. congruence.
Qed.

Lemma C7_qualified_witness :
  pkg_qualified_symbol internal_world (LString "FOO") (LPackage 2) true
  = Signal NotExternal ∧
  pkg_qualified_symbol internal_world (LString "FOO") (LPackage 2) false
  = Done (LSymbol 4, internal_world).
Proof.
  split.
  - refine (proj1 (proj2 (C7_qualified internal_world "FOO" 2 true (LSymbol 4)
                            (Some QCinternal) _ _)) _ _ _).
    + by vm_compute.
    + vm_compute. reflexivity.
    + by vm_compute.
    + reflexivity.
    + reflexivity.
  - refine (proj1 (proj2 (proj2 (C7_qualified internal_world "FOO" 2 false (LSymbol 4)
                                   (Some QCinternal) _ _))) _ _).
    + by vm_compute.
    + vm_compute. reflexivity.
    + by vm_compute.
    + by left.
Defined.

(** C7, counterexample: "FOO" is internal in Q, P uses Q and has no
    "FOO" of its own, and the external-only qualified resolution of "FOO"
    in P succeeds all the same: success does not depend on the status at
    the defining package. *)
Lemma C7_counterexample :
  LPackage 1 ≠ Vkeyword_package internal_world ∧
  (∃ pp pq, packages internal_world !! 1%positive = Some pp ∧
            pkg_use_list pp = [LPackage 2] ∧ pkg_symbols pp !! "FOO"%string = None ∧
            packages internal_world !! 2%positive = Some pq ∧
            pkg_symbols pq !! "FOO"%string = Some (LSymbol 4, QCinternal)) ∧
  pkg_qualified_symbol internal_world (LString "FOO") (LPackage 1) true
  = Done (LSymbol 4, internal_world) ∧
  ¬ ((∃ r, pkg_qualified_symbol internal_world (LString "FOO") (LPackage 1) true
           = Done r)
     ↔ status_in internal_world "FOO" (LPackage 2) = QCexternal).
Proof.
  split_and!.
  - by vm_compute.
  - eexists _, _. split_and!; vm_compute; reflexivity.
  - vm_compute. reflexivity.
  - intros [H _]. assert (status_in internal_world "FOO" (LPackage 2) = QCexternal) as E.
    { apply H. eexists. vm_compute. reflexivity. }
    vm_compute in E. discriminate.
Qed.

(** * The SEEN list *)

(** ** C8 *)

Lemma nested_avoids seen l :
  nested seen l → Forall (λ c, call_package c ∉ seen) l.
Proof.
  induction 1 as [seen | seen u below after Hu _ _ Hbelow _ IHafter]; [done|].
  constructor; [done|]. apply Forall_app. split.
  - eapply Forall_impl; [exact Hbelow|]. intros c Hc Hin. apply Hc. by right.
  - eapply Forall_impl; [exact IHafter|]. intros c Hc Hin. apply Hc. by right.
Qed.

Lemma use_list_loop_nested rec :
  (∀ u s r l, rec u s = Done (r, l) →
     ∃ below, l = mkCall u s false :: below ∧ nested s below) →
  ∀ tail status symbol seen log r l,
    use_list_loop rec status symbol tail seen log = Done (r, l) →
    ∃ calls, l = log ++ calls ∧ nested seen calls.
Proof.
  intros Hrec tail.
  induction tail as [|u tail IH]; intros status symbol seen log r l; simpl.
  - intros [= _ <-]. exists []. rewrite app_nil_r. split; [done|constructor].
  - unfold Fmemq. case_bool_decide as Hin; [by apply IH|].
    destruct (rec u (u :: seen)) as [[[y oy] ly]| | |] eqn:E; simpl; try done.
    destruct (Hrec _ _ _ _ E) as (below & -> & Hbelow).
    pose proof (nested_avoids _ _ Hbelow) as Havoid.
    destruct (EQ y Qunbound).
    + intros Hl. apply IH in Hl as (after & -> & Hafter).
      eexists. rewrite <- app_assoc. split; [done|]. by constructor.
    + intros [= _ <-]. eexists. split; [done|].
      rewrite <- (app_nil_r below). constructor; [done..|constructor].
Qed.

Lemma lookup_symbol1_nested st name fuel :
  ∀ package seen status r l,
    lookup_symbol1 fuel st name package seen status = Done (r, l) →
    ∃ below, l = mkCall package seen status :: below ∧ nested seen below.
Proof.
  induction fuel as [|fuel IH]; intros package seen status r l; [done|].
  rewrite lookup_symbol1_S.
  destruct (XPACKAGE st package) as [pkg| | |]; try done. step.
  destruct (pkg_symbols pkg !! name) as [[symbol v]|].
  - intros [= _ <-]. exists []. split; [done|constructor].
  - intros Hl. eapply use_list_loop_nested in Hl as (calls & -> & Hcalls).
    + eauto.
    + intros u s r' l'. apply IH.
Qed.

(** C8 (as amended): in one resolution every recursive activation of the
    search is given the SEEN list its caller has at that moment, extended
    by exactly one package, the one it searches; that package was not on
    the caller's list, so a package on the SEEN list is not entered again
    by the activation holding the list or by one nested in it, and every
    SEEN list is free of duplicates.  This holds on every use-list graph,
    cyclic ones included, and bounds the depth of the recursion: the
    search never needs more nested activations than there are packages,
    plus two, it gives the same result with every larger budget, and it
    does give a result on every graph whose use-lists lead to live
    packages. *)
Theorem C8_seen_guard st name package status :
  (∀ r log,
     lookup_trace st name package status = Done (r, log) →
     ∃ rest,
       log = mkCall package [] status :: rest ∧
       nested [] rest ∧
       Forall (λ c, ∃ s, (call_seen c = call_package c :: s) ∧
                         (call_package c ∉ s) ∧ NoDup (call_seen c)) rest) ∧
  lookup_trace st name package status ≠ OutOfFuel ∧
  (∀ fuel, S (S (size (packages st))) ≤ fuel →
     lookup_symbol1 fuel st name package [] status
     = lookup_trace st name package status) ∧
  (∀ X p, closed st X → p ∈ X → package = LPackage p →
     ∃ r log, lookup_trace st name package status = Done (r, log)).
Proof.
  assert (lookup_trace st name package status ≠ OutOfFuel) as Hfuel.
  { unfold lookup_trace. apply lookup_symbol1_fuel.
    pose proof (unseen_le st []). unfold lookup_fuel. lia. }
  split_and!.
  - unfold lookup_trace. intros r log Hl.
    destruct (lookup_symbol1_nested _ _ _ _ _ _ _ _ Hl) as (below & Hlog & Hnested).
    apply lookup_symbol1_trace in Hl as (rest & -> & Hg).
    injection Hlog as <-.
    exists rest. split_and!; [done..|].
    eapply Forall_impl; [exact Hg|].
    intros c (_ & s & Hs & Hn & _ & Hd). exists s. split_and!; [done..|].
    rewrite Hs. apply NoDup_cons. split; [done|]. apply Hd, NoDup_nil_2.
  - done.
  - intros fuel Hle. unfold lookup_trace in *.
    by apply lookup_symbol1_mono.
  - intros X p Hc Hp ->. unfold lookup_trace.
    destruct (lookup_symbol1_closed st name X (lookup_fuel st) Hc p [] status Hp)
      as (sym & l & Hl & _).
    { pose proof (unseen_le st []). unfold lookup_fuel. lia. }
    eauto.
Qed.

Lemma C8_seen_guard_witness :
  (∃ rest,
     [mkCall (LPackage 1) [] true;
      mkCall (LPackage 2) [LPackage 2] false;
      mkCall (LPackage 4) [LPackage 4; LPackage 2] false;
      mkCall (LPackage 3) [LPackage 3; LPackage 2] false;
      mkCall (LPackage 4) [LPackage 4; LPackage 3; LPackage 2] false]
     = mkCall (LPackage 1) [] true :: rest ∧
     nested [] rest ∧
     Forall (λ c, ∃ s, (call_seen c = call_package c :: s) ∧
                       (call_package c ∉ s) ∧ NoDup (call_seen c)) rest) ∧
  (∃ r log, lookup_trace cyclic_world "missing" (LPackage 1) true = Done (r, log)).
Proof.
  split.
  - apply (proj1 (C8_seen_guard diamond_world "missing" (LPackage 1) true)
             (Qunbound, Some QCinherited)).
    vm_compute. reflexivity.
  - apply (proj2 (proj2 (proj2
             (C8_seen_guard cyclic_world "missing" (LPackage 1) true)))
             {[ 1%positive; 2%positive ]} 1%positive).
    + apply (bool_decide_unpack _). by vm_compute.
    + apply (bool_decide_unpack _). by vm_compute.
    + done.
Defined.

(** C8, counterexample: with A and B using each other, one lookup in A
    searches A, then B, then A again: the starting package is not on the
    SEEN list. *)
Lemma C8_counterexample :
  lookup_trace cyclic_world "missing" (LPackage 1) true
  = Done ((Qunbound, Some QCinherited),
          [mkCall (LPackage 1) [] true;
           mkCall (LPackage 2) [LPackage 2] false;
           mkCall (LPackage 1) [LPackage 1; LPackage 2] false]) ∧
  ¬ NoDup [LPackage 1; LPackage 2; LPackage 1].
Proof.
  split; [vm_compute; reflexivity|].
  intros H. apply NoDup_cons in H as [H _]. apply H. set_solver.
Qed.

(** In the diamond D is searched once below B and once more below C: what
    the activation for B adds to its SEEN list is not known to its caller. *)
Example diamond_searched_twice :
  ∃ r log,
    lookup_trace diamond_world "missing" (LPackage 1) true = Done (r, log) ∧
    call_package <$> log
    = [LPackage 1; LPackage 2; LPackage 4; LPackage 3; LPackage 4].
Proof. eexists _, _. split; vm_compute; reflexivity. Qed.

(** * The legacy entry points *)

Lemma fake_me_an_obarray_inv st vector package st1 :
  fake_me_an_obarray st vector = Done (package, st1) →
  (st1 = st ∧ PACKAGEP package = true) ∨
  (∃ p, package = LPackage p ∧ packages st !! p = None ∧
        packages st1 = <[p := mkPackage (LString "obarray") [] ∅ [] []]> (packages st) ∧
        symbol_heap st1 = symbol_heap st).
Proof.
  unfold fake_me_an_obarray.
  destruct vector as [| | | |v]; try done.
  destruct (vectors st !! v) as [elems|]; [|done].
  destruct (elems !! 0%nat) as [package0|]; [|done].
  destruct (PACKAGEP package0) eqn:Hp; simpl.
  - intros [= <- <-]. by left.
  - intros [= <- <-]. right. eexists. split_and!; [done| |done..].
    apply not_elem_of_dom, is_fresh.
Qed.

(** A package with an empty table and an empty use-list has no accessible
    symbol. *)
Lemma lookup_found_empty st n p pkg :
  packages st !! p = Some pkg → pkg_symbols pkg = ∅ → pkg_use_list pkg = [] →
  lookup_found st n (LPackage p) = Done Qunbound.
Proof.
  intros Hp Ht Hu. unfold lookup_found, lookup_trace, lookup_fuel.
  rewrite lookup_symbol1_S, (XPACKAGE_eq st p pkg Hp). step.
  by rewrite Ht, lookup_empty, Hu.
Qed.

Lemma package_or_default_PACKAGEP st package :
  PACKAGEP package = true → package_or_default st package = Done package.
Proof. by destruct package. Qed.

(** ** C9 *)

(** C9: intern-soft never makes a symbol and never writes to an existing
    package or symbol.  It looks the name up (the string given, or the
    name of the symbol given, less a leading colon when no package is
    given) in the designated package; it returns nil when nothing is
    found, and also when the argument is a symbol and the symbol found is
    not that very object; otherwise it returns the symbol found.  When
    something is found the state is returned as it was given.  The
    designated package is what the package argument resolves to as an
    optional designator or, for a vector, the package that the obarray
    shim returns for that vector, in the state that the shim leaves. *)
Theorem C9_intern_soft st name package r st' :
  pkg_emacs_intern_soft st name package = Done (r, st') →
  symbol_heap st' = symbol_heap st ∧
  (∀ q pkg, packages st !! q = Some pkg → packages st' !! q = Some pkg) ∧
  ∃ n0 n P found,
    (name = LString n0 ∨
     ∃ s sy, name = LSymbol s ∧ symbol_heap st !! s = Some sy ∧ sym_name sy = n0) ∧
    let keyword := bool_decide (SREF0 n0 = ":"%char) && NILP package in
    let package1 := if keyword then Vkeyword_package st else package in
    (if keyword then n0 = String ":" n else n = n0) ∧
    (VECTORP package1 = false →
       package_or_default st package1 = Done P ∧ st' = st) ∧
    (VECTORP package1 = true →
       fake_me_an_obarray st package1 = Done (P, st')) ∧
    lookup_symbol st' n P false = Done (found, None) ∧
    (found = Qunbound → r = Qnil) ∧
    (SYMBOLP name = true → found ≠ name → r = Qnil) ∧
    (found ≠ Qunbound → SYMBOLP name = false ∨ found = name → r = found) ∧
    (found ≠ Qunbound → st' = st).
Proof.
  unfold pkg_emacs_intern_soft. intros H. cbv zeta.
  assert (∃ n0, (name = LString n0 ∨
                 ∃ s sy, name = LSymbol s ∧ symbol_heap st !! s = Some sy ∧
                         sym_name sy = n0) ∧
                (if SYMBOLP name then n ← SYMBOL_NAME st name; Done (LString n)
                 else Done name) = Done (LString n0)) as (n0 & Hname & Hn0).
  { destruct name as [s|n0| | |]; simpl in H |- *; try done.
    - unfold SYMBOL_NAME, XSYMBOL in *.
      destruct (symbol_heap st !! s) as [sy|] eqn:Hs; [|done].
      exists (sym_name sy). split; [right; eauto|done].
    - eauto. }
  rewrite Hn0 in H. step in H. clear Hn0.
  remember (bool_decide (SREF0 n0 = ":"%char) && NILP package) as keyword eqn:Hk.
  assert (∃ n, (if keyword then n0 = String ":" n else n = n0) ∧
               (if keyword then n' ← Fsubstring1 n0; Done (n', Vkeyword_package st)
                else Done (n0, package))
               = Done (n, if keyword then Vkeyword_package st else package))
    as (n & Hn & Hkw).
  { destruct keyword; [|eauto]. symmetry in Hk.
    apply andb_true_iff in Hk as [Hc%bool_decide_eq_true _].
    destruct n0 as [|c n]; [done|]. simpl in Hc. subst c. eauto. }
  rewrite Hkw in H. step in H. clear Hkw.
  remember (if keyword then Vkeyword_package st else package) as package1 eqn:Hp1.
  destruct (VECTORP package1) eqn:Hv.
  - destruct (fake_me_an_obarray st package1) as [[package2 st1]| | |] eqn:Hfake;
      try done.
    step in H.
    pose proof (fake_me_an_obarray_inv _ _ _ _ Hfake)
      as [[-> Hpk] | (p & -> & Hnone & Hpkgs & Hheap)].
    + rewrite (package_or_default_PACKAGEP st package2 Hpk) in H. step in H.
      destruct (lookup_symbol st n package2 false) as [[found o]| | |] eqn:Hl;
        try done.
      step in H. apply lookup_symbol_Done in Hl as Hl'. destruct Hl' as [_ ->].
      assert (st' = st ∧
              r = if EQ found Qunbound then Qnil
                  else if SYMBOLP name && negb (EQ found name) then Qnil else found)
        as [-> ->].
      { destruct (EQ found Qunbound); [by injection H|].
        destruct (SYMBOLP name && negb (EQ found name)); by injection H. }
      split_and!; [done..|].
      exists n0, n, package2, found. rewrite <- Hk, <- Hp1, Hv.
      split_and!; try done.
      * intros ->. by rewrite EQ_refl.
      * intros -> Hne%EQ_false. rewrite Hne. by destruct (EQ found Qunbound).
      * intros Hne%EQ_false Hor. rewrite Hne.
        destruct Hor as [-> | <-]; [done|]. by rewrite EQ_refl, andb_false_r.
    + rewrite package_or_default_package in H. step in H.
      assert (lookup_found st1 n (LPackage p) = Done Qunbound) as Hf.
      { eapply lookup_found_empty; [rewrite Hpkgs; apply lookup_insert_eq|done..]. }
      rewrite lookup_symbol_eq, Hf in H. step in H. rewrite EQ_refl in H.
      injection H as <- <-.
      split_and!; [done| |].
      * intros q pkg Hq. rewrite Hpkgs, lookup_insert_ne; [done|]. congruence.
      * exists n0, n, (LPackage p), Qunbound. rewrite <- Hk, <- Hp1, Hv.
        split_and!; try done.
        apply lookup_symbol_Done. by split.
  - step in H.
    destruct (package_or_default st package1) as [P| | |] eqn:Hpd; try done.
    step in H.
    destruct (lookup_symbol st n P false) as [[found o]| | |] eqn:Hl; try done.
    step in H. apply lookup_symbol_Done in Hl as Hl'. destruct Hl' as [_ ->].
    assert (st' = st ∧
            r = if EQ found Qunbound then Qnil
                else if SYMBOLP name && negb (EQ found name) then Qnil else found)
      as [-> ->].
    { destruct (EQ found Qunbound); [by injection H|].
      destruct (SYMBOLP name && negb (EQ found name)); by injection H. }
    split_and!; [done..|].
    exists n0, n, P, found. rewrite <- Hk, <- Hp1, Hv.
    split_and!; try done.
    * intros ->. by rewrite EQ_refl.
    * intros -> Hne%EQ_false. rewrite Hne. by destruct (EQ found Qunbound).
    * intros Hne%EQ_false Hor. rewrite Hne.
      destruct Hor as [-> | <-]; [done|]. by rewrite EQ_refl, andb_false_r.
Qed.

Lemma C9_intern_soft_witness :
  (∃ st', pkg_emacs_intern_soft twin_world (LSymbol 5) (LPackage 1) = Done (Qnil, st') ∧
          symbol_heap st' = symbol_heap twin_world) ∧
  (∃ st', pkg_emacs_intern_soft twin_world (LSymbol 4) (LPackage 1)
          = Done (LSymbol 4, st') ∧
          symbol_heap st' = symbol_heap twin_world) ∧
  (∃ st', pkg_emacs_intern_soft twin_world (LString "y") (LPackage 1) = Done (Qnil, st') ∧
          symbol_heap st' = symbol_heap twin_world) ∧
  (∃ sym st1 P found,
     pkg_emacs_intern obarray_world (LString "x") (LVector 7) = Done (sym, st1) ∧
     pkg_emacs_intern_soft st1 (LString "x") (LVector 7) = Done (sym, st1) ∧
     fake_me_an_obarray st1 (LVector 7) = Done (P, st1) ∧
     lookup_symbol st1 "x" P false = Done (found, None)).
Proof.
  split_and!.
  - eexists. split; [vm_compute; reflexivity|].
    apply (C9_intern_soft twin_world (LSymbol 5) (LPackage 1) Qnil).
    vm_compute. reflexivity.
  - eexists. split; [vm_compute; reflexivity|].
    apply (C9_intern_soft twin_world (LSymbol 4) (LPackage 1) (LSymbol 4)).
    vm_compute. reflexivity.
  - eexists. split; [vm_compute; reflexivity|].
    apply (C9_intern_soft twin_world (LString "y") (LPackage 1) Qnil).
    vm_compute. reflexivity.
  - eexists _, _.
    match goal with |- ∃ P found, ?A ∧ _ => assert A as Hintern end.
    { vm_compute. reflexivity. }
    match goal with |- ∃ P found, _ ∧ ?B ∧ _ => assert B as Hsoft end.
    { vm_compute. reflexivity. }
    destruct (C9_intern_soft _ _ _ _ _ Hsoft)
      as (_ & _ & n0 & n & P & found & Hname & Hn & _ & Hvec & Hl & _).
    destruct Hname as [[= <-] | (s & sy & Hs & _)]; [|discriminate Hs].
    assert (n = "x"%string) as -> by exact Hn.
    exists P, found. split_and!; [done..| |done].
    exact (Hvec eq_refl).
Defined.

(** ** C10 *)

Lemma colon_prefix rest package :
  bool_decide (SREF0 (String ":" rest) = ":"%char) && NILP package = NILP package.
Proof. by rewrite bool_decide_eq_true_2. Qed.

(** C10: for a name whose first character is a colon and the package
    argument nil, the legacy intern, intern-soft and the maybe-keyword
    intern drop the colon and work on the keyword package: intern is the
    intern of the rest of the name into the keyword package, intern-soft
    the lookup of the rest of the name there.  So when the rest of the name
    is not yet accessible in the keyword package, intern returns a new
    symbol named by the rest of the name, whose home is the keyword
    package, external there, with itself as value, not writable and
    declared special, and no other package is written. *)
Theorem C10_keyword_prefix st rest k :
  Vkeyword_package st = LPackage k →
  pkg_emacs_intern st (LString (String ":" rest)) Qnil
  = ('((symbol, _), st') ← pkg_intern_symbol st (LString rest) (LPackage k) false;
     Done (symbol, st')) ∧
  pkg_intern_maybe_keyword st (LString (String ":" rest))
  = ('((symbol, _), st') ← pkg_intern_symbol st (LString rest) (LPackage k) false;
     Done (symbol, st')) ∧
  pkg_emacs_intern_soft st (LString (String ":" rest)) Qnil
  = ('(found, _) ← lookup_symbol st rest (LPackage k) false;
     Done (if EQ found Qunbound then Qnil else found, st)) ∧
  (lookup_symbol st rest (LPackage k) false = Done (Qunbound, None) →
   ∃ s st' sy pk',
     pkg_emacs_intern st (LString (String ":" rest)) Qnil = Done (LSymbol s, st') ∧
     symbol_heap st !! s = None ∧ symbol_heap st' !! s = Some sy ∧
     sym_name sy = rest ∧ sym_package sy = LPackage k ∧
     sym_redirect sy = SYMBOL_PLAINVAL ∧ sym_value sy = LSymbol s ∧
     sym_trapped_write sy = SYMBOL_NOWRITE ∧ sym_declared_special sy = true ∧
     packages st' !! k = Some pk' ∧
     pkg_symbols pk' !! rest = Some (LSymbol s, QCexternal) ∧
     (∀ q, q ≠ k → packages st' !! q = packages st !! q)).
Proof.
  intros Hkw.
  assert (pkg_emacs_intern st (LString (String ":" rest)) Qnil
          = ('((symbol, _), st') ← pkg_intern_symbol st (LString rest) (LPackage k) false;
             Done (symbol, st'))) as Hintern.
  { unfold pkg_emacs_intern. step. rewrite colon_prefix.
    unfold NILP. rewrite EQ_refl. cbn [Fsubstring1]. step. rewrite Hkw.
    cbn [VECTORP]. step. by rewrite package_or_default_package. }
  split_and!.
  - done.
  - unfold pkg_intern_maybe_keyword. step.
    rewrite bool_decide_eq_true_2 by done. cbn [Fsubstring1]. step. by rewrite Hkw.
  - unfold pkg_emacs_intern_soft. cbn [SYMBOLP]. step. rewrite colon_prefix.
    unfold NILP. rewrite EQ_refl. cbn [Fsubstring1]. step. rewrite Hkw.
    cbn [VECTORP]. step. rewrite package_or_default_package. step.
    destruct (lookup_symbol st rest (LPackage k) false) as [[found o]| | |];
      try done.
    step. by destruct (EQ found Qunbound).
  - intros Hl. apply lookup_symbol_Done in Hl as [Hf _].
    destruct (lookup_found_is_package _ _ _ _ Hf) as (k' & pk & [= <-] & Hpk).
    pose proof (pkg_intern_symbol_new st rest k pk false Hpk Hf) as Hi.
    cbv zeta in Hi. rewrite Hkw, EQ_refl in Hi.
    rewrite Hintern, Hi. step.
    destruct (new_symbol_fresh st) as (Hnone & _ & _).
    eexists _, _, _, _. split_and!.
    all: try done.
    all: try (simpl; apply lookup_insert_eq).
    all: try done.
    intros q Hq. simpl. by apply lookup_insert_ne.
Qed.

Lemma C10_keyword_prefix_witness :
  ∃ s st',
    pkg_emacs_intern init_pkg_once (LString ":foo") Qnil = Done (LSymbol s, st') ∧
    (∃ pk', packages st' !! 2%positive = Some pk' ∧
            pkg_symbols pk' !! "foo"%string = Some (LSymbol s, QCexternal)) ∧
    packages st' !! 1%positive = packages init_pkg_once !! 1%positive.
Proof.
  destruct (proj2 (proj2 (proj2 (C10_keyword_prefix init_pkg_once "foo" 2 eq_refl))))
    as (s & st' & sy & pk' & H & _ & _ & _ & _ & _ & _ & _ & _ & Hp & Hl & Hother).
  - vm_compute. reflexivity.
  - exists s, st'. split_and!; [exact H|eauto|by apply Hother].
Defined.

(** * The other entry points, on the initial state *)

Example unqualified_symbol_interns :
  ∃ st', pkg_unqualified_symbol init_pkg_once (LString "car") = Done (LSymbol 4, st') ∧
         Ffind_symbol st' (LString "car") Qnil
         = Done (Some (LSymbol 4, Some QCinternal)) ∧
         pkg_keywordp st' (LSymbol 4) = Done false.
Proof. eexists. split_and!; vm_compute; reflexivity. Qed.

Example designator_by_nickname :
  package_from_designator init_pkg_once (LString "") = Done (LPackage 2) ∧
  package_from_designator init_pkg_once (LString "emacs") = Done (LPackage 1) ∧
  package_from_designator init_pkg_once (LString "cl") = Signal Not_a_package ∧
  package_from_designator init_pkg_once (LFixnum (-1)) = Signal Not_a_string_designator.
Proof. split_and!; vm_compute; reflexivity. Qed.

Example define_then_unintern :
  ∃ st1 st2,
    pkg_define_symbol init_pkg_once Qt (LPackage 1) = Done (Qt, st1) ∧
    SYMBOL_PACKAGE st1 Qt = Done (LPackage 1) ∧
    pkg_emacs_unintern st1 Qt Qnil = Done (Qt, st2) ∧
    SYMBOL_PACKAGE st2 Qt = Done Qnil ∧
    Ffind_symbol st2 (LString "t") Qnil = Done None.
Proof.
  eexists _, _. split; [vm_compute; reflexivity|].
  split; [vm_compute; reflexivity|].
  split; [vm_compute; reflexivity|].
  split; vm_compute; reflexivity.
Qed.

(** * Package designators *)

Lemma check_package_Done package p :
  check_package package = Done p → p = package ∧ PACKAGEP p = true.
Proof.
  unfold check_package. destruct (PACKAGEP package) eqn:E; [|done].
  by intros [= <-].
Qed.

Lemma package_from_designator_PACKAGEP st d p :
  package_from_designator st d = Done p → PACKAGEP p = true.
Proof.
  unfold package_from_designator. destruct (PACKAGEP d) eqn:E.
  - by intros [= <-].
  - destruct (string_from_designator st d) as [name| | |]; try done. step.
    destruct (pkg_find_package st name) as [package| | |]; try done. step.
    by intros [_ ?]%check_package_Done.
Qed.

Lemma package_or_default_Done st d p :
  package_or_default st d = Done p → PACKAGEP p = true.
Proof.
  unfold package_or_default. destruct (NILP d).
  - by intros [_ ?]%check_package_Done.
  - apply package_from_designator_PACKAGEP.
Qed.

(** X1.  Whatever a designator resolves to is a package object, and a package
    object designates itself: resolving the result again, as a designator
    or as an optional designator, gives it back. *)
Theorem designator_resolves_to_package st d p :
  package_or_default st d = Done p ∨ package_from_designator st d = Done p →
  PACKAGEP p = true ∧ p ≠ Qnil ∧
  package_from_designator st p = Done p ∧
  package_or_default st p = Done p ∧
  check_package p = Done p.
Proof.
  intros H.
  assert (PACKAGEP p = true) as Hp.
  { destruct H; [by eapply package_or_default_Done
                |by eapply package_from_designator_PACKAGEP]. }
  destruct p; try done.
Qed.

Lemma designator_resolves_to_package_witness :
  PACKAGEP (LPackage 2) = true ∧ LPackage 2 ≠ Qnil ∧
  package_from_designator init_pkg_once (LPackage 2) = Done (LPackage 2) ∧
  package_or_default init_pkg_once (LPackage 2) = Done (LPackage 2) ∧
  check_package (LPackage 2) = Done (LPackage 2).
Proof.
  apply (designator_resolves_to_package init_pkg_once (LString "keyword")).
  right. vm_compute. reflexivity.
Defined.

(** X2.  What a designator resolves to, case by case: a package object is
    itself; a string is looked up in the registry as it is, and signals
    "Not a package" when the registry has nothing, or something that is
    not a package, under it; a symbol stands for the string that is its
    name and a character, that is a fixnum from 0 to MAX_CHAR, for the
    string of that one character; any other fixnum and a vector signal
    "Not a string designator".  Nil as an optional designator is the value
    of *package*, which must be a package. *)
Theorem designator_cases st :
  (∀ p, package_from_designator st (LPackage p) = Done (LPackage p)) ∧
  (∀ n, package_from_designator st (LString n)
        = match Vpackage_registry st !! n with
          | Some (LPackage p) => Done (LPackage p)
          | _ => Signal Not_a_package
          end) ∧
  (∀ s sy, symbol_heap st !! s = Some sy →
           package_from_designator st (LSymbol s)
           = package_from_designator st (LString (sym_name sy))) ∧
  (∀ c, (0 ≤ c ≤ MAX_CHAR)%Z →
        package_from_designator st (LFixnum c)
        = package_from_designator st (LString (CHAR_STRING c))) ∧
  (∀ z, ¬ (0 ≤ z ≤ MAX_CHAR)%Z →
        package_from_designator st (LFixnum z) = Signal Not_a_string_designator) ∧
  (∀ v, package_from_designator st (LVector v) = Signal Not_a_string_designator) ∧
  package_or_default st Qnil
  = (if PACKAGEP (Vearmuffs_package st) then Done (Vearmuffs_package st)
     else Signal Not_a_package) ∧
  (∀ d, d ≠ Qnil → package_or_default st d = package_from_designator st d).
Proof.
  split_and!.
  - done.
  - intros n. unfold package_from_designator, string_from_designator.
    cbn [PACKAGEP SYMBOLP STRINGP]. step. unfold pkg_find_package. step.
    destruct (Vpackage_registry st !! n) as [[]|]; done.
  - intros s sy Hs.
    unfold package_from_designator, string_from_designator, SYMBOL_NAME, XSYMBOL.
    cbn [PACKAGEP SYMBOLP STRINGP]. rewrite Hs. done.
  - intros c Hc.
    unfold package_from_designator, string_from_designator, Fchar_to_string.
    cbn [PACKAGEP SYMBOLP STRINGP CHARACTERP].
    by rewrite bool_decide_eq_true_2.
  - intros z Hz.
    unfold package_from_designator, string_from_designator.
    cbn [PACKAGEP SYMBOLP STRINGP CHARACTERP].
    by rewrite bool_decide_eq_false_2.
  - done.
  - done.
  - intros d Hd. unfold package_or_default.
    apply EQ_false in Hd. unfold NILP. by rewrite Hd.
Qed.

Lemma designator_cases_witness :
  package_from_designator init_pkg_once Qt
  = package_from_designator init_pkg_once (LString "t") ∧
  package_from_designator init_pkg_once (LFixnum 955)
  = package_from_designator init_pkg_once (LString (CHAR_STRING 955)).
Proof.
  split.
  - refine (proj1 (proj2 (proj2 (designator_cases init_pkg_once))) 2%positive
              (mkSymbol "t" Qnil SYMBOL_PLAINVAL Qunbound SYMBOL_UNTRAPPED_WRITE false)
              _).
    vm_compute. reflexivity.
  - refine (proj1 (proj2 (proj2 (proj2 (designator_cases init_pkg_once)))) 955%Z _).
    unfold MAX_CHAR. lia.
Defined.

(** * What a lookup depends on *)

Lemma use_list_loop_agree (P : Lisp_Object → Prop) rec rec2 :
  (∀ u s, P u → rec u s = rec2 u s) →
  ∀ tail status symbol seen log,
    Forall P tail →
    use_list_loop rec status symbol tail seen log
    = use_list_loop rec2 status symbol tail seen log.
Proof.
  intros Hrec tail.
  induction tail as [|u tail IH]; intros status symbol seen log Hall; [done|].
  apply Forall_cons in Hall as [Hu Hall]. simpl.
  destruct (Fmemq u seen); [by apply IH|]. rewrite (Hrec u _ Hu).
  destruct (rec2 u (u :: seen)) as [[[y o] l]| | |]; simpl; try done.
  destruct (EQ y Qunbound); [by apply IH|done].
Qed.

(** The search for [name] reads the use-lists and the entries for [name],
    nothing else: states that agree on them at every address give the same
    search, activation by activation. *)
Lemma lookup_symbol1_agree_all name st st2 fuel :
  (∀ p, agree_at name st st2 p) →
  ∀ package seen status,
    lookup_symbol1 fuel st name package seen status
    = lookup_symbol1 fuel st2 name package seen status.
Proof.
  intros Hag. induction fuel as [|fuel IH]; intros package seen status; [done|].
  rewrite !lookup_symbol1_S. destruct package as [| | |p|]; try done.
  specialize (Hag p). unfold agree_at in Hag. unfold XPACKAGE.
  destruct (packages st !! p) as [pkg|], (packages st2 !! p) as [pkg2|]; try done.
  destruct Hag as [Hu Hs]. step. rewrite Hs, Hu.
  destruct (pkg_symbols pkg !! name) as [[symbol v]|]; [done|].
  apply (use_list_loop_agree (λ _, True)); [|by apply Forall_true].
  intros u s _. apply IH.
Qed.

(** The same for a closed set of packages: states that agree at the
    addresses of the set give the same search from the packages of the
    set, whatever else the second state holds. *)
Lemma lookup_symbol1_agree_closed name X st st2 fuel :
  closed st X → (∀ p, p ∈ X → agree_at name st st2 p) →
  ∀ p seen status,
    p ∈ X →
    lookup_symbol1 fuel st name (LPackage p) seen status
    = lookup_symbol1 fuel st2 name (LPackage p) seen status.
Proof.
  intros Hc Hag. induction fuel as [|fuel IH]; intros p seen status Hp; [done|].
  rewrite !lookup_symbol1_S.
  destruct (closed_lookup st X p Hc Hp) as (pkg & Hpk & Hall).
  specialize (Hag p Hp) as Hagp. unfold agree_at in Hagp. unfold XPACKAGE.
  rewrite Hpk in Hagp |- *.
  destruct (packages st2 !! p) as [pkg2|]; [|done].
  destruct Hagp as [Hu Hs]. step. rewrite Hs, Hu.
  destruct (pkg_symbols pkg !! name) as [[symbol v]|]; [done|].
  apply (use_list_loop_agree (in_set X)); [|done].
  intros u seen' Hq. destruct u as [| | |q|]; try done. by apply IH.
Qed.

(** From equal searches at every budget to equal lookups: the budgets of
    the two states may differ, each is enough. *)
Lemma lookup_trace_agree name st st2 package status :
  (∀ fuel, lookup_symbol1 fuel st name package [] status
           = lookup_symbol1 fuel st2 name package [] status) →
  lookup_trace st name package status = lookup_trace st2 name package status.
Proof.
  intros Heq. unfold lookup_trace. rewrite <- Heq.
  assert (lookup_symbol1 (lookup_fuel st) st name package [] status ≠ OutOfFuel) as H1.
  { apply lookup_symbol1_fuel. pose proof (unseen_le st []). unfold lookup_fuel. lia. }
  assert (lookup_symbol1 (lookup_fuel st2) st name package [] status ≠ OutOfFuel) as H2.
  { rewrite Heq. apply lookup_symbol1_fuel. pose proof (unseen_le st2 []).
    unfold lookup_fuel. lia. }
  destruct (Nat.le_ge_cases (lookup_fuel st) (lookup_fuel st2)) as [Hle|Hle].
  - symmetry. by apply lookup_symbol1_mono.
  - by apply lookup_symbol1_mono.
Qed.

Lemma lookup_symbol_agree_all name st st2 package status :
  (∀ p, agree_at name st st2 p) →
  lookup_symbol st name package status = lookup_symbol st2 name package status.
Proof.
  intros Hag. unfold lookup_symbol. rewrite (lookup_trace_agree name st st2); [done|].
  intros fuel. by apply lookup_symbol1_agree_all.
Qed.

Lemma lookup_symbol_agree_closed name X st st2 p status :
  closed st X → (∀ q, q ∈ X → agree_at name st st2 q) → p ∈ X →
  lookup_symbol st name (LPackage p) status
  = lookup_symbol st2 name (LPackage p) status.
Proof.
  intros Hc Hag Hp. unfold lookup_symbol.
  rewrite (lookup_trace_agree name st st2); [done|].
  intros fuel. by apply (lookup_symbol1_agree_closed name X).
Qed.

(** * What intern writes *)

(** The two ways [pkg_intern_symbol] can end. *)
Lemma pkg_intern_symbol_cases st n package status sym o st1 :
  pkg_intern_symbol st (LString n) package status = Done ((sym, o), st1) →
  (st1 = st ∧ lookup_found st n package = Done sym ∧ sym ≠ Qunbound) ∨
  (∃ p pkg,
     package = LPackage p ∧ packages st !! p = Some pkg ∧
     lookup_found st n package = Done Qunbound ∧
     let s := fresh (builtin_symbols ∪ dom (symbol_heap st)) in
     let kw := EQ (LPackage p) (Vkeyword_package st) in
     let v := if kw then QCexternal else QCinternal in
     sym = LSymbol s ∧ o = put_status status v ∧
     st1 = mkState
             (<[p := set_pkg_symbols (<[n := (LSymbol s, v)]> (pkg_symbols pkg)) pkg]>
                (packages st))
             (<[s := mkSymbol n (LPackage p) SYMBOL_PLAINVAL
                      (if kw then LSymbol s else Qunbound)
                      (if kw then SYMBOL_NOWRITE else SYMBOL_UNTRAPPED_WRITE)
                      kw]> (symbol_heap st))
             (vectors st) (Vpackage_registry st)
             (Vearmuffs_package st) (Vkeyword_package st)).
Proof.
  intros Hi.
  destruct (lookup_found st n package) as [sym0| | |] eqn:Hf;
    try (unfold pkg_intern_symbol, pkg_intern_symbol1 in Hi; step in Hi;
         rewrite lookup_symbol_eq, Hf in Hi; done).
  destruct (decide (sym0 = Qunbound)) as [->|Hne].
  - right. destruct (lookup_found_is_package _ _ _ _ Hf) as (p & pkg & -> & Hp).
    rewrite (pkg_intern_symbol_new st n p pkg status Hp Hf) in Hi.
    injection Hi as <- <- <-. eauto 10.
  - left. unfold pkg_intern_symbol in Hi.
    rewrite (pkg_intern_symbol1_found st n package status Qunbound sym0 Hf Hne) in Hi.
    by injection Hi as <- <- <-.
Qed.

Lemma pkg_intern_symbol_untouched st n package status r st1 :
  pkg_intern_symbol st (LString n) package status = Done (r, st1) →
  (∀ m Q s, m ≠ n → lookup_symbol st1 m Q s = lookup_symbol st m Q s) ∧
  (∀ s sy, symbol_heap st !! s = Some sy → symbol_heap st1 !! s = Some sy) ∧
  vectors st1 = vectors st ∧
  Vpackage_registry st1 = Vpackage_registry st ∧
  Vearmuffs_package st1 = Vearmuffs_package st ∧
  Vkeyword_package st1 = Vkeyword_package st.
Proof.
  destruct r as [sym o]. intros Hi.
  destruct (pkg_intern_symbol_cases _ _ _ _ _ _ _ Hi)
    as [(-> & _) | (p & pkg & -> & Hp & Hf & Hrest)]; [done|].
  cbv zeta in Hrest. destruct Hrest as (-> & -> & ->).
  destruct (new_symbol_fresh st) as (Hnone & _).
  split_and!; try done.
  - intros m Q s Hm. symmetry. apply lookup_symbol_agree_all.
    intros q. unfold agree_at. simpl.
    destruct (decide (q = p)) as [->|Hq].
    + rewrite lookup_insert_eq, Hp. simpl. split; [done|].
      by apply lookup_insert_ne.
    + rewrite lookup_insert_ne by done. by destruct (packages st !! q).
  - intros s sy Hs. simpl. rewrite lookup_insert_ne; [done|]. congruence.
Qed.


(** X3.  Intern of a name leaves the lookup of every other name as it was, in
    every package; it writes to no symbol that existed, and to none of
    the registry, the vectors, *package* and the keyword-package
    variable. *)
Theorem intern_frame st n package status r st1 :
  pkg_intern_symbol st (LString n) package status = Done (r, st1) →
  (∀ m Q s, m ≠ n → lookup_symbol st1 m Q s = lookup_symbol st m Q s) ∧
  (∀ s sy, symbol_heap st !! s = Some sy → symbol_heap st1 !! s = Some sy) ∧
  vectors st1 = vectors st ∧
  Vpackage_registry st1 = Vpackage_registry st ∧
  Vearmuffs_package st1 = Vearmuffs_package st ∧
  Vkeyword_package st1 = Vkeyword_package st.
Proof. apply pkg_intern_symbol_untouched. Qed.

Lemma intern_frame_witness :
  ∃ r st1,
    pkg_intern_symbol twin_world (LString "y") (LPackage 1) true = Done (r, st1) ∧
    lookup_symbol st1 "x" (LPackage 1) true = lookup_symbol twin_world "x" (LPackage 1) true.
Proof.
  eexists _, _. split; [vm_compute; reflexivity|].
  refine (proj1 (intern_frame twin_world "y" (LPackage 1) true _ _ _) "x"%string
            (LPackage 1) true _).
  - vm_compute. reflexivity.
  - done.
Defined.

(** * The Lisp functions *)

Lemma package_or_default_preserved st st1 d P :
  Vpackage_registry st1 = Vpackage_registry st →
  Vearmuffs_package st1 = Vearmuffs_package st →
  (∀ s sy, symbol_heap st !! s = Some sy →
           ∃ sy1, symbol_heap st1 !! s = Some sy1 ∧ sym_name sy1 = sym_name sy) →
  package_or_default st d = Done P → package_or_default st1 d = Done P.
Proof.
  intros Hreg Hcur Hnames. unfold package_or_default. rewrite Hcur.
  destruct (NILP d); [done|].
  unfold package_from_designator. destruct (PACKAGEP d); [done|].
  assert (∀ x, string_from_designator st d = Done x →
               string_from_designator st1 d = Done x) as Hstr.
  { intros x. unfold string_from_designator, SYMBOL_NAME, XSYMBOL.
    destruct d as [s| | | |]; cbn [SYMBOLP STRINGP]; try done.
    destruct (symbol_heap st !! s) as [sy|] eqn:Hs; [|done].
    destruct (Hnames s sy Hs) as (sy1 & -> & Hn). step. by rewrite Hn. }
  destruct (string_from_designator st d) as [x| | |]; try done.
  rewrite (Hstr x eq_refl). step.
  unfold pkg_find_package. by rewrite Hreg.
Qed.

(** X4.  cl-intern and find-symbol: what cl-intern returns is what find-symbol
    returns afterwards for the same name and package designator, symbol
    and status alike; the status is never nil; and a second cl-intern
    returns the same again and leaves the state as it is. *)
Theorem cl_intern_find_symbol st name package sym status st1 :
  Fcl_intern st name package = Done ((sym, status), st1) →
  Ffind_symbol st1 name package = Done (Some (sym, status)) ∧
  (∃ v, status = Some v) ∧ sym ≠ Qunbound ∧
  Fcl_intern st1 name package = Done ((sym, status), st1).
Proof.
  unfold Fcl_intern. destruct name as [|n| | |]; try done. step.
  destruct (package_or_default st package) as [P| | |] eqn:Hpd; try done. step.
  intros Hi.
  destruct (pkg_intern_symbol_accessible _ _ _ _ _ _ _ Hi) as (Hf & Hne & ->).
  destruct (pkg_intern_symbol_untouched _ _ _ _ _ _ Hi)
    as (_ & Hheap & _ & Hreg & Hcur & _).
  assert (package_or_default st1 package = Done P) as Hpd1.
  { apply (package_or_default_preserved st); try done.
    intros s sy Hs. exists sy. split; [by apply Hheap|done]. }
  split_and!; [|by eexists|done|].
  - unfold Ffind_symbol. step. rewrite Hpd1. step.
    rewrite lookup_symbol_eq, Hf. step.
    apply EQ_false in Hne. by rewrite Hne.
  - rewrite Hpd1. step. by apply pkg_intern_symbol1_found.
Qed.

Lemma cl_intern_find_symbol_witness :
  ∃ sym st1,
    Fcl_intern init_pkg_once (LString "car") Qnil = Done ((sym, Some QCinternal), st1) ∧
    Ffind_symbol st1 (LString "car") Qnil = Done (Some (sym, Some QCinternal)).
Proof.
  eexists _, _. split; [vm_compute; reflexivity|].
  refine (proj1 (cl_intern_find_symbol init_pkg_once (LString "car") Qnil _ _ _ _)).
  vm_compute. reflexivity.
Defined.

(** * Intern and unintern together *)

(** X5.  Unintern undoes intern: when the name has no entry in the package
    and is not inherited, interning it and then uninterning the symbol
    returned gives back the package's symbol table and use-list, deletes
    nothing from the shadowing list but that symbol, leaves every other
    package alone, and leaves every lookup, of any name in any package,
    as it was before the intern.  The symbol stays in the heap, with its
    name and without a home package. *)
Theorem intern_then_unintern st n p pkg status o :
  packages st !! p = Some pkg → pkg_symbols pkg !! n = None →
  lookup_symbol st n (LPackage p) status = Done (Qunbound, o) →
  ∃ s o1 st1 st2 pkg2 sy2,
    pkg_intern_symbol st (LString n) (LPackage p) status = Done ((LSymbol s, o1), st1) ∧
    pkg_unintern_symbol st1 (LSymbol s) (LPackage p) = Done (Qt, st2) ∧
    packages st2 !! p = Some pkg2 ∧
    pkg_symbols pkg2 = pkg_symbols pkg ∧ pkg_use_list pkg2 = pkg_use_list pkg ∧
    pkg_shadowing_symbols pkg2 = Fdelq (LSymbol s) (pkg_shadowing_symbols pkg) ∧
    (∀ q, q ≠ p → packages st2 !! q = packages st !! q) ∧
    symbol_heap st2 !! s = Some sy2 ∧ sym_name sy2 = n ∧ sym_package sy2 = Qnil ∧
    (∀ m Q s', lookup_symbol st2 m Q s' = lookup_symbol st m Q s').
Proof.
  intros Hp Hnone Hl. apply lookup_symbol_Done in Hl as [Hf _].
  pose proof (pkg_intern_symbol_new st n p pkg status Hp Hf) as Hi.
  destruct (new_symbol_fresh st) as (Hfresh & Hnu & _).
  cbv zeta in Hi.
  set (s := fresh (builtin_symbols ∪ dom (symbol_heap st))) in *.
  set (kw := EQ (LPackage p) (Vkeyword_package st)) in *.
  set (v := if kw then QCexternal else QCinternal) in *.
  match type of Hi with _ = Done (_, ?x) => set (st1 := x) in * end.
  assert (v ≠ QCinherited) as Hv by (unfold v; by destruct kw).
  pose (pkg1 := set_pkg_symbols (<[n := (LSymbol s, v)]> (pkg_symbols pkg)) pkg).
  pose (sy1 := mkSymbol n (LPackage p) SYMBOL_PLAINVAL
                 (if kw then LSymbol s else Qunbound)
                 (if kw then SYMBOL_NOWRITE else SYMBOL_UNTRAPPED_WRITE) kw).
  assert (packages st1 !! p = Some pkg1) as Hp1 by apply lookup_insert_eq.
  assert (symbol_heap st1 !! s = Some sy1) as Hs1 by apply lookup_insert_eq.
  assert (pkg_symbols pkg1 !! n = Some (LSymbol s, v)) as Hl1 by apply lookup_insert_eq.
  pose proof (lookup_found_local st1 n p pkg1 (LSymbol s) v Hp1 Hl1) as Hf1.
  pose proof (pkg_unintern_symbol_eq st1 s sy1 (LPackage p) p pkg1 (LSymbol s)
                Hs1 eq_refl Hp1 Hf1) as Hu.
  cbv zeta in Hu. cbn [sym_name sym_package sy1] in Hu.
  rewrite (status_in_local st1 n p pkg1 (LSymbol s) v Hp1 Hl1) in Hu.
  apply EQ_false in Hnu as Hnu'.
  rewrite Hnu', (bool_decide_eq_false_2 (Some v = Some QCinherited)) in Hu
    by congruence.
  cbn [negb andb] in Hu. rewrite EQ_refl in Hu.
  eexists s, _, st1, _, _, _. split; [exact Hi|]. split; [exact Hu|].
  cbn [packages symbol_heap st1].
  rewrite !insert_insert_eq. rewrite !lookup_insert_eq.
  split_and!; try done.
  - cbn. rewrite delete_insert_eq. by apply delete_id.
  - intros q Hq. by rewrite lookup_insert_ne.
  - intros m Q s'. apply lookup_symbol_agree_all. intros q.
    unfold agree_at. cbn [packages].
    destruct (decide (q = p)) as [->|Hq].
    + rewrite lookup_insert_eq, Hp. cbn. rewrite delete_insert_eq.
      by rewrite delete_id.
    + rewrite lookup_insert_ne by done. by destruct (packages st !! q).
Qed.

Lemma intern_then_unintern_witness :
  ∃ s o1 st1 st2,
    pkg_intern_symbol twin_world (LString "y") (LPackage 1) true
    = Done ((LSymbol s, o1), st1) ∧
    pkg_unintern_symbol st1 (LSymbol s) (LPackage 1) = Done (Qt, st2) ∧
    lookup_symbol st2 "y" (LPackage 1) true = lookup_symbol twin_world "y" (LPackage 1) true.
Proof.
  destruct (intern_then_unintern twin_world "y" 1
              (package_with "A" {[ "x"%string := (LSymbol 4, QCinternal) ]} [])
              true (Some QCinherited))
    as (s & o1 & st1 & st2 & pkg2 & sy2 & Hi & Hu & _ & _ & _ & _ & _ & _ & _ & _ & Hl).
  - vm_compute. reflexivity.
  - vm_compute. reflexivity.
  - vm_compute. reflexivity.
  - exists s, o1, st1, st2. split_and!; [exact Hi|exact Hu|apply Hl].
Defined.

(** X6.  Unintern goes by the name, not by the object: when the package's own
    entry for the name of the argument is another symbol S, that entry is
    deleted all the same and [Qt] returned, while S itself is not written
    to: it keeps its home package, of which it is no longer a symbol. *)
Theorem unintern_goes_by_name st s s' sy sy' p pkg v :
  s ≠ s' →
  symbol_heap st !! s = Some sy → symbol_heap st !! s' = Some sy' →
  sym_name sy' = sym_name sy →
  packages st !! p = Some pkg →
  pkg_symbols pkg !! sym_name sy = Some (LSymbol s, v) →
  v ≠ QCinherited → LSymbol s ≠ Qunbound →
  ∃ st' pkg',
    pkg_unintern_symbol st (LSymbol s') (LPackage p) = Done (Qt, st') ∧
    packages st' !! p = Some pkg' ∧ pkg_symbols pkg' !! sym_name sy = None ∧
    pkg_shadowing_symbols pkg' = Fdelq (LSymbol s') (pkg_shadowing_symbols pkg) ∧
    symbol_heap st' !! s = Some sy.
Proof.
  intros Hne Hs Hs' Hn Hp Hl Hv Hnu.
  rewrite <- Hn in Hl.
  pose proof (lookup_found_local st (sym_name sy') p pkg (LSymbol s) v Hp Hl) as Hf.
  pose proof (pkg_unintern_symbol_eq st s' sy' (LPackage p) p pkg (LSymbol s)
                Hs' eq_refl Hp Hf) as Hu.
  cbv zeta in Hu.
  rewrite (status_in_local st (sym_name sy') p pkg (LSymbol s) v Hp Hl) in Hu.
  apply EQ_false in Hnu.
  rewrite Hnu, (bool_decide_eq_false_2 (Some v = Some QCinherited)) in Hu
    by congruence.
  cbn [negb andb] in Hu.
  eexists _, _. split; [exact Hu|]. cbn [packages symbol_heap].
  rewrite lookup_insert_eq. split_and!; try done.
  - cbn. rewrite <- Hn. apply lookup_delete_eq.
  - destruct (EQ (LPackage p) (sym_package sy')); [|done].
    by rewrite lookup_insert_ne.
Qed.

Lemma unintern_goes_by_name_witness :
  ∃ st' pkg',
    pkg_unintern_symbol twin_world (LSymbol 5) (LPackage 1) = Done (Qt, st') ∧
    packages st' !! 1%positive = Some pkg' ∧ pkg_symbols pkg' !! "x"%string = None ∧
    SYMBOL_PACKAGE st' (LSymbol 4) = Done (LPackage 1).
Proof.
  destruct (unintern_goes_by_name twin_world 4 5
              (mkSymbol "x" (LPackage 1) SYMBOL_PLAINVAL Qunbound
                        SYMBOL_UNTRAPPED_WRITE false)
              (mkSymbol "x" Qnil SYMBOL_PLAINVAL Qunbound SYMBOL_UNTRAPPED_WRITE false)
              1 (package_with "A" {[ "x"%string := (LSymbol 4, QCinternal) ]} [])
              QCinternal)
    as (st' & pkg' & Hu & Hp & Hnone & _ & Hs); try done.
  exists st', pkg'. split_and!; try done.
  unfold SYMBOL_PACKAGE, XSYMBOL. by rewrite Hs.
Defined.

(** X7.  The legacy unintern takes a symbol only: a name that is not a symbol
    signals a wrong-type error once the package is resolved.  For a symbol
    and an obarray argument that is not a vector it is cl-unintern. *)
Theorem emacs_unintern_cases st name package :
  (∀ P, SYMBOLP name = false → VECTORP package = false →
        package_or_default st package = Done P →
        pkg_emacs_unintern st name package = Signal wrong_type_argument) ∧
  (SYMBOLP name = true → VECTORP package = false →
   pkg_emacs_unintern st name package = pkg_unintern_symbol st name package).
Proof.
  split.
  - intros P Hs Hv Hpd. unfold pkg_emacs_unintern. rewrite Hv. step.
    rewrite Hpd. step. unfold pkg_unintern_symbol, CHECK_SYMBOL. by rewrite Hs.
  - intros Hs Hv. unfold pkg_emacs_unintern. rewrite Hv. step.
    unfold pkg_unintern_symbol, CHECK_SYMBOL. rewrite Hs. step.
    destruct (package_or_default st package) as [P| | |] eqn:Hpd; try done. step.
    apply package_or_default_Done in Hpd.
    by rewrite (package_or_default_PACKAGEP st P Hpd).
Qed.

Lemma emacs_unintern_cases_witness :
  pkg_emacs_unintern twin_world (LString "x") Qnil = Signal wrong_type_argument ∧
  pkg_emacs_unintern twin_world (LSymbol 4) Qnil
  = pkg_unintern_symbol twin_world (LSymbol 4) Qnil.
Proof.
  split.
  - by apply (proj1 (emacs_unintern_cases twin_world (LString "x") Qnil) (LPackage 1)).
  - by apply (proj2 (emacs_unintern_cases twin_world (LSymbol 4) Qnil)).
Defined.

(** X8.  A symbol is a keyword by its home package alone.  A name new to the
    keyword package becomes a keyword when interned there; uninterning it
    from the keyword package makes it cease to be one, although it still
    has itself as value, cannot be written and is declared special. *)
Theorem keyword_by_home_package st n k o :
  Vkeyword_package st = LPackage k →
  lookup_symbol st n (LPackage k) false = Done (Qunbound, o) →
  ∃ s st1 st2 sy2,
    pkg_intern_symbol st (LString n) (LPackage k) false = Done ((LSymbol s, None), st1) ∧
    pkg_keywordp st1 (LSymbol s) = Done true ∧
    pkg_unintern_symbol st1 (LSymbol s) (LPackage k) = Done (Qt, st2) ∧
    pkg_keywordp st2 (LSymbol s) = Done false ∧
    symbol_heap st2 !! s = Some sy2 ∧
    sym_value sy2 = LSymbol s ∧ sym_trapped_write sy2 = SYMBOL_NOWRITE ∧
    sym_declared_special sy2 = true.
Proof.
  intros Hkw Hl. apply lookup_symbol_Done in Hl as [Hf _].
  destruct (lookup_found_is_package _ _ _ _ Hf) as (k' & pk & [= <-] & Hpk).
  pose proof (pkg_intern_symbol_new st n k pk false Hpk Hf) as Hi.
  destruct (new_symbol_fresh st) as (Hfresh & Hnu & _).
  cbv zeta in Hi. rewrite Hkw, EQ_refl in Hi.
  set (s := fresh (builtin_symbols ∪ dom (symbol_heap st))) in *.
  match type of Hi with _ = Done (_, ?x) => set (st1 := x) in * end.
  pose (pk1 := set_pkg_symbols (<[n := (LSymbol s, QCexternal)]> (pkg_symbols pk)) pk).
  pose (sy1 := mkSymbol n (LPackage k) SYMBOL_PLAINVAL (LSymbol s) SYMBOL_NOWRITE true).
  assert (packages st1 !! k = Some pk1) as Hp1 by apply lookup_insert_eq.
  assert (symbol_heap st1 !! s = Some sy1) as Hs1 by apply lookup_insert_eq.
  assert (pkg_symbols pk1 !! n = Some (LSymbol s, QCexternal)) as Hl1
    by apply lookup_insert_eq.
  pose proof (lookup_found_local st1 n k pk1 (LSymbol s) _ Hp1 Hl1) as Hf1.
  pose proof (pkg_unintern_symbol_eq st1 s sy1 (LPackage k) k pk1 (LSymbol s)
                Hs1 eq_refl Hp1 Hf1) as Hu.
  cbv zeta in Hu. cbn [sym_name sym_package sy1] in Hu.
  rewrite (status_in_local st1 n k pk1 (LSymbol s) _ Hp1 Hl1) in Hu.
  apply EQ_false in Hnu as Hnu'. rewrite Hnu', EQ_refl in Hu.
  rewrite (bool_decide_eq_false_2 (Some QCexternal = Some QCinherited)) in Hu by done.
  cbn [negb andb] in Hu.
  eexists s, st1, _, _. split; [exact Hi|]. split_and!.
  - unfold pkg_keywordp, SYMBOL_PACKAGE. cbn [SYMBOLP].
    rewrite (XSYMBOL_eq st1 s sy1 Hs1). step. cbn. by rewrite EQ_refl.
  - exact Hu.
  - unfold pkg_keywordp, SYMBOL_PACKAGE, XSYMBOL. cbn [SYMBOLP symbol_heap].
    rewrite lookup_insert_eq. by step.
  - cbn [symbol_heap]. apply lookup_insert_eq.
  - done.
  - done.
  - done.
Qed.

Lemma keyword_by_home_package_witness :
  ∃ s st1 st2,
    pkg_intern_symbol init_pkg_once (LString "key") (LPackage 2) false
    = Done ((LSymbol s, None), st1) ∧
    pkg_keywordp st1 (LSymbol s) = Done true ∧
    pkg_unintern_symbol st1 (LSymbol s) (LPackage 2) = Done (Qt, st2) ∧
    pkg_keywordp st2 (LSymbol s) = Done false.
Proof.
  destruct (keyword_by_home_package init_pkg_once "key" 2 None)
    as (s & st1 & st2 & sy2 & Hi & Hk1 & Hu & Hk2 & _).
  - reflexivity.
  - vm_compute. reflexivity.
  - exists s, st1, st2. by split_and!.
Defined.

(** * The obarray shim *)

Lemma NILP_vector v : NILP (LVector v) = false.
Proof. reflexivity. Qed.

Lemma NILP_package p : NILP (LPackage p) = false.
Proof. reflexivity. Qed.

Lemma fake_me_an_obarray_cases st vector package st1 :
  fake_me_an_obarray st vector = Done (package, st1) →
  ∃ v elems x,
    vector = LVector v ∧ vectors st !! v = Some elems ∧ elems !! 0%nat = Some x ∧
    ((PACKAGEP x = true ∧ package = x ∧ st1 = st) ∨
     (PACKAGEP x = false ∧
      ∃ p, package = LPackage p ∧ packages st !! p = None ∧
           st1 = mkState
                   (<[p := mkPackage (LString "obarray") [] ∅ [] []]> (packages st))
                   (symbol_heap st)
                   (<[v := <[0%nat := LPackage p]> elems]> (vectors st))
                   (Vpackage_registry st) (Vearmuffs_package st)
                   (Vkeyword_package st))).
Proof.
  unfold fake_me_an_obarray.
  destruct vector as [| | | |v]; try done.
  destruct (vectors st !! v) as [elems|] eqn:Hv; [|done].
  destruct (elems !! 0%nat) as [x|] eqn:Hx; [|done].
  destruct (PACKAGEP x) eqn:Hp; simpl.
  - intros [= <- <-]. eexists v, elems, x. split_and!; try done. by left.
  - intros [= <- <-]. eexists v, elems, x. split_and!; try done. right.
    split; [done|]. eexists. split_and!; [done| |done].
    apply not_elem_of_dom, is_fresh.
Qed.

Lemma fake_me_an_obarray_present st v elems P :
  vectors st !! v = Some elems → elems !! 0%nat = Some P → PACKAGEP P = true →
  fake_me_an_obarray st (LVector v) = Done (P, st).
Proof. intros Hv Hx Hp. unfold fake_me_an_obarray. by rewrite Hv, Hx, Hp. Qed.

Lemma fake_me_an_obarray_once st vector package st1 :
  fake_me_an_obarray st vector = Done (package, st1) →
  PACKAGEP package = true ∧
  fake_me_an_obarray st1 vector = Done (package, st1) ∧
  (∀ q pkg, packages st !! q = Some pkg → packages st1 !! q = Some pkg) ∧
  symbol_heap st1 = symbol_heap st ∧
  Vpackage_registry st1 = Vpackage_registry st ∧
  Vearmuffs_package st1 = Vearmuffs_package st ∧
  Vkeyword_package st1 = Vkeyword_package st ∧
  (∀ w, LVector w ≠ vector → vectors st1 !! w = vectors st !! w) ∧
  (∃ v elems elems1,
     vector = LVector v ∧ vectors st !! v = Some elems ∧
     vectors st1 !! v = Some elems1 ∧ length elems1 = length elems ∧
     elems1 !! 0%nat = Some package ∧
     ∀ i, i ≠ 0%nat → elems1 !! i = elems !! i) ∧
  (st1 = st ∨
   ∃ p, package = LPackage p ∧ packages st !! p = None ∧
        packages st1 = <[p := mkPackage (LString "obarray") [] ∅ [] []]> (packages st)).
Proof.
  intros H.
  destruct (fake_me_an_obarray_cases _ _ _ _ H)
    as (v & elems & x & -> & Hv & Hx &
        [(Hp & -> & ->) | (Hp & p & -> & Hnone & ->)]).
  - split_and!; try done.
    + exists v, elems, elems. by split_and!.
    + by left.
  - assert (0 < length elems)%nat as Hlen by (by eapply lookup_lt_Some).
    split_and!; try done.
    + eapply fake_me_an_obarray_present; [apply lookup_insert_eq| |done].
      by apply list_lookup_insert_eq.
    + intros q pkg Hq. cbn. rewrite lookup_insert_ne; [done|]. congruence.
    + intros w Hw. cbn. rewrite lookup_insert_ne; [done|]. congruence.
    + eexists v, elems, _. split_and!; [done|done|apply lookup_insert_eq| | |].
      * apply length_insert.
      * by apply list_lookup_insert_eq.
      * intros i Hi. by apply list_lookup_insert_ne.
    + right. eauto.
Qed.

(** X9.  The obarray shim makes its package once: the first access to a vector
    whose slot 0 holds no package makes an empty package named "obarray",
    not registered and at an address not in use, and stores it in slot 0,
    keeping the length and the other slots of the vector; every access
    after that returns the package of slot 0 and leaves the state as it
    is.  No existing package, symbol or other vector is written.  A vector
    of length 0 signals an args-out-of-range error. *)
Theorem obarray_package_made_once st vector :
  (∀ package st1,
     fake_me_an_obarray st vector = Done (package, st1) →
     PACKAGEP package = true ∧
     fake_me_an_obarray st1 vector = Done (package, st1) ∧
     (∀ q pkg, packages st !! q = Some pkg → packages st1 !! q = Some pkg) ∧
     symbol_heap st1 = symbol_heap st ∧
     Vpackage_registry st1 = Vpackage_registry st ∧
     Vearmuffs_package st1 = Vearmuffs_package st ∧
     Vkeyword_package st1 = Vkeyword_package st ∧
     (∀ w, LVector w ≠ vector → vectors st1 !! w = vectors st !! w) ∧
     (∃ v elems elems1,
        vector = LVector v ∧ vectors st !! v = Some elems ∧
        vectors st1 !! v = Some elems1 ∧ length elems1 = length elems ∧
        elems1 !! 0%nat = Some package ∧
        ∀ i, i ≠ 0%nat → elems1 !! i = elems !! i) ∧
     (st1 = st ∨
      ∃ p, package = LPackage p ∧ packages st !! p = None ∧
           packages st1
           = <[p := mkPackage (LString "obarray") [] ∅ [] []]> (packages st))) ∧
  (∀ v, vector = LVector v → vectors st !! v = Some [] →
        fake_me_an_obarray st vector = Signal args_out_of_range).
Proof.
  split.
  - intros package st1. apply fake_me_an_obarray_once.
  - intros v -> Hv. unfold fake_me_an_obarray. by rewrite Hv.
Qed.

Lemma obarray_package_made_once_witness :
  ∃ st1,
    fake_me_an_obarray obarray_world (LVector 7) = Done (LPackage 3, st1) ∧
    fake_me_an_obarray st1 (LVector 7) = Done (LPackage 3, st1).
Proof.
  eexists. split; [vm_compute; reflexivity|].
  refine (proj1 (proj2 (proj1 (obarray_package_made_once obarray_world (LVector 7))
                          (LPackage 3) _ _))).
  vm_compute. reflexivity.
Defined.

Lemma pkg_emacs_intern_vector st n v :
  pkg_emacs_intern st (LString n) (LVector v)
  = ('(P, st0) ← fake_me_an_obarray st (LVector v);
     '((symbol, _), st') ← pkg_intern_symbol st0 (LString n) P false;
     Done (symbol, st')).
Proof.
  unfold pkg_emacs_intern. step. rewrite NILP_vector, andb_false_r. step.
  cbn [VECTORP].
  destruct (fake_me_an_obarray st (LVector v)) as [[P st0]| | |] eqn:Hfake; try done.
  step. apply fake_me_an_obarray_once in Hfake as (Hp & _).
  by rewrite (package_or_default_PACKAGEP st0 P Hp).
Qed.

Lemma pkg_emacs_intern_soft_vector st n v :
  pkg_emacs_intern_soft st (LString n) (LVector v)
  = ('(P, st0) ← fake_me_an_obarray st (LVector v);
     '(found, _) ← lookup_symbol st0 n P false;
     Done (if EQ found Qunbound then Qnil else found, st0)).
Proof.
  unfold pkg_emacs_intern_soft. cbn [SYMBOLP]. step.
  rewrite NILP_vector, andb_false_r. step. cbn [VECTORP].
  destruct (fake_me_an_obarray st (LVector v)) as [[P st0]| | |] eqn:Hfake; try done.
  step. apply fake_me_an_obarray_once in Hfake as (Hp & _).
  rewrite (package_or_default_PACKAGEP st0 P Hp). step.
  destruct (lookup_symbol st0 n P false) as [[found o]| | |]; try done. step.
  by destruct (EQ found Qunbound).
Qed.

(** X10.  Through a legacy obarray: the symbol the legacy intern returns for a
    name and a vector is the symbol intern-soft, and a second intern,
    return for the same name and vector afterwards, and these leave the
    state as it is.  With a vector no leading colon is dropped. *)
Theorem obarray_intern_then_intern_soft st n v sym st1 :
  pkg_emacs_intern st (LString n) (LVector v) = Done (sym, st1) →
  sym ≠ Qunbound ∧
  pkg_emacs_intern_soft st1 (LString n) (LVector v) = Done (sym, st1) ∧
  pkg_emacs_intern st1 (LString n) (LVector v) = Done (sym, st1).
Proof.
  rewrite pkg_emacs_intern_vector.
  destruct (fake_me_an_obarray st (LVector v)) as [[P st0]| | |] eqn:Hfake; try done.
  step.
  destruct (pkg_intern_symbol st0 (LString n) P false) as [[[sym' o] st']| | |] eqn:Hi;
    try done.
  step. intros [= -> ->].
  destruct (pkg_intern_symbol_accessible _ _ _ _ _ _ _ Hi) as (Hf & Hne & _).
  destruct (pkg_intern_symbol_untouched _ _ _ _ _ _ Hi) as (_ & _ & Hvec & _).
  apply fake_me_an_obarray_once in Hfake
    as (Hp & _ & _ & _ & _ & _ & _ & _ & (v' & e & e1 & [= <-] & _ & Hv1 & _ & H0 & _) & _).
  rewrite <- Hvec in Hv1.
  pose proof (fake_me_an_obarray_present st1 v e1 P Hv1 H0 Hp) as Hfake1.
  apply EQ_false in Hne as Hne'.
  split_and!; [done| |].
  - rewrite pkg_emacs_intern_soft_vector, Hfake1. step.
    rewrite lookup_symbol_eq, Hf. step. by rewrite Hne'.
  - rewrite pkg_emacs_intern_vector, Hfake1. step.
    unfold pkg_intern_symbol.
    rewrite (pkg_intern_symbol1_found st1 n P false Qunbound sym Hf Hne). done.
Qed.

Lemma obarray_intern_then_intern_soft_witness :
  ∃ sym st1,
    pkg_emacs_intern obarray_world (LString ":a") (LVector 7) = Done (sym, st1) ∧
    pkg_emacs_intern_soft st1 (LString ":a") (LVector 7) = Done (sym, st1).
Proof.
  eexists _, _. split; [vm_compute; reflexivity|].
  refine (proj1 (proj2 (obarray_intern_then_intern_soft obarray_world ":a" 7 _ _ _))).
  vm_compute. reflexivity.
Defined.

Lemma closed_in_dom st X p : closed st X → p ∈ X → is_Some (packages st !! p).
Proof. intros Hc Hp. destruct (closed_lookup st X p Hc Hp) as (pkg & -> & _). eauto. Qed.

Lemma pkg_intern_symbol_invisible st n p status r st1 X :
  pkg_intern_symbol st (LString n) (LPackage p) status = Done (r, st1) →
  closed st X → p ∉ X →
  ∀ q m s, q ∈ X →
    lookup_symbol st1 m (LPackage q) s = lookup_symbol st m (LPackage q) s.
Proof.
  destruct r as [sym o]. intros Hi Hc Hp q m s Hq. symmetry.
  destruct (pkg_intern_symbol_frame _ _ _ _ _ _ _ Hi)
    as (pk & pk1 & _ & _ & _ & _ & _ & Hother).
  apply (lookup_symbol_agree_closed m X); [done| |done].
  intros q' Hq'. unfold agree_at.
  rewrite Hother by (intros Heq; apply Hp; by rewrite <- Heq).
  destruct (closed_in_dom st X q' Hc Hq') as [pkg ->]. done.
Qed.

(** X11.  Intern into a package is invisible from where the package cannot be
    reached: for a closed set of packages that does not hold the package,
    every lookup, of any name, from a package of the set is as before. *)
Theorem intern_invisible_elsewhere st n p status r st1 X :
  pkg_intern_symbol st (LString n) (LPackage p) status = Done (r, st1) →
  closed st X → p ∉ X →
  ∀ q m s, q ∈ X →
    lookup_symbol st1 m (LPackage q) s = lookup_symbol st m (LPackage q) s.
Proof. apply pkg_intern_symbol_invisible. Qed.

Lemma intern_invisible_elsewhere_witness :
  ∃ r st1,
    pkg_intern_symbol internal_world (LString "FOO") (LPackage 1) true = Done (r, st1) ∧
    lookup_symbol st1 "FOO" (LPackage 2) true
    = lookup_symbol internal_world "FOO" (LPackage 2) true.
Proof.
  eexists _, _. split; [vm_compute; reflexivity|].
  refine (intern_invisible_elsewhere internal_world "FOO" 1 true _ _ {[2%positive]}
            _ _ _ 2%positive "FOO"%string true _).
  - vm_compute. reflexivity.
  - apply (bool_decide_unpack _). by vm_compute.
  - apply (bool_decide_unpack _). by vm_compute.
  - apply (bool_decide_unpack _). by vm_compute.
Defined.

(** X12.  Symbols interned through a vector that had no package yet are
    isolated: the package made for the vector is on no use-list and in no
    registry entry, so every lookup from a closed set of the packages
    that existed is as before, and the symbol returned is new, the only
    entry of the vector's package, which is its home. *)
Theorem fresh_obarray_is_isolated st n v elems x sym st1 X :
  vectors st !! v = Some elems → elems !! 0%nat = Some x → PACKAGEP x = false →
  pkg_emacs_intern st (LString n) (LVector v) = Done (sym, st1) →
  closed st X →
  (∀ q m s, q ∈ X →
     lookup_symbol st1 m (LPackage q) s = lookup_symbol st m (LPackage q) s) ∧
  Vpackage_registry st1 = Vpackage_registry st ∧
  ∃ p s sy pkg1 elems1 status,
    sym = LSymbol s ∧ packages st !! p = None ∧ symbol_heap st !! s = None ∧
    vectors st1 !! v = Some elems1 ∧ elems1 !! 0%nat = Some (LPackage p) ∧
    packages st1 !! p = Some pkg1 ∧ pkg_use_list pkg1 = [] ∧
    pkg_symbols pkg1 = {[ n := (sym, status) ]} ∧
    symbol_heap st1 !! s = Some sy ∧ sym_name sy = n ∧ sym_package sy = LPackage p.
Proof.
  intros Hv Hx Hnp. rewrite pkg_emacs_intern_vector.
  unfold fake_me_an_obarray. rewrite Hv, Hx, Hnp. cbn [negb make_package]. step.
  set (p := fresh (dom (packages st))).
  assert (packages st !! p = None) as Hfresh by apply not_elem_of_dom, is_fresh.
  match goal with |- context [pkg_intern_symbol ?x _ _ _] => set (st0 := x) end.
  set (pkg0 := mkPackage (LString "obarray") [] ∅ [] []).
  assert (packages st0 !! p = Some pkg0) as Hp0 by apply lookup_insert_eq.
  assert (lookup_found st0 n (LPackage p) = Done Qunbound) as Hf0
    by (by eapply lookup_found_empty).
  pose proof (pkg_intern_symbol_new st0 n p pkg0 false Hp0 Hf0) as Hi.
  cbv zeta in Hi. rewrite Hi. step. intros [= <- <-] Hc.
  assert (p ∉ X) as HpX.
  { intros Hin. destruct (closed_in_dom st X p Hc Hin) as [? ?]. congruence. }
  assert (closed st0 X) as Hc0.
  { apply (closed_frame st); [done|]. intros q pkg Hq. exists pkg. split; [|done].
    cbn. rewrite lookup_insert_ne; [done|]. congruence. }
  destruct (new_symbol_fresh st0) as (Hnone & _).
  split_and!.
  - intros q m s Hq.
    etrans; [exact (pkg_intern_symbol_invisible st0 n p false _ _ X Hi Hc0 HpX q m s Hq)|].
    symmetry. apply (lookup_symbol_agree_closed m X); [done| |done].
    intros q' Hq'. unfold agree_at. cbn.
    rewrite lookup_insert_ne by (intros Heq; apply HpX; by rewrite Heq).
    destruct (closed_in_dom st X q' Hc Hq') as [pkg ->]. done.
  - done.
  - eexists p, _, _, _, _, _. split_and!; try done.
    + cbn. apply lookup_insert_eq.
    + by apply list_lookup_insert_eq, (lookup_lt_Some _ _ x).
    + cbn. rewrite insert_insert_eq. apply lookup_insert_eq.
    + done.
    + cbn. by rewrite insert_empty.
    + cbn. apply lookup_insert_eq.
    + done.
    + done.
Qed.

Lemma fresh_obarray_is_isolated_witness :
  ∃ sym st1,
    pkg_emacs_intern obarray_world (LString "car") (LVector 7) = Done (sym, st1) ∧
    lookup_symbol st1 "car" (LPackage 1) true
    = lookup_symbol obarray_world "car" (LPackage 1) true.
Proof.
  eexists _, _. split; [vm_compute; reflexivity|].
  refine (proj1 (fresh_obarray_is_isolated obarray_world "car" 7 [LFixnum 0; LFixnum 0]
                   (LFixnum 0) _ _ {[1%positive; 2%positive]} _ _ _ _ _)
            1%positive "car"%string true _).
  - vm_compute. reflexivity.
  - reflexivity.
  - reflexivity.
  - vm_compute. reflexivity.
  - apply (bool_decide_unpack _). by vm_compute.
  - apply (bool_decide_unpack _). by vm_compute.
Defined.

(** * Unqualified symbols *)

Lemma Ffind_symbol_nil st n p :
  Vearmuffs_package st = LPackage p →
  Ffind_symbol st (LString n) Qnil = Ffind_symbol st (LString n) (LPackage p).
Proof.
  intros Hcur. unfold Ffind_symbol, package_or_default, NILP. step.
  by rewrite EQ_refl, Hcur.
Qed.

Lemma pkg_unqualified_symbol_eq st n p sym0 :
  Vearmuffs_package st = LPackage p →
  lookup_found st n (LPackage p) = Done sym0 →
  pkg_unqualified_symbol st (LString n)
  = if EQ sym0 Qunbound then
      '((symbol, _), st') ← pkg_intern_symbol st (LString n) (LPackage p) false;
      Done (symbol, st')
    else Done (sym0, st).
Proof.
  intros Hcur Hf. unfold pkg_unqualified_symbol. rewrite Hcur.
  cbn [check_package PACKAGEP]. step.
  destruct (EQ (LPackage p) (Vkeyword_package st)) eqn:Hkw.
  - by rewrite (pkg_qualified_symbol_eq st n p true sym0 Hf), Hkw.
  - rewrite Ffind_symbol_package, Hf. step. by destruct (EQ sym0 Qunbound).
Qed.

(** X13.  Unqualified resolution is find-or-intern in the current package,
    whichever package that is: it signals "Not a package" when *package*
    holds none, and otherwise (the current package being live, with
    use-lists that lead to live packages) returns a symbol: the one
    find-symbol already finds, with the state as it is, or else a new one.
    Afterwards find-symbol finds that symbol in the current package, and
    resolving the name again returns it and leaves the state as it is. *)
Theorem unqualified_symbol_find_or_intern st n :
  (PACKAGEP (Vearmuffs_package st) = false →
   pkg_unqualified_symbol st (LString n) = Signal Not_a_package) ∧
  (∀ p X,
     Vearmuffs_package st = LPackage p → closed st X → p ∈ X →
     ∃ sym st1 status,
       pkg_unqualified_symbol st (LString n) = Done (sym, st1) ∧ sym ≠ Qunbound ∧
       Ffind_symbol st1 (LString n) Qnil = Done (Some (sym, status)) ∧
       pkg_unqualified_symbol st1 (LString n) = Done (sym, st1) ∧
       (∀ found, Ffind_symbol st (LString n) Qnil = Done (Some found) →
                 sym = found.1 ∧ st1 = st) ∧
       (Ffind_symbol st (LString n) Qnil = Done None →
        ∃ s, sym = LSymbol s ∧ symbol_heap st !! s = None)).
Proof.
  split.
  { intros Hp. unfold pkg_unqualified_symbol, check_package. by rewrite Hp. }
  intros p X Hcur Hc Hp.
  destruct (lookup_found_closed st n X p Hc Hp) as (sym0 & Hf & _).
  destruct (closed_lookup st X p Hc Hp) as (pkg & Hpk & _).
  pose proof (pkg_unqualified_symbol_eq st n p sym0 Hcur Hf) as Hq.
  pose proof (Ffind_symbol_package st n p) as Hfind.
  rewrite <- (Ffind_symbol_nil st n p Hcur), Hf in Hfind. step in Hfind.
  destruct (decide (sym0 = Qunbound)) as [->|Hne].
  - rewrite EQ_refl in Hq, Hfind.
    pose proof (pkg_intern_symbol_new st n p pkg false Hpk Hf) as Hi.
    cbv zeta in Hi. rewrite Hi in Hq. step in Hq.
    destruct (new_symbol_fresh st) as (Hnone & Hnu & _).
    set (s := fresh (builtin_symbols ∪ dom (symbol_heap st))) in *.
    match type of Hi with _ = Done (_, ?x) => set (st1 := x) in * end.
    assert (lookup_found st1 n (LPackage p) = Done (LSymbol s)) as Hf1.
    { eapply lookup_found_local; [apply lookup_insert_eq|]. apply lookup_insert_eq. }
    apply EQ_false in Hnu as Hnu'.
    eexists (LSymbol s), st1, _. split_and!; [done|done| | | |].
    + rewrite (Ffind_symbol_nil st1 n p Hcur), Ffind_symbol_package, Hf1. step.
      by rewrite Hnu'.
    + rewrite (pkg_unqualified_symbol_eq st1 n p (LSymbol s) Hcur Hf1).
      by rewrite Hnu'.
    + intros found. by rewrite Hfind.
    + intros _. eauto.
  - apply EQ_false in Hne as Hne'. rewrite Hne' in Hq, Hfind.
    eexists sym0, st, _. split_and!; [done|done|exact Hfind| | |].
    + by rewrite Hq.
    + rewrite Hfind. by intros found [= <-].
    + by rewrite Hfind.
Qed.

Lemma unqualified_symbol_find_or_intern_witness :
  ∃ sym st1 status,
    pkg_unqualified_symbol init_pkg_once (LString "car") = Done (sym, st1) ∧
    Ffind_symbol st1 (LString "car") Qnil = Done (Some (sym, status)).
Proof.
  destruct (proj2 (unqualified_symbol_find_or_intern init_pkg_once "car")
              1%positive {[1%positive]})
    as (sym & st1 & status & H & _ & Hfind & _).
  - reflexivity.
  - apply (bool_decide_unpack _). by vm_compute.
  - apply (bool_decide_unpack _). by vm_compute.
  - by exists sym, st1, status.
Defined.

(** * Defining built-in symbols *)

(** The name is not accessible and a symbol is supplied: that symbol is
    entered, under its own name. *)
Lemma pkg_intern_symbol1_existing st n p pkg status s sy :
  packages st !! p = Some pkg →
  lookup_found st n (LPackage p) = Done Qunbound →
  symbol_heap st !! s = Some sy → LSymbol s ≠ Qunbound →
  let kw := EQ (LPackage p) (Vkeyword_package st) in
  let v := if kw then QCexternal else QCinternal in
  let sy1 :=
    if kw then
      set_sym_declared_special true
        (set_sym_trapped_write SYMBOL_NOWRITE
           (set_sym_plainval (LSymbol s) (set_sym_package (LPackage p) sy)))
    else set_sym_package (LPackage p) sy in
  pkg_intern_symbol1 st (LString n) (LPackage p) status (LSymbol s)
  = Done ((LSymbol s, put_status status v),
          mkState
            (<[p := set_pkg_symbols
                      (<[sym_name sy := (LSymbol s, v)]> (pkg_symbols pkg)) pkg]>
               (packages st))
            (<[s := sy1]> (symbol_heap st))
            (vectors st) (Vpackage_registry st)
            (Vearmuffs_package st) (Vkeyword_package st)).
Proof.
  intros Hp Hf Hs Hnu kw v sy1.
  unfold pkg_intern_symbol1. step.
  rewrite lookup_symbol_eq, Hf. step. rewrite EQ_refl.
  apply EQ_false in Hnu. rewrite Hnu. step.
  erewrite update_symbol_Done by done. step. fold kw.
  destruct kw eqn:Hkw; subst v sy1.
  - unfold make_symbol_constant.
    do 3 (erewrite update_symbol_Done by (step; apply lookup_insert_eq); step).
    rewrite !insert_insert_eq.
    apply EQ_true in Hkw. rewrite <- Hkw.
    unfold pkg_add_symbol. rewrite (XPACKAGE_eq _ p pkg) by done. step.
    unfold Fputhash, SYMBOL_NAME.
    erewrite XSYMBOL_eq by (step; apply lookup_insert_eq). step.
    erewrite update_package_Done by (step; done). step.
    unfold set_packages, set_symbol_heap. simpl. by rewrite <- Hkw.
  - unfold pkg_add_symbol. rewrite (XPACKAGE_eq _ p pkg) by done. step.
    unfold Fputhash, SYMBOL_NAME.
    erewrite XSYMBOL_eq by (step; apply lookup_insert_eq). step.
    erewrite update_package_Done by (step; done). step.
    done.
Qed.

(** X14.  Defining a built-in symbol in a package.  When a symbol of that name
    is already accessible in the package, that symbol is returned, be it
    the one given or another, and nothing is written: the symbol given is
    not entered and keeps its home package.  Otherwise the symbol given
    is entered itself, under its name: no symbol is allocated, the
    package becomes its home whatever its home was, its name is kept, no
    other symbol is written, and a lookup of the name in the package then
    returns it. *)
Theorem define_symbol_cases st s sy p :
  symbol_heap st !! s = Some sy → LSymbol s ≠ Qunbound →
  (∀ sym', lookup_symbol st (sym_name sy) (LPackage p) false = Done (sym', None) →
           sym' ≠ Qunbound →
           pkg_define_symbol st (LSymbol s) (LPackage p) = Done (sym', st)) ∧
  (lookup_symbol st (sym_name sy) (LPackage p) false = Done (Qunbound, None) →
   ∃ st1 sy1 pkg1 v,
     pkg_define_symbol st (LSymbol s) (LPackage p) = Done (LSymbol s, st1) ∧
     dom (symbol_heap st1) = dom (symbol_heap st) ∧
     symbol_heap st1 !! s = Some sy1 ∧
     sym_name sy1 = sym_name sy ∧ sym_package sy1 = LPackage p ∧
     (∀ s', s' ≠ s → symbol_heap st1 !! s' = symbol_heap st !! s') ∧
     packages st1 !! p = Some pkg1 ∧
     pkg_symbols pkg1 !! sym_name sy = Some (LSymbol s, v) ∧
     v = (if EQ (LPackage p) (Vkeyword_package st) then QCexternal else QCinternal) ∧
     lookup_symbol st1 (sym_name sy) (LPackage p) true = Done (LSymbol s, Some v)).
Proof.
  intros Hs Hnu. split.
  - intros sym' [Hf _]%lookup_symbol_Done Hne.
    unfold pkg_define_symbol, SYMBOL_NAME. rewrite (XSYMBOL_eq st s sy Hs). step.
    by rewrite (pkg_intern_symbol1_found st _ _ false (LSymbol s) sym' Hf Hne).
  - intros [Hf _]%lookup_symbol_Done.
    destruct (lookup_found_is_package _ _ _ _ Hf) as (p' & pkg & [= <-] & Hp).
    pose proof (pkg_intern_symbol1_existing st _ p pkg false s sy Hp Hf Hs Hnu) as Hi.
    cbv zeta in Hi.
    unfold pkg_define_symbol, SYMBOL_NAME. rewrite (XSYMBOL_eq st s sy Hs). step.
    rewrite Hi. step.
    eexists _, _, _, _. split; [done|]. cbn [symbol_heap packages].
    rewrite !lookup_insert_eq. split_and!; try done.
    + rewrite dom_insert_L. apply subseteq_union_1_L, singleton_subseteq_l.
      by eapply elem_of_dom_2.
    + by destruct (EQ (LPackage p) (Vkeyword_package st)).
    + by destruct (EQ (LPackage p) (Vkeyword_package st)).
    + intros s' Hs'. by apply lookup_insert_ne.
    + cbn. apply lookup_insert_eq.
    + apply lookup_symbol_Done. split.
      * eapply lookup_found_local; [apply lookup_insert_eq|]. cbn.
        apply lookup_insert_eq.
      * cbn. f_equal. symmetry.
        eapply status_in_local; [apply lookup_insert_eq|]. cbn.
        apply lookup_insert_eq.
Qed.

Lemma define_symbol_cases_witness :
  (∃ st1, pkg_define_symbol init_pkg_once Qt (LPackage 1) = Done (Qt, st1) ∧
          lookup_symbol st1 "t" (LPackage 1) true = Done (Qt, Some QCinternal)) ∧
  pkg_define_symbol twin_world (LSymbol 5) (LPackage 1) = Done (LSymbol 4, twin_world).
Proof.
  split.
  - destruct (proj2 (define_symbol_cases init_pkg_once 2
                       (mkSymbol "t" Qnil SYMBOL_PLAINVAL Qunbound
                                 SYMBOL_UNTRAPPED_WRITE false) 1 eq_refl
                       ltac:(done)))
      as (st1 & sy1 & pkg1 & v & Hd & _ & _ & _ & _ & _ & _ & _ & -> & Hl).
    + vm_compute. reflexivity.
    + exists st1. split; [exact Hd|exact Hl].
  - refine (proj1 (define_symbol_cases twin_world 5
                     (mkSymbol "x" Qnil SYMBOL_PLAINVAL Qunbound
                               SYMBOL_UNTRAPPED_WRITE false) 1 eq_refl
                     ltac:(done)) (LSymbol 4) _ _).
    + vm_compute. reflexivity.
    + done.
Defined.

(** * Accessibility *)

Section accessibility.
Context (st : State) (name : string).
Hypothesis no_unbound : no_unbound_entry st name.

Lemma covered_weaken B L B' L' c :
  (∀ u, u ∈ B → u ∈ B' ∨ ∃ c', c' ∈ L' ∧ call_package c' = u) →
  (∀ c', c' ∈ L → c' ∈ L') →
  covered st name B L c → covered st name B' L' c.
Proof.
  intros HB HL (q & pkg & Hc & Hp & Hn & Hu). exists q, pkg. split_and!; try done.
  intros u Hin. destruct (Hu u Hin) as [Hb | (c' & Hc' & Heq)]; [by apply HB|].
  right. exists c'. split; [by apply HL|done].
Qed.

Lemma use_list_loop_covered rec :
  (∀ u s y o l, rec u s = Done ((y, o), l) → y = Qunbound →
     (∃ rest, l = mkCall u s false :: rest) ∧ Forall (covered st name s l) l) →
  ∀ tail status s L0 sym o L1,
    use_list_loop rec status Qunbound tail s L0 = Done ((sym, o), L1) →
    sym = Qunbound →
    ∃ extra, L1 = L0 ++ extra ∧ Forall (covered st name s extra) extra ∧
             ∀ u, u ∈ tail → u ∈ s ∨ ∃ c', c' ∈ extra ∧ call_package c' = u.
Proof.
  intros Hrec tail.
  induction tail as [|u tail IH]; intros status s L0 sym o L1; simpl.
  - intros [= _ _ <-] _. exists []. rewrite app_nil_r. split_and!; [done..|].
    intros u Hu. by apply elem_of_nil in Hu.
  - unfold Fmemq. case_bool_decide as Hin.
    + intros Hl Hs. destruct (IH _ _ _ _ _ _ Hl Hs) as (extra & -> & Hcov & Htail).
      exists extra. split_and!; [done..|].
      intros x [->|Hx]%elem_of_cons; [by left|by apply Htail].
    + destruct (rec u (u :: s)) as [[[y oy] l]| | |] eqn:E; simpl; try done.
      unfold EQ. case_bool_decide as Hy; [|by intros [= -> _ _] ->].
      subst y. intros Hl Hs.
      destruct (Hrec _ _ _ _ _ E eq_refl) as ((rest & ->) & Hcl).
      destruct (IH _ _ _ _ _ _ Hl Hs) as (extra & -> & Hcov & Htail).
      exists ((mkCall u (u :: s) false :: rest) ++ extra).
      split; [by rewrite app_assoc|].
      assert (∀ x, x ∈ u :: s →
                x ∈ s ∨ ∃ c', c' ∈ (mkCall u (u :: s) false :: rest) ++ extra ∧
                              call_package c' = x) as Hbase.
      { intros x [->|Hx]%elem_of_cons; [|by left].
        right. eexists. split; [apply elem_of_app; left; apply elem_of_cons; by left|done]. }
      split.
      * apply Forall_app. split.
        -- eapply Forall_impl; [exact Hcl|]. intros c. apply covered_weaken; [done|].
           intros c' Hc'. apply elem_of_app. by left.
        -- eapply Forall_impl; [exact Hcov|]. intros c. apply covered_weaken; [done|].
           intros c' Hc'. apply elem_of_app. by right.
      * intros x [->|Hx]%elem_of_cons.
        -- apply Hbase. by left.
        -- destruct (Htail x Hx) as [Hxs | (c' & Hc' & Heq)].
           ++ by apply Hbase.
           ++ right. exists c'. split; [apply elem_of_app; by right|done].
Qed.

Lemma lookup_symbol1_covered fuel :
  ∀ package seen status y o l,
    lookup_symbol1 fuel st name package seen status = Done ((y, o), l) →
    y = Qunbound →
    (∃ rest, l = mkCall package seen status :: rest) ∧
    Forall (covered st name seen l) l.
Proof.
  induction fuel as [|fuel IH]; intros package seen status y o l; [done|].
  rewrite lookup_symbol1_S.
  destruct (XPACKAGE_cases st package) as [(p & pkg & -> & Hp & ->)| ->]; [|done].
  step. destruct (pkg_symbols pkg !! name) as [[symbol v]|] eqn:Hl.
  - intros [= -> _ _] ->. destruct (no_unbound p pkg Hp). by rewrite Hl.
  - intros Hloop Hy.
    destruct (use_list_loop_covered _ (λ u s, IH u s false) _ _ _ _ _ _ _ Hloop Hy)
      as (extra & -> & Hcov & Htail).
    split; [by eexists|]. constructor.
    + exists p, pkg. split_and!; [done..|].
      intros u Hu. destruct (Htail u Hu) as [?|(c' & Hc' & Heq)]; [by left|].
      right. exists c'. split; [by right|done].
    + eapply Forall_impl; [exact Hcov|]. intros c. apply covered_weaken.
      * intros u Hu. by left.
      * intros c' Hc'. by right.
Qed.

(** Where the search went when it found nothing: everywhere. *)
Lemma lookup_trace_unbound_reaches p status o L r :
  lookup_trace st name (LPackage p) status = Done ((Qunbound, o), L) →
  reachable st p r →
  ∃ pkg, packages st !! r = Some pkg ∧ pkg_symbols pkg !! name = None.
Proof.
  intros Ht Hr. unfold lookup_trace in Ht.
  destruct (lookup_symbol1_covered _ _ _ _ _ _ _ Ht eq_refl) as ((rest & ->) & Hcov).
  rewrite Forall_forall in Hcov.
  assert (∀ a, (∃ c, c ∈ mkCall (LPackage p) [] status :: rest ∧
                     call_package c = LPackage a) →
               reachable st a r →
               ∃ pkg, packages st !! r = Some pkg ∧ pkg_symbols pkg !! name = None)
    as Hgen.
  { clear Hr. intros a Ha Hreach.
    induction Hreach as [a | a q r pkg Hp Hq Hreach IH].
    - destruct Ha as (c & Hc & Heq).
      destruct (Hcov c Hc) as (q & pkg & Hcq & Hpq & Hn & _).
      rewrite Heq in Hcq. injection Hcq as <-. eauto.
    - apply IH. destruct Ha as (c & Hc & Heq).
      destruct (Hcov c Hc) as (a' & pkg' & Hca & Hpa & _ & Hu).
      rewrite Heq in Hca. injection Hca as <-.
      rewrite Hp in Hpa. injection Hpa as <-.
      destruct (Hu _ Hq) as [Hnil|Hc']; [by apply elem_of_nil in Hnil|done]. }
  apply (Hgen p); [|done]. eexists. split; [by left|done].
Qed.

Lemma use_list_loop_reachable rec :
  (∀ u s y o l, rec u s = Done ((y, o), l) → y ≠ Qunbound →
     ∃ a r pkg v, u = LPackage a ∧ reachable st a r ∧
                  packages st !! r = Some pkg ∧
                  pkg_symbols pkg !! name = Some (y, v)) →
  ∀ tail status s L0 sym o L1,
    use_list_loop rec status Qunbound tail s L0 = Done ((sym, o), L1) →
    sym ≠ Qunbound →
    ∃ a r pkg v, LPackage a ∈ tail ∧ reachable st a r ∧
                 packages st !! r = Some pkg ∧
                 pkg_symbols pkg !! name = Some (sym, v).
Proof.
  intros Hrec tail.
  induction tail as [|u tail IH]; intros status s L0 sym o L1; simpl.
  - by intros [= <- _ _] ?.
  - unfold Fmemq. case_bool_decide as Hin.
    + intros Hl Hs. destruct (IH _ _ _ _ _ _ Hl Hs) as (a & r & pkg & v & ? & ?).
      exists a, r, pkg, v. split; [by right|done].
    + destruct (rec u (u :: s)) as [[[y oy] l]| | |] eqn:E; simpl; try done.
      unfold EQ. case_bool_decide as Hy.
      * subst y. intros Hl Hs.
        destruct (IH _ _ _ _ _ _ Hl Hs) as (a & r & pkg & v & ? & ?).
        exists a, r, pkg, v. split; [by right|done].
      * intros [= <- _ _] _.
        destruct (Hrec _ _ _ _ _ E Hy) as (a & r & pkg & v & -> & ?).
        exists a, r, pkg, v. split; [by left|done].
Qed.

Lemma lookup_symbol1_reachable fuel :
  ∀ p seen status y o l,
    lookup_symbol1 fuel st name (LPackage p) seen status = Done ((y, o), l) →
    y ≠ Qunbound →
    ∃ r pkg v, reachable st p r ∧ packages st !! r = Some pkg ∧
               pkg_symbols pkg !! name = Some (y, v).
Proof.
  induction fuel as [|fuel IH]; intros p seen status y o l; [done|].
  rewrite lookup_symbol1_S. unfold XPACKAGE.
  destruct (packages st !! p) as [pkg|] eqn:Hp; [|done].
  step. destruct (pkg_symbols pkg !! name) as [[symbol v]|] eqn:Hl.
  - intros [= -> _ _] _. exists p, pkg, v. split_and!; [constructor|done..].
  - intros Hloop Hy.
    assert (∀ u s y o l,
              lookup_symbol1 fuel st name u s false = Done ((y, o), l) →
              y ≠ Qunbound →
              ∃ a r pkg v, u = LPackage a ∧ reachable st a r ∧
                           packages st !! r = Some pkg ∧
                           pkg_symbols pkg !! name = Some (y, v)) as Hrec.
    { intros u s y' o' l' E Hy'.
      destruct u as [| | |a|]; try (by destruct fuel).
      destruct (IH _ _ _ _ _ _ E Hy') as (r & pkg' & v & ?).
      by exists a, r, pkg', v. }
    destruct (use_list_loop_reachable _ Hrec _ _ _ _ _ _ _ Hloop Hy)
      as (a & r & pkg' & v & Ha & Hr & ?).
    exists r, pkg', v. split; [|done]. by eapply reachable_used.
Qed.

(** The two directions together, for [lookup_symbol]. *)
Lemma lookup_symbol_reachable p status sym o :
  lookup_symbol st name (LPackage p) status = Done (sym, o) →
  (sym = Qunbound ↔
     ∀ r pkg, reachable st p r → packages st !! r = Some pkg →
              pkg_symbols pkg !! name = None) ∧
  (sym ≠ Qunbound →
     ∃ r pkg v, reachable st p r ∧ packages st !! r = Some pkg ∧
                pkg_symbols pkg !! name = Some (sym, v)).
Proof.
  unfold lookup_symbol.
  destruct (lookup_trace st name (LPackage p) status) as [[[y oy] L]| | |] eqn:E;
    try done.
  intros [= -> ->].
  assert (sym ≠ Qunbound →
          ∃ r pkg v, reachable st p r ∧ packages st !! r = Some pkg ∧
                     pkg_symbols pkg !! name = Some (sym, v)) as Hfound.
  { intros Hs. exact (lookup_symbol1_reachable _ _ _ _ _ _ _ E Hs). }
  split; [|done]. split.
  - intros -> r pkg Hr Hp.
    destruct (lookup_trace_unbound_reaches _ _ _ _ _ E Hr) as (pkg' & Hp' & Hn).
    rewrite Hp in Hp'. by injection Hp' as <-.
  - intros Hall. destruct (decide (sym = Qunbound)) as [|Hs]; [done|].
    destruct (Hfound Hs) as (r & pkg & v & Hr & Hp & Hl).
    by rewrite (Hall r pkg Hr Hp) in Hl.
Qed.
End accessibility.

(** X15.  A search looks exactly where the use-lists lead.  In a state in
    which no table has the "no symbol" marker as an entry for [name], a
    search from package [p] that returns finds nothing if and only if no
    package reachable from [p] through use-lists (chains of any length, [p]
    itself included) has an entry for [name]; and a symbol it finds is the
    entry for [name] of such a package, whatever the status of that
    entry. *)
Theorem lookup_searches_reachable_packages st name p status sym o :
  no_unbound_entry st name →
  lookup_symbol st name (LPackage p) status = Done (sym, o) →
  (sym = Qunbound ↔
     ∀ r pkg, reachable st p r → packages st !! r = Some pkg →
              pkg_symbols pkg !! name = None) ∧
  (sym ≠ Qunbound →
     ∃ r pkg v, reachable st p r ∧ packages st !! r = Some pkg ∧
                pkg_symbols pkg !! name = Some (sym, v)).
Proof. intros Hn Hl. exact (lookup_symbol_reachable st name Hn p status sym o Hl). Qed.

Lemma lookup_searches_reachable_packages_witness :
  lookup_symbol detour_world "x" (LPackage 1) true
    = Done (LSymbol 5, Some QCinherited) ∧
  ∃ r pkg v, reachable detour_world 1 r ∧
             packages detour_world !! r = Some pkg ∧
             pkg_symbols pkg !! "x"%string = Some (LSymbol 5, v).
Proof.
  assert (no_unbound_entry detour_world "x") as Hn.
  { apply (bool_decide_unpack _). by vm_compute. }
  assert (lookup_symbol detour_world "x" (LPackage 1) true
          = Done (LSymbol 5, Some QCinherited)) as Hl by (by vm_compute).
  split; [done|].
  exact (proj2 (lookup_searches_reachable_packages
                  detour_world "x" 1 true (LSymbol 5) (Some QCinherited) Hn Hl)
               ltac:(done)).
Defined.

(** * Interning a name that may be a keyword *)

(** X16.  [pkg_intern_maybe_keyword] is the legacy intern with no package
    argument, as long as the current package and the keyword package are
    package objects: for every name the two return the same symbol and
    leave the same state, or signal the same error.  They part when the
    current package is not a package object: for a name without a leading
    colon the legacy intern signals "not a package", while
    [pkg_intern_maybe_keyword] hands the object to the search unchecked. *)
Theorem intern_maybe_keyword_is_legacy_intern st name :
  (PACKAGEP (Vkeyword_package st) = true →
   PACKAGEP (Vearmuffs_package st) = true →
   pkg_intern_maybe_keyword st name = pkg_emacs_intern st name Qnil) ∧
  (PACKAGEP (Vearmuffs_package st) = false →
   ∀ n, name = LString n → SREF0 n ≠ ":"%char →
        pkg_emacs_intern st name Qnil = Signal Not_a_package ∧
        pkg_intern_maybe_keyword st name = Undefined).
Proof.
  split.
  - intros Hk He. unfold pkg_intern_maybe_keyword, pkg_emacs_intern.
    destruct name as [| n | | |]; try done. step.
    change (NILP Qnil) with true.
    case_bool_decide as Hc; cbn [andb].
    + destruct (Fsubstring1 n) as [n'| | |]; try done. step.
      by destruct (Vkeyword_package st) as [| | |k|] eqn:Ek.
    + step. change (VECTORP Qnil) with false. step.
      unfold package_or_default. change (NILP Qnil) with true.
      unfold check_package. rewrite He. step.
      by destruct (pkg_intern_symbol st (LString n) (Vearmuffs_package st) false)
        as [[[? ?] ?]| | |].
  - intros He n -> Hc. unfold pkg_intern_maybe_keyword, pkg_emacs_intern. step.
    rewrite !bool_decide_eq_false_2 by done. step.
    change (VECTORP Qnil) with false. step.
    unfold package_or_default, check_package. change (NILP Qnil) with true.
    rewrite He. split; [done|].
    unfold pkg_intern_symbol, pkg_intern_symbol1, lookup_symbol, lookup_trace,
      lookup_fuel. step. rewrite lookup_symbol1_S.
    by destruct (Vearmuffs_package st).
Qed.

Lemma intern_maybe_keyword_is_legacy_intern_witness :
  pkg_intern_maybe_keyword init_pkg_once (LString ":key")
    = pkg_emacs_intern init_pkg_once (LString ":key") Qnil ∧
  pkg_intern_maybe_keyword (world ∅ builtin_heap Qnil) (LString "x") = Undefined.
Proof.
  split.
  - exact (proj1 (intern_maybe_keyword_is_legacy_intern
                    init_pkg_once (LString ":key")) eq_refl eq_refl).
  - exact (proj2 (proj2 (intern_maybe_keyword_is_legacy_intern
                           (world ∅ builtin_heap Qnil) (LString "x"))
                        eq_refl "x"%string eq_refl ltac:(done))).
Defined.

(** * The hash table iterator *)

Lemma h_valid_loop_occupied n t i kk vv key value :
  t !! i = Some (key, value) → key ≠ Qunbound →
  h_valid_loop (S n) (mk_h_iter t i kk vv) = (true, mk_h_iter t i key value).
Proof.
  intros Hl Hk. cbn [h_valid_loop it_h it_i]. rewrite Hl.
  unfold EQ. by rewrite bool_decide_eq_false_2.
Qed.

Lemma h_valid_loop_free n t i kk vv value :
  t !! i = Some (Qunbound, value) →
  h_valid_loop (S n) (mk_h_iter t i kk vv)
  = h_valid_loop n (mk_h_iter t (S i) kk vv).
Proof. intros Hl. cbn [h_valid_loop it_h it_i it_key it_value]. by rewrite Hl. Qed.

Lemma for_each_loop_S {A} n (body : Lisp_Object → Lisp_Object → A → result A) it a :
  for_each_loop (S n) body it a
  = let '(valid, it) := h_valid it in
    if valid then
      a' ← body (it_key it) (it_value it) a;
      for_each_loop n body (h_next it) a'
    else Done a.
Proof. reflexivity. Qed.

Lemma for_each_loop_suffix {A} (body : Lisp_Object → Lisp_Object → A → result A) t :
  ∀ sfx i n a kk vv,
    drop i t = sfx → length sfx < n →
    for_each_loop n body (mk_h_iter t i kk vv) a
    = fold_result (λ kv, body kv.1 kv.2)
        (filter (λ kv, kv.1 ≠ Qunbound) sfx) a.
Proof.
  induction sfx as [|[key value] rest IH]; intros i n a kk vv Hd Hn.
  - destruct n as [|n]; [simpl in Hn; lia|].
    rewrite for_each_loop_S. unfold h_valid. cbn [it_h it_i].
    assert (length t ≤ i) as Hi.
    { apply (f_equal length) in Hd. rewrite length_drop in Hd. simpl in Hd. lia. }
    replace (length t - i) with 0 by lia. done.
  - assert (t !! i = Some (key, value)) as Hl.
    { rewrite <- (Nat.add_0_r i), <- lookup_drop, Hd. done. }
    assert (drop (S i) t = rest) as Hd'.
    { replace (S i) with (i + 1) by lia. by rewrite <- drop_drop, Hd. }
    assert (length t - i = S (length rest)) as Hlen.
    { apply (f_equal length) in Hd. rewrite length_drop in Hd. simpl in Hd. lia. }
    destruct n as [|n]; [simpl in Hn; lia|]. simpl in Hn.
    rewrite for_each_loop_S. unfold h_valid. cbn [it_h it_i]. rewrite Hlen.
    destruct (decide (key = Qunbound)) as [->|Hk].
    + rewrite (h_valid_loop_free _ _ _ _ _ _ Hl).
      rewrite filter_cons_False by (simpl; intros ?; done).
      rewrite <- (IH (S i) (S n) a kk vv Hd') by lia.
      rewrite for_each_loop_S. unfold h_valid. cbn [it_h it_i].
      replace (length t - S i) with (length rest) by lia. done.
    + rewrite (h_valid_loop_occupied _ _ _ _ _ _ _ Hl Hk).
      rewrite filter_cons_True by done. cbn [it_key it_value fold_result fst snd].
      destruct (body key value a) as [a'| | |]; try done. step.
      apply IH; [done|lia].
Qed.

(** All of a table, from the start. *)
Lemma FOR_EACH_KEY_VALUE_fold {A} table
    (body : Lisp_Object → Lisp_Object → A → result A) a :
  FOR_EACH_KEY_VALUE table body a
  = fold_result (λ kv, body kv.1 kv.2)
      (filter (λ kv, kv.1 ≠ Qunbound) table) a.
Proof.
  unfold FOR_EACH_KEY_VALUE, h_init.
  apply for_each_loop_suffix; [done|lia].
Qed.

(** What [h_valid] answers and where it stops: at the first slot in use
    from [it_i] on, if there is one. *)
Lemma h_valid_loop_find t :
  ∀ sfx i kk vv,
    drop i t = sfx →
    match list_find (λ kv, kv.1 ≠ Qunbound) sfx with
    | Some (j, (key, value)) =>
        h_valid (mk_h_iter t i kk vv) = (true, mk_h_iter t (i + j) key value)
    | None => (h_valid (mk_h_iter t i kk vv)).1 = false
    end.
Proof.
  induction sfx as [|[key value] rest IH]; intros i kk vv Hd.
  - simpl. unfold h_valid. cbn [it_h it_i].
    assert (length t ≤ i) as Hi.
    { apply (f_equal length) in Hd. rewrite length_drop in Hd. simpl in Hd. lia. }
    replace (length t - i) with 0 by lia. done.
  - assert (t !! i = Some (key, value)) as Hl.
    { rewrite <- (Nat.add_0_r i), <- lookup_drop, Hd. done. }
    assert (drop (S i) t = rest) as Hd'.
    { replace (S i) with (i + 1) by lia. by rewrite <- drop_drop, Hd. }
    assert (length t - i = S (length rest)) as Hlen.
    { apply (f_equal length) in Hd. rewrite length_drop in Hd. simpl in Hd. lia. }
    cbn [list_find]. destruct (decide (key = Qunbound)) as [->|Hk].
    + rewrite decide_False by (simpl; intros Hne; by apply Hne).
      specialize (IH (S i) kk vv Hd').
      assert (h_valid (mk_h_iter t i kk vv) = h_valid (mk_h_iter t (S i) kk vv)) as ->.
      { unfold h_valid. cbn [it_h it_i]. rewrite Hlen.
        rewrite (h_valid_loop_free _ _ _ _ _ _ Hl).
        by replace (length t - S i) with (length rest) by lia. }
      destruct (list_find _ rest) as [[j [key value']]|]; simpl; [|done].
      by rewrite IH, Nat.add_succ_r.
    + rewrite decide_True by done.
      unfold h_valid. cbn [it_h it_i]. rewrite Hlen, Nat.add_0_r.
      by apply h_valid_loop_occupied.
Qed.

(** X17.  FOR_EACH_KEY_VALUE runs its body once for each slot of the table
    whose key is not the "no symbol" marker, in the order of the slots, on
    the key and the value of that slot, and stops at the first error of the
    body; it never runs out of rounds.  From any position [h_valid] stops
    at the first slot in use at or after it, with the key and the value of
    that slot, and answers false exactly when there is none. *)
Theorem iteration_visits_slots_in_use {A : Type}
    (table : list (Lisp_Object * Lisp_Object))
    (body : Lisp_Object → Lisp_Object → A → result A) (a : A) :
  FOR_EACH_KEY_VALUE table body a
  = fold_result (λ kv, body kv.1 kv.2)
      (filter (λ kv, kv.1 ≠ Qunbound) table) a ∧
  ∀ i kk vv,
    match list_find (λ kv, kv.1 ≠ Qunbound) (drop i table) with
    | Some (j, (key, value)) =>
        h_valid (mk_h_iter table i kk vv)
        = (true, mk_h_iter table (i + j) key value)
    | None => (h_valid (mk_h_iter table i kk vv)).1 = false
    end.
Proof.
  split; [apply FOR_EACH_KEY_VALUE_fold|].
  intros i kk vv. by apply h_valid_loop_find.
Qed.

(** * Mapping over symbols *)

Lemma fold_result_fst {A} (fn : Lisp_Object → A → result A)
    (l : list (Lisp_Object * Lisp_Object)) a :
  fold_result (λ kv, fn kv.1) l a = fold_result fn (l.*1) a.
Proof.
  revert a. induction l as [|[k v] l IH]; intros a; [done|].
  simpl. destruct (fn k a) as [a'| | |]; simpl; try done.
Qed.

Lemma fold_result_ext {A B} (f g : B → A → result A) l a :
  (∀ b a, b ∈ l → f b a = g b a) → fold_result f l a = fold_result g l a.
Proof.
  revert a. induction l as [|b l IH]; intros a Hfg; [done|].
  simpl. rewrite (Hfg b a) by (by left).
  destruct (g b a) as [a'| | |]; simpl; try done.
  apply IH. intros b' a'' Hb. apply Hfg. by right.
Qed.

(** The symbols of a table in the order of its slots. *)
Lemma pkg_map_package_symbols_fold {A} L st
    (fn : Lisp_Object → A → result A) p pkg a :
  packages st !! p = Some pkg →
  pkg_map_package_symbols L st fn (LPackage p) a
  = fold_result fn
      (filter (λ kv, kv.1 ≠ Qunbound) (symbols_slots L (pkg_symbols pkg))).*1 a.
Proof.
  intros Hp. unfold pkg_map_package_symbols, check_package. cbn [PACKAGEP]. step.
  rewrite (XPACKAGE_eq st p pkg Hp). step.
  rewrite FOR_EACH_KEY_VALUE_fold. apply (fold_result_fst fn).
Qed.

Lemma pkg_map_package_symbols_not_package {A} L st
    (fn : Lisp_Object → A → result A) o a :
  PACKAGEP o = false →
  pkg_map_package_symbols L st fn o a = Signal Not_a_package.
Proof. intros Hp. unfold pkg_map_package_symbols, check_package. by rewrite Hp. Qed.

Lemma layout_ok_empty L :
  layout_ok L → filter (λ kv, kv.1 ≠ Qunbound) (symbols_slots L ∅) = [].
Proof.
  intros [_ Ht]. specialize (Ht ∅). rewrite map_to_list_empty in Ht.
  simpl in Ht. apply Permutation_nil_r in Ht.
  by apply fmap_nil_inv in Ht.
Qed.

Lemma pkg_map_symbols_fold {A} L st (fn : Lisp_Object → A → result A) a :
  pkg_map_symbols L st fn a
  = fold_result (λ kv, pkg_map_package_symbols L st fn kv.2)
      (filter (λ kv, kv.1 ≠ Qunbound) (registry_slots L (Vpackage_registry st))) a.
Proof. unfold pkg_map_symbols. by rewrite FOR_EACH_KEY_VALUE_fold. Qed.

(** X18.  Mapping over one package calls the function on the symbols that
    are entries of the package's own table, each entry once, in an order
    that the hash table decides and that is the same for every function;
    symbols that the package only inherits are not visited, and the first
    error of the function ends the traversal.  An argument that is not a
    package object, a package name included, signals "not a package". *)
Theorem map_package_symbols_visits_own_entries L st p pkg :
  layout_ok L → packages st !! p = Some pkg →
  (∃ order,
     order ≡ₚ filter (λ s, s ≠ Qunbound)
                ((λ e, e.2.1) <$> map_to_list (pkg_symbols pkg)) ∧
     ∀ (A : Type) (fn : Lisp_Object → A → result A) (a : A),
       pkg_map_package_symbols L st fn (LPackage p) a = fold_result fn order a) ∧
  (∀ (A : Type) (fn : Lisp_Object → A → result A) (a : A) o,
     PACKAGEP o = false →
     pkg_map_package_symbols L st fn o a = Signal Not_a_package).
Proof.
  intros [_ Ht] Hp. split.
  - eexists. split; [apply (Ht (pkg_symbols pkg))|].
    intros A fn a. by apply pkg_map_package_symbols_fold.
  - intros A fn a o Ho. by apply pkg_map_package_symbols_not_package.
Qed.

Lemma plain_layout_ok : layout_ok plain_layout.
Proof.
  split.
  - intros r. cbn [plain_layout registry_slots]. generalize (map_to_list r). intros l.
    induction l as [|[k v] l IH]; [done|].
    rewrite fmap_cons, filter_cons_True by done. by rewrite IH.
  - intros t. cbn [plain_layout symbols_slots]. generalize (map_to_list t). intros l.
    induction l as [|[k [s v]] l IH]; [done|].
    rewrite !fmap_cons. cbn [fst snd].
    destruct (decide (s = Qunbound)) as [->|Hs].
    + by rewrite !filter_cons_False by (simpl; intros Hne; by apply Hne).
    + rewrite !filter_cons_True by done. rewrite fmap_cons. simpl. by rewrite IH.
Qed.

Lemma map_package_symbols_visits_own_entries_witness :
  ∃ pkg,
    packages shadow_world !! 3%positive = Some pkg ∧
    ∃ order,
      order ≡ₚ filter (λ s, s ≠ Qunbound)
                 ((λ e, e.2.1) <$> map_to_list (pkg_symbols pkg)) ∧
      ∀ (A : Type) (fn : Lisp_Object → A → result A) (a : A),
        pkg_map_package_symbols plain_layout shadow_world fn (LPackage 3) a
        = fold_result fn order a.
Proof.
  eexists. split; [vm_compute; reflexivity|].
  refine (proj1 (map_package_symbols_visits_own_entries plain_layout shadow_world 3
                   _ plain_layout_ok _)).
  vm_compute; reflexivity.
Defined.

Lemma pkg_map_symbols_c_fn_fold {A} L st
    (fn : Lisp_Object → Lisp_Object → A → result A) arg a :
  pkg_map_symbols_c_fn L st fn arg a
  = fold_result
      (λ kv a, pkg ← XPACKAGE st kv.2;
               fold_result (λ s, fn s arg)
                 (filter (λ kv, kv.1 ≠ Qunbound)
                         (symbols_slots L (pkg_symbols pkg))).*1 a)
      (filter (λ kv, kv.1 ≠ Qunbound) (registry_slots L (Vpackage_registry st))) a.
Proof.
  unfold pkg_map_symbols_c_fn. rewrite FOR_EACH_KEY_VALUE_fold.
  apply fold_result_ext. intros [k v] a' _. cbn [snd].
  destruct (XPACKAGE st v) as [pkg| | |]; try done. step.
  rewrite FOR_EACH_KEY_VALUE_fold. apply (fold_result_fst (λ s, fn s arg)).
Qed.

(** X19.  Mapping over all symbols goes through the registry entry by
    entry, in an order that the hash table decides, and maps over the
    package of each entry: a package registered under a name and [k]
    nicknames has its symbols visited [k + 1] times, a package that is not
    in the registry is not visited.  The variant for C callers visits the
    same symbols in the same order when every entry of the registry holds
    a live package. *)
Theorem map_symbols_once_per_registry_entry L st :
  layout_ok L →
  ∃ entries,
    entries ≡ₚ (λ kv, (LString kv.1, kv.2)) <$> map_to_list (Vpackage_registry st) ∧
    (∀ (A : Type) (fn : Lisp_Object → A → result A) (a : A),
       pkg_map_symbols L st fn a
       = fold_result (λ e, pkg_map_package_symbols L st fn e.2) entries a) ∧
    (map_Forall (λ _ v, ∃ p, v = LPackage p ∧ is_Some (packages st !! p))
                (Vpackage_registry st) →
     ∀ (A : Type) (fn : Lisp_Object → Lisp_Object → A → result A) arg (a : A),
       pkg_map_symbols_c_fn L st fn arg a
       = pkg_map_symbols L st (λ s, fn s arg) a).
Proof.
  intros [Hr Ht]. eexists. split; [apply (Hr (Vpackage_registry st))|]. split.
  - intros A fn a. apply pkg_map_symbols_fold.
  - intros Hall A fn arg a.
    rewrite pkg_map_symbols_c_fn_fold, pkg_map_symbols_fold.
    apply fold_result_ext. intros [k v] a' Hin. cbn [snd].
    assert ((k, v) ∈ (λ kv : string * Lisp_Object, (LString kv.1, kv.2))
                       <$> map_to_list (Vpackage_registry st)) as Hin'.
    { by rewrite <- (Hr (Vpackage_registry st)). }
    apply list_elem_of_fmap in Hin' as ([n v'] & [= -> ->] & Hn).
    apply elem_of_map_to_list in Hn.
    destruct (Hall n v' Hn) as (p & -> & [pkg Hp]).
    rewrite (pkg_map_package_symbols_fold L st _ p pkg a' Hp).
    by rewrite (XPACKAGE_eq st p pkg Hp).
Qed.

Lemma map_symbols_once_per_registry_entry_witness :
  (∃ entries,
     entries ≡ₚ (λ kv, (LString kv.1, kv.2))
                  <$> map_to_list (Vpackage_registry init_pkg_once) ∧
     (∀ (A : Type) (fn : Lisp_Object → A → result A) (a : A),
        pkg_map_symbols plain_layout init_pkg_once fn a
        = fold_result (λ e, pkg_map_package_symbols plain_layout init_pkg_once fn e.2)
            entries a) ∧
     (map_Forall (λ _ v, ∃ p, v = LPackage p ∧ is_Some (packages init_pkg_once !! p))
                 (Vpackage_registry init_pkg_once) →
      ∀ (A : Type) (fn : Lisp_Object → Lisp_Object → A → result A) arg (a : A),
        pkg_map_symbols_c_fn plain_layout init_pkg_once fn arg a
        = pkg_map_symbols plain_layout init_pkg_once (λ s, fn s arg) a)) ∧
  match pkg_emacs_intern init_pkg_once (LString ":k") Qnil with
  | Done (s, st) =>
      pkg_map_symbols plain_layout st (λ s l, Done (s :: l)) [] = Done [s; s]
  | _ => False
  end.
Proof.
  split.
  - exact (map_symbols_once_per_registry_entry plain_layout init_pkg_once
             plain_layout_ok).
  - vm_compute. reflexivity.
Defined.

(** * The legacy mapatoms *)

(** X20.  The legacy mapatoms returns nil and maps: with nil as the
    package, over all the symbols of the registry (not over the current
    package); with a package object, over the entries of that package; with
    a vector, over the package in its slot 0, which is made, empty, when
    there is none, so that nothing is visited and the vector is changed.
    A package name (string, symbol other than nil, character) or a number
    is not resolved: it signals "not a package". *)
Theorem mapatoms_cases {A : Type} L st (fn : Lisp_Object → A → result A) (a : A) :
  layout_ok L →
  pkg_emacs_mapatoms L st fn Qnil a
    = (a' ← pkg_map_symbols L st fn a; Done (Qnil, st, a')) ∧
  (∀ p, pkg_emacs_mapatoms L st fn (LPackage p) a
        = (a' ← pkg_map_package_symbols L st fn (LPackage p) a;
           Done (Qnil, st, a'))) ∧
  (∀ o, o ≠ Qnil → PACKAGEP o = false → VECTORP o = false →
        pkg_emacs_mapatoms L st fn o a = Signal Not_a_package) ∧
  (∀ v elems x, vectors st !! v = Some elems → elems !! 0%nat = Some x →
     if PACKAGEP x then
       pkg_emacs_mapatoms L st fn (LVector v) a
       = (a' ← pkg_map_package_symbols L st fn x a; Done (Qnil, st, a'))
     else
       ∃ package st1,
         fake_me_an_obarray st (LVector v) = Done (package, st1) ∧
         vectors st1 !! v = Some (<[0%nat := package]> elems) ∧
         pkg_emacs_mapatoms L st fn (LVector v) a = Done (Qnil, st1, a)).
Proof.
  intros HL. unfold pkg_emacs_mapatoms. split_and!.
  - done.
  - intros p. done.
  - intros o Ho Hp Hv. rewrite Hv. step. unfold NILP, EQ.
    rewrite bool_decide_eq_false_2 by done.
    by rewrite pkg_map_package_symbols_not_package.
  - intros v elems x Hv Hx. cbn [VECTORP].
    unfold fake_me_an_obarray. rewrite Hv, Hx.
    destruct (PACKAGEP x) eqn:Hp; cbn [negb].
    + step. destruct x as [| | |p|]; try done.
    + unfold make_package. eexists _, _. split; [done|]. step.
      split; [by rewrite lookup_insert_eq|].
      change (NILP (LPackage ?p)) with false. cbv iota.
      erewrite pkg_map_package_symbols_fold;
        [|step; by rewrite lookup_insert_eq].
      cbn [pkg_symbols]. by rewrite (layout_ok_empty L HL).
Qed.

Lemma mapatoms_cases_witness :
  pkg_emacs_mapatoms plain_layout obarray_world (λ s l, Done (s :: l))
    (LString "emacs") [] = Signal Not_a_package ∧
  ∃ package st1,
    fake_me_an_obarray obarray_world (LVector 7) = Done (package, st1) ∧
    vectors st1 !! 7%positive = Some (<[0%nat := package]> [LFixnum 0; LFixnum 0]) ∧
    pkg_emacs_mapatoms plain_layout obarray_world (λ s l, Done (s :: l))
      (LVector 7) [] = Done (Qnil, st1, []).
Proof.
  pose proof (mapatoms_cases plain_layout obarray_world (λ s l, Done (s :: l)) []
                plain_layout_ok) as (_ & _ & Hname & Hvec).
  split.
  - by apply Hname.
  - exact (Hvec 7%positive [LFixnum 0; LFixnum 0] (LFixnum 0)
             ltac:(vm_compute; reflexivity) eq_refl).
Defined.

(** * Making and editing packages *)

Lemma package_or_default_same st st1 d :
  Vpackage_registry st1 = Vpackage_registry st →
  Vearmuffs_package st1 = Vearmuffs_package st →
  symbol_heap st1 = symbol_heap st →
  package_or_default st1 d = package_or_default st d.
Proof.
  intros Hr He Hs.
  unfold package_or_default, package_from_designator, string_from_designator,
    pkg_find_package, SYMBOL_NAME, XSYMBOL.
  rewrite He, Hr. destruct d; try done. by rewrite Hs.
Qed.

(** The search in a package with an empty table and an empty use-list. *)
Lemma lookup_symbol_empty st n p pkg s :
  packages st !! p = Some pkg → pkg_symbols pkg = ∅ → pkg_use_list pkg = [] →
  lookup_symbol st n (LPackage p) s = Done (Qunbound, put_status s QCinherited).
Proof.
  intros Hp Ht Hu. unfold lookup_symbol, lookup_trace, lookup_fuel.
  rewrite lookup_symbol1_S, (XPACKAGE_eq st p pkg Hp). step.
  by rewrite Ht, lookup_empty, Hu.
Qed.

Lemma make_package_fresh st :
  packages st !! fresh (dom (packages st)) = None.
Proof. apply not_elem_of_dom, is_fresh. Qed.

Lemma agree_at_insert_fresh n st p pkg q :
  packages st !! p = None → q ≠ p →
  agree_at n st (set_packages st (<[p := pkg]> (packages st))) q.
Proof.
  intros Hp Hq. unfold agree_at. step. rewrite lookup_insert_ne by done.
  by destruct (packages st !! q).
Qed.

(** X21.  make-%package signals a wrong-type-argument error unless the
    name is a string and the size a fixnum that is not negative.
    Otherwise it returns a package object that did not exist before, with
    the given name, no nicknames, an empty table, an empty use-list and no
    shadowing symbols, and changes nothing else: the registry is as it was,
    so every designator, the new package's name included, resolves as
    before; searches from packages whose use-lists lead only to existing
    packages give what they gave; a search in the new package finds
    nothing; and a second call with the same name makes another
    package. *)
Theorem make_package_is_not_registered st name size :
  (STRINGP name = false →
   Fmake_percent_package st name size = Signal wrong_type_argument) ∧
  (CHECK_FIXNAT size ≠ Done tt →
   Fmake_percent_package st name size = Signal wrong_type_argument) ∧
  (STRINGP name = true → CHECK_FIXNAT size = Done tt →
   ∃ p st1,
     Fmake_percent_package st name size = Done (LPackage p, st1) ∧
     packages st !! p = None ∧
     st1 = set_packages st (<[p := mkPackage name [] ∅ [] []]> (packages st)) ∧
     (∀ d, package_or_default st1 d = package_or_default st d) ∧
     (∀ n s, lookup_symbol st1 n (LPackage p) s
             = Done (Qunbound, put_status s QCinherited)) ∧
     (∀ X q n s, closed st X → q ∈ X →
                 lookup_symbol st1 n (LPackage q) s
                 = lookup_symbol st n (LPackage q) s) ∧
     ∃ p2 st2,
       Fmake_percent_package st1 name size = Done (LPackage p2, st2) ∧ p2 ≠ p).
Proof.
  unfold Fmake_percent_package. split_and!.
  - by destruct name.
  - intros Hs. destruct name; try done. step.
    unfold CHECK_FIXNAT in *. destruct size; try done.
    by case_bool_decide.
  - intros Hn Hs. destruct name as [|nm| | |]; try done. step. rewrite Hs. step.
    unfold make_package.
    pose proof (make_package_fresh st) as Hfresh.
    eexists _, _. split; [done|]. split; [done|]. split; [done|]. split_and!.
    + intros d. by apply package_or_default_same.
    + intros n s.
      eapply lookup_symbol_empty; [step; by rewrite lookup_insert_eq|done..].
    + intros X q n s Hc Hq. symmetry.
      apply (lookup_symbol_agree_closed n X); [done| |done].
      intros r Hr. apply agree_at_insert_fresh; [done|].
      intros ->. destruct (closed_in_dom st X _ Hc Hr) as [? Hr'].
      by rewrite Hfresh in Hr'.
    + eexists _, _. split; [done|]. step.
      intros Heq.
      pose proof (is_fresh (dom (<[fresh (dom (packages st)) :=
                     mkPackage (LString nm) [] ∅ [] []]> (packages st)))) as Hf.
      apply Hf. rewrite Heq. apply elem_of_dom. by rewrite lookup_insert_eq.
Qed.

Lemma make_package_is_not_registered_witness :
  Fmake_percent_package init_pkg_once (LString "emacs") (LFixnum (-1))
    = Signal wrong_type_argument ∧
  ∃ p st1,
    Fmake_percent_package init_pkg_once (LString "emacs") (LFixnum 10)
      = Done (LPackage p, st1) ∧
    packages init_pkg_once !! p = None ∧
    st1 = set_packages init_pkg_once
            (<[p := mkPackage (LString "emacs") [] ∅ [] []]> (packages init_pkg_once)) ∧
    (∀ d, package_or_default st1 d = package_or_default init_pkg_once d) ∧
    (∀ n s, lookup_symbol st1 n (LPackage p) s
            = Done (Qunbound, put_status s QCinherited)) ∧
    (∀ X q n s, closed init_pkg_once X → q ∈ X →
                lookup_symbol st1 n (LPackage q) s
                = lookup_symbol init_pkg_once n (LPackage q) s) ∧
    ∃ p2 st2,
      Fmake_percent_package st1 (LString "emacs") (LFixnum 10)
        = Done (LPackage p2, st2) ∧ p2 ≠ p.
Proof.
  split.
  - exact (proj1 (proj2 (make_package_is_not_registered
                           init_pkg_once (LString "emacs") (LFixnum (-1))))
                 ltac:(done)).
  - exact (proj2 (proj2 (make_package_is_not_registered
                           init_pkg_once (LString "emacs") (LFixnum 10)))
                 eq_refl eq_refl).
Defined.

Lemma agree_at_update n st p pkg f q :
  packages st !! p = Some pkg →
  pkg_use_list (f pkg) = pkg_use_list pkg →
  pkg_symbols (f pkg) = pkg_symbols pkg →
  agree_at n st (set_packages st (<[p := f pkg]> (packages st))) q.
Proof.
  intros Hp Hu Ht. unfold agree_at. step.
  destruct (decide (q = p)) as [->|Hq].
  - rewrite Hp, lookup_insert_eq. by rewrite Hu, Ht.
  - rewrite lookup_insert_ne by done. by destruct (packages st !! q).
Qed.

(** X22.  package-%set-name and package-%set-nicknames write the slot of
    the package object and nothing else: the new value is read back by
    package-%name and package-%nicknames, but the registry is not touched,
    so every designator resolves as before (the package is still found
    under its old names only), and all searches give what they gave.  A
    first argument that is not a package object, or a new name that is not
    a string, signals a wrong-type-argument error. *)
Theorem renaming_keeps_registry st p pkg :
  packages st !! p = Some pkg →
  (∀ new, ∃ st1,
     Fpackage_percent_set_name st (LPackage p) (LString new)
       = Done (LString new, st1) ∧
     Fpackage_percent_name st1 (LPackage p) = Done (LString new) ∧
     Vpackage_registry st1 = Vpackage_registry st ∧
     (∀ d, package_or_default st1 d = package_or_default st d) ∧
     (∀ n P s, lookup_symbol st1 n P s = lookup_symbol st n P s)) ∧
  (∀ nicknames, ∃ st1,
     Fpackage_percent_set_nicknames st (LPackage p) nicknames
       = Done (nicknames, st1) ∧
     Fpackage_percent_nicknames st1 (LPackage p) = Done nicknames ∧
     Fpackage_percent_name st1 (LPackage p) = Done (pkg_name pkg) ∧
     Vpackage_registry st1 = Vpackage_registry st ∧
     (∀ d, package_or_default st1 d = package_or_default st d) ∧
     (∀ n P s, lookup_symbol st1 n P s = lookup_symbol st n P s)) ∧
  (∀ o name, PACKAGEP o = false →
     Fpackage_percent_set_name st o name = Signal wrong_type_argument) ∧
  (∀ name, STRINGP name = false →
     Fpackage_percent_set_name st (LPackage p) name = Signal wrong_type_argument).
Proof.
  intros Hp. split_and!.
  - intros new. eexists. split.
    { unfold Fpackage_percent_set_name, CHECK_PACKAGE. cbn [PACKAGEP]. step.
      by rewrite (update_package_Done st p pkg _ Hp). }
    split_and!.
    + unfold Fpackage_percent_name, CHECK_PACKAGE. cbn [PACKAGEP]. step.
      erewrite XPACKAGE_eq; [|step; by rewrite lookup_insert_eq]. done.
    + done.
    + intros d. by apply package_or_default_same.
    + intros n P s. symmetry. apply lookup_symbol_agree_all.
      intros q. by apply agree_at_update.
  - intros nicknames. eexists. split.
    { unfold Fpackage_percent_set_nicknames, CHECK_PACKAGE. cbn [PACKAGEP]. step.
      by rewrite (update_package_Done st p pkg _ Hp). }
    split_and!.
    + unfold Fpackage_percent_nicknames, CHECK_PACKAGE. cbn [PACKAGEP]. step.
      erewrite XPACKAGE_eq; [|step; by rewrite lookup_insert_eq]. done.
    + unfold Fpackage_percent_name, CHECK_PACKAGE. cbn [PACKAGEP]. step.
      erewrite XPACKAGE_eq; [|step; by rewrite lookup_insert_eq]. done.
    + done.
    + intros d. by apply package_or_default_same.
    + intros n P s. symmetry. apply lookup_symbol_agree_all.
      intros q. by apply agree_at_update.
  - intros o name Ho. unfold Fpackage_percent_set_name, CHECK_PACKAGE. by rewrite Ho.
  - intros name Hn. unfold Fpackage_percent_set_name, CHECK_PACKAGE.
    cbn [PACKAGEP]. step. by destruct name.
Qed.

Lemma renaming_keeps_registry_witness :
  ∃ st1,
    Fpackage_percent_set_name init_pkg_once (LPackage 1) (LString "gnu")
      = Done (LString "gnu", st1) ∧
    Fpackage_percent_name st1 (LPackage 1) = Done (LString "gnu") ∧
    Vpackage_registry st1 = Vpackage_registry init_pkg_once ∧
    (∀ d, package_or_default st1 d = package_or_default init_pkg_once d) ∧
    (∀ n P s, lookup_symbol st1 n P s = lookup_symbol init_pkg_once n P s).
Proof.
  exact (proj1 (renaming_keeps_registry init_pkg_once 1
                  (mkPackage (LString "emacs") [] ∅ [] [])
                  ltac:(vm_compute; reflexivity)) "gnu"%string).
Defined.

(** X23.  package-%set-use-list stores the list as it is given; the next
    search through the package goes by it.  When the package has no entry
    of its own for a name and the first element of the new list is a live
    package that has one, the search returns that entry's symbol as
    inherited, whatever the status of the entry.  The elements are not
    checked: when the first element is not a live package object, the
    search dereferences it unchecked. *)
Theorem set_use_list_takes_effect st p pkg n use :
  packages st !! p = Some pkg → pkg_symbols pkg !! n = None →
  ∃ st1,
    Fpackage_percent_set_use_list st (LPackage p) use = Done (use, st1) ∧
    Fpackage_percent_use_list st1 (LPackage p) = Done use ∧
    (∀ q pkgq sym v rest,
       use = LPackage q :: rest → packages st !! q = Some pkgq →
       pkg_symbols pkgq !! n = Some (sym, v) → sym ≠ Qunbound →
       lookup_symbol st1 n (LPackage p) true = Done (sym, Some QCinherited)) ∧
    (∀ x rest s,
       use = x :: rest → XPACKAGE st x = Undefined →
       lookup_symbol st1 n (LPackage p) s = Undefined).
Proof.
  intros Hp Hn. eexists. split.
  { unfold Fpackage_percent_set_use_list, CHECK_PACKAGE. cbn [PACKAGEP]. step.
    by rewrite (update_package_Done st p pkg _ Hp). }
  set (st1 := set_packages st (<[p := set_pkg_use_list use pkg]> (packages st))).
  assert (packages st1 !! p = Some (set_pkg_use_list use pkg)) as Hp1.
  { unfold st1. step. by rewrite lookup_insert_eq. }
  split_and!.
  - unfold Fpackage_percent_use_list, CHECK_PACKAGE. cbn [PACKAGEP]. step.
    by rewrite (XPACKAGE_eq _ _ _ Hp1).
  - intros q pkgq sym v rest -> Hq Hs Hsym.
    assert (q ≠ p) as Hqp.
    { intros ->. rewrite Hp in Hq. injection Hq as <-. by rewrite Hn in Hs. }
    assert (packages st1 !! q = Some pkgq) as Hq1.
    { unfold st1. step. by rewrite lookup_insert_ne. }
    unfold lookup_symbol, lookup_trace, lookup_fuel.
    rewrite lookup_symbol1_S, (XPACKAGE_eq _ _ _ Hp1). step.
    cbn [set_pkg_use_list pkg_symbols pkg_use_list]. rewrite Hn.
    cbn [use_list_loop]. unfold Fmemq. rewrite bool_decide_eq_false_2
      by (intros Hin; by apply elem_of_nil in Hin).
    rewrite lookup_symbol1_S, (XPACKAGE_eq _ _ _ Hq1). step. rewrite Hs. step.
    unfold EQ. by rewrite bool_decide_eq_false_2.
  - intros x rest s -> Hx.
    assert (XPACKAGE st1 x = Undefined) as Hx1.
    { destruct x as [| | |q|]; try done. simpl in Hx |- *.
      destruct (decide (q = p)) as [->|Hqp]; [by rewrite Hp in Hx|].
      rewrite lookup_insert_ne by done. done. }
    unfold lookup_symbol, lookup_trace, lookup_fuel.
    rewrite lookup_symbol1_S, (XPACKAGE_eq _ _ _ Hp1). step.
    cbn [set_pkg_use_list pkg_symbols pkg_use_list]. rewrite Hn.
    cbn [use_list_loop]. unfold Fmemq. rewrite bool_decide_eq_false_2
      by (intros Hin; by apply elem_of_nil in Hin).
    rewrite lookup_symbol1_S, Hx1. done.
Qed.

Lemma set_use_list_takes_effect_witness :
  (∃ st1,
     Fpackage_percent_set_use_list internal_world (LPackage 1) [LFixnum 0]
       = Done ([LFixnum 0], st1) ∧
     Fpackage_percent_use_list st1 (LPackage 1) = Done [LFixnum 0] ∧
     lookup_symbol st1 "FOO" (LPackage 1) true = Undefined) ∧
  (∃ st1,
     Fpackage_percent_set_use_list shadow_world (LPackage 2) [LPackage 3]
       = Done ([LPackage 3], st1) ∧
     Fpackage_percent_use_list st1 (LPackage 2) = Done [LPackage 3] ∧
     lookup_symbol st1 "x" (LPackage 2) true = Done (LSymbol 4, Some QCinherited)).
Proof.
  split.
  - destruct (set_use_list_takes_effect internal_world 1
                (package_with "P" ∅ [LPackage 2]) "FOO" [LFixnum 0]
                ltac:(vm_compute; reflexivity) ltac:(vm_compute; reflexivity))
      as (st1 & Hset & Hget & _ & Hbad).
    exists st1. split_and!; [done..|].
    by apply (Hbad (LFixnum 0) []).
  - destruct (set_use_list_takes_effect shadow_world 2
                (package_with "B" ∅ []) "x" [LPackage 3]
                ltac:(vm_compute; reflexivity) ltac:(vm_compute; reflexivity))
      as (st1 & Hset & Hget & Hgood & _).
    exists st1. split_and!; [done..|].
    apply (Hgood 3%positive
             (package_with "C" {[ "x"%string := (LSymbol 4, QCexternal) ]} [])
             (LSymbol 4) QCexternal []); done.
Defined.
